(** * repoharvester: a shallow embedding of the harvesting pipeline

    The development follows [repoharvester.go]: the Go string primitives
    the program relies on, the Link-header parsing of the Fetcher, the
    Fetcher's retry loop, the Decoder/Filter, the Cloner, the Extractor,
    the two aggregation stages and the JSON report builder.

    Conventions.
    - Go strings are byte strings: [string].  Go [int] values are modelled
      in [Z]; the only arithmetic on them is [len(s) - 1], [len(s) - 2]
      and [LastIndex + 1], which cannot overflow a 64-bit [int].
    - [uint32] progress counters are [Z] with the wrap-around of
      [atomic.AddUint32] written out.
    - [int8] roles are [Z]; [Z.lor] on two's-complement integers is the
      bitwise OR of Go.
    - A run-time panic (slice or index out of range, an explicit
      [panic(err)]) is the [Panics] outcome.
    - Everything the program obtains from outside (HTTP responses,
      subprocess results, the interrupt signal, the scheduler's choice in a
      [select]) is read from an explicit environment record. *)

From stdpp Require Import gmap strings list fin_maps.
From Stdlib Require Import ZArith Ascii String.

Local Open Scope string_scope.
Local Open Scope Z_scope.

(** ** Outcomes of code that may panic *)

Inductive result (A : Type) : Type :=
| Returns (a : A)
| Panics.
Arguments Returns {A} a.
Arguments Panics {A}.

Global Instance result_ret : MRet result := λ A a, Returns a.
Global Instance result_bind : MBind result := λ A B k r,
  match r with
  | Returns a => k a
  | Panics => Panics
  end.

(** ** Go string primitives *)

Module GoStrings.

(** [len(s)] *)
Definition len (s : string) : Z := Z.of_nat (String.length s).

(** [s[lo:hi]]: panics unless [0 <= lo <= hi <= len(s)]. *)
Definition slice (s : string) (lo hi : Z) : result string :=
  if (0 <=? lo) && (lo <=? hi) && (hi <=? len s)
  then Returns (String.substring (Z.to_nat lo) (Z.to_nat (hi - lo)) s)
  else Panics.

(** [s[lo:]] *)
Definition slice_from (s : string) (lo : Z) : result string :=
  slice s lo (len s).

(** [strings.HasPrefix(s, prefix)] *)
Definition HasPrefix (s prefix : string) : bool := String.prefix prefix s.

(** [strings.HasSuffix(s, suffix)]:
    [len(s) >= len(suffix) && s[len(s)-len(suffix):] == suffix] *)
Definition HasSuffix (s suffix : string) : bool :=
  (len suffix <=? len s) &&
  String.eqb
    (String.substring (String.length s - String.length suffix)
                      (String.length suffix) s)
    suffix.

(** [strings.LastIndex(s, substr)]: the byte index of the last occurrence
    of [substr] in [s], or [-1].  [last_index_from i s substr] scans the
    text [s] that starts at byte offset [i] of the whole string. *)
Fixpoint last_index_from (i : Z) (s substr : string) : Z :=
  match s with
  | EmptyString => if String.eqb substr "" then i else -1
  | String _ s' =>
      let later := last_index_from (i + 1) s' substr in
      if 0 <=? later then later
      else if String.prefix substr s then i else -1
  end.

Definition LastIndex (s substr : string) : Z := last_index_from 0 s substr.

(** [strings.Split(s, sep)] for a non-empty separator (the program only
    splits on [", "] and ["; "]): the fields between the non-overlapping
    occurrences of [sep], found left to right.  [skip] counts the bytes
    of a separator that is being stepped over. *)
Fixpoint split_go (sep : string) (skip : nat) (s : string) : list string :=
  match s with
  | EmptyString => [""]
  | String c s' =>
      match skip with
      | S k => split_go sep k s'
      | O =>
          if String.prefix sep s
          then "" :: split_go sep (String.length sep - 1) s'
          else match split_go sep 0 s' with
               | field :: fields => String c field :: fields
               | [] => [String c ""]
               end
      end
  end.

Definition Split (s sep : string) : list string := split_go sep 0 s.

(** The value of a decimal digit byte. *)
Definition digit_value (c : ascii) : option Z :=
  let n := Z.of_nat (nat_of_ascii c) in
  if (48 <=? n) && (n <=? 57) then Some (n - 48) else None.

(** [strconv.ParseUint(s, 10, bitSize)]: [None] is a returned error
    (syntax error on the empty string or a non-digit byte, range error
    when the value exceeds [2^bitSize - 1]). *)
Fixpoint parse_digits (max_val acc : Z) (s : string) : option Z :=
  match s with
  | EmptyString => Some acc
  | String c s' =>
      match digit_value c with
      | None => None
      | Some d =>
          let acc' := acc * 10 + d in
          if max_val <? acc' then None else parse_digits max_val acc' s'
      end
  end.

Definition ParseUint10 (s : string) (bitSize : Z) : option Z :=
  match s with
  | EmptyString => None
  | _ => parse_digits (2 ^ bitSize - 1) 0 s
  end.

End GoStrings.

Import GoStrings.

(** The double-quote byte, and the two suffixes the Link parser looks for:
    the six-byte strings written [`"next"`] and [`"last"`] in the source. *)
Definition dquote : string := String (ascii_of_nat 34) "".
Definition rel_next : string := dquote +:+ "next" +:+ dquote.
Definition rel_last : string := dquote +:+ "last" +:+ dquote.

(** ** Link-header parsing (Stage 1 helpers) *)

(** [map[string][]string] *)
Abbreviation http_header := (gmap string (list string)).

(** [val[0]] *)
Definition index0 {A : Type} (l : list A) : result A :=
  match l with
  | x :: _ => Returns x
  | [] => Panics
  end.

(** The body of the [range link_header] loop of [get_next_link]:
    [Returns None] when the loop falls through ([return false]). *)
Fixpoint next_link_scan (link_header : list string) : result (option string) :=
  match link_header with
  | [] => Returns None
  | value :: rest =>
      if HasSuffix value rel_next then
        next_url ← index0 (Split value "; ") ;
        next_url ← slice next_url 1 (len next_url - 1) ;
        Returns (Some next_url)
      else next_link_scan rest
  end.

(** [get_next_link]: [Returns (Some u)] is [*next_url = u; return true],
    [Returns None] is [return false] with [*next_url] untouched. *)
Definition get_next_link (h : http_header) : result (option string) :=
  match h !! "Link" with
  | Some val =>
      v0 ← index0 val ;
      next_link_scan (Split v0 ", ")
  | None => Returns None
  end.

(** The body of the [range link_header] loop of [get_total_pages];
    falling through the loop reaches [*total_pages = 1]. *)
Fixpoint total_pages_scan (link_header : list string) : result Z :=
  match link_header with
  | [] => Returns 1
  | value :: rest =>
      if HasSuffix value rel_last then
        url ← index0 (Split value "; ") ;
        digit ← slice url (len url - 2) (len url - 1) ;
        match ParseUint10 digit 32 with
        | None => Panics
        | Some pages => Returns (pages mod 2 ^ 32)
        end
      else total_pages_scan rest
  end.

(** [get_total_pages]: the result is the value of [*total_pages] after
    the call. *)
Definition get_total_pages (h : http_header) (total_pages : Z) : result Z :=
  if 0 <? total_pages then Returns total_pages
  else
    match h !! "Link" with
    | Some val =>
        v0 ← index0 val ;
        total_pages_scan (Split v0 ", ")
    | None => Returns 1
    end.

(** ** Data model *)

(** [type Repo struct]; [Size] is a [uint64]. *)
Record Repo : Type := mkRepo {
  Name : string;
  Clone_url : string;
  Size : Z;
  Fork : bool;
  local_path : string
}.

(** A [*Repo] is the address of a cell of the store of received records. *)
Abbreviation ptr := nat.

(** [type EmailContext struct] *)
Record EmailContext : Type := mkEmailContext {
  ctx_Repo : ptr;
  EmailAddress : string;
  Role : Z
}.

(** [1 << iota] in a constant block that starts at [iota = 0]. *)
Definition ROLE_AUTHOR : Z := Z.shiftl 1 0.
Definition ROLE_COMMITTER : Z := Z.shiftl 1 1.
Definition ROLE_NAME_COMMITTER : string := "Committer".
Definition ROLE_NAME_AUTHOR : string := "Author".
Definition ROLE_NAME_BOTH : string := "Author+Committer".
Definition ROLE_MASK_BOTH : Z := Z.lor ROLE_AUTHOR ROLE_COMMITTER.

(** [type EmailGroupByRepoKey struct]: Go compares the [Repo] field by
    address. *)
Record EmailGroupByRepoKey : Type := mkKey {
  Email : string;
  key_Repo : ptr
}.

Global Instance EmailGroupByRepoKey_eq_dec : EqDecision EmailGroupByRepoKey.
Proof. solve_decision. Defined.

Global Instance EmailGroupByRepoKey_countable : Countable EmailGroupByRepoKey.
Proof.
  refine (inj_countable' (λ k, (Email k, key_Repo k))
                         (λ p, mkKey p.1 p.2) _).
  by intros [].
Defined.

(** [type FmtEmailPerRepo struct] and [type FmtRepoPerEmail struct] *)
Record FmtEmailPerRepo : Type := mkFmtEmailPerRepo {
  fe_RepoUrl : string;
  Emails : gmap string string
}.

Record FmtRepoPerEmail : Type := mkFmtRepoPerEmail {
  RepoName : string;
  fr_Role : string;
  fr_RepoUrl : string
}.

(** Indices into the progress arrays. *)
Definition GITHUB_FETCH : nat := 0.
Definition GITHUB_TOTAL_PAGES : nat := 0.
Definition GITHUB_PARSE : nat := 1.
Definition REMOTE_REPOS : nat := 1.
Definition GIT_OPS_CLONE : nat := 2.
Definition LOCAL_REPOS : nat := 2.
Definition GIT_OPS_LOG : nat := 3.
Definition GIT_IDENTITIES : nat := 3.
Definition EMAILS_DEDUP : nat := 4.
Definition EMAILS_GROUPED : nat := 5.

(** ** The world the stages act on *)

(** Calls to the leveled logger, one constructor per call site.  The
    periodic progress messages ([logger.DebugFunc(infoLogger)]) only read
    the counters and are not recorded. *)
Inductive log_call : Type :=
| Error_request_setup (url : string)
| Error_fetching (url : string)
| Debug_attempt (fetch_counter : Z) (url : string)
| Info_fetch_completed (total_pages errors : Z)
| Error_parsing_body
| Debug_skip_fork (name : string)
| Debug_queue_cleared (stage : nat)
| Info_parse_completed
| Info_skip_size (name : string) (size size_filter : Z)
| Debug_clone_killed (name : string)
| Error_clone (name : string)
| Info_clone_completed
| Debug_shortlog_killed (name : string)
| Error_shortlog (name : string)
| Error_scanning
| Info_shortlog_completed
| Info_dedup_completed (final : nat)
| Info_grouped_completed (final : nat).

Definition is_error_call (c : log_call) : bool :=
  match c with
  | Error_request_setup _ | Error_fetching _ | Error_parsing_body
  | Error_clone _ | Error_shortlog _ | Error_scanning => true
  | _ => false
  end.

(** Subprocess invocations of the version-control tool. *)
Inductive command : Type :=
| GitClone (clone_url dir : string)
| GitShortlog (params : list string) (dir : string).

Record world : Type := mkWorld {
  active_data : list Z;
  error_data : list Z;
  completion_data : list Z;
  total_data : list Z;
  logged : list log_call;      (* logger calls, oldest first *)
  requests : list string;      (* URLs passed to [c.Do], oldest first *)
  commands : list command;     (* subprocesses run, oldest first *)
  cancelled : bool;            (* the state of the shared context *)
  tick : nat                   (* blocking operations performed so far *)
}.

(** [atomic.AddUint32(&arr[i], delta)], [atomic.StoreUint32] and
    [atomic.LoadUint32].  The indices used are the constants above, all
    within the lengths [main] allocates; on a shorter array, which the
    program never has, the update leaves the array as it is and the load
    reads [0]. *)
Definition AddUint32 (arr : list Z) (i : nat) (delta : Z) : list Z :=
  alter (λ x, (x + delta) mod 2 ^ 32) i arr.
Definition StoreUint32 (arr : list Z) (i : nat) (v : Z) : list Z :=
  <[i := v]> arr.
Definition LoadUint32 (arr : list Z) (i : nat) : Z := default 0 (arr !! i).

(** [^uint32(0)]: adding it decrements. *)
Definition minus_one : Z := 2 ^ 32 - 1.

Definition add_active (i : nat) (d : Z) (w : world) : world :=
  mkWorld (AddUint32 (active_data w) i d) (error_data w) (completion_data w)
          (total_data w) (logged w) (requests w) (commands w) (cancelled w) (tick w).
Definition add_error (i : nat) (d : Z) (w : world) : world :=
  mkWorld (active_data w) (AddUint32 (error_data w) i d) (completion_data w)
          (total_data w) (logged w) (requests w) (commands w) (cancelled w) (tick w).
Definition add_completion (i : nat) (d : Z) (w : world) : world :=
  mkWorld (active_data w) (error_data w) (AddUint32 (completion_data w) i d)
          (total_data w) (logged w) (requests w) (commands w) (cancelled w) (tick w).
Definition add_total (i : nat) (d : Z) (w : world) : world :=
  mkWorld (active_data w) (error_data w) (completion_data w)
          (AddUint32 (total_data w) i d) (logged w) (requests w) (commands w)
          (cancelled w) (tick w).
Definition store_total (i : nat) (v : Z) (w : world) : world :=
  mkWorld (active_data w) (error_data w) (completion_data w)
          (StoreUint32 (total_data w) i v) (logged w) (requests w) (commands w)
          (cancelled w) (tick w).
Definition log (c : log_call) (w : world) : world :=
  mkWorld (active_data w) (error_data w) (completion_data w) (total_data w)
          (logged w ++ [c]) (requests w) (commands w) (cancelled w) (tick w).
Definition request (url : string) (w : world) : world :=
  mkWorld (active_data w) (error_data w) (completion_data w) (total_data w)
          (logged w) (requests w ++ [url]) (commands w) (cancelled w) (tick w).
Definition run (c : command) (w : world) : world :=
  mkWorld (active_data w) (error_data w) (completion_data w) (total_data w)
          (logged w) (requests w) (commands w ++ [c]) (cancelled w) (tick w).

(** The arrays as [main] allocates them:
    [make([]uint32, 6)], [6], [4] and [4]. *)
Definition initial_world : world :=
  mkWorld (replicate 4 0) (replicate 6 0) (replicate 6 0) (replicate 4 0)
          [] [] [] false 0.

(** ** What the program obtains from outside *)

(** What successive [dec.Decode(&r)] calls on one response body give; the
    end of the list is [io.EOF]. *)
Inductive decoded : Type :=
| Decoded (r : list Repo)
| DecodeError.

Record response : Type := mkResponse {
  Header : http_header;
  Body : list decoded
}.

(** How [cmd.Run()] fails: an [*exec.ExitError] of a process that did not
    exit and has exit code [-1], any other [*exec.ExitError], or another
    error. *)
Inductive run_error : Type :=
| Killed
| ExitFailure
| OtherFailure.

(** The standard output of a shortlog run as the scanner sees it. *)
Record shortlog_output : Type := mkShortlogOutput {
  lines : list string;
  scan_err : bool
}.

Record environment : Type := mkEnv {
  (** [http.NewRequestWithContext] accepts the URL *)
  request_ok : string → bool;
  (** the outcome of the [n]-th call of [c.Do], [None] for an error *)
  http_do : nat → string → option response;
  (** the outcome of the clone subprocess, [None] for success *)
  clone_run : Repo → option run_error;
  (** the outcome of a shortlog subprocess for a repository and a role *)
  shortlog_run : Repo → Z → run_error + shortlog_output;
  (** [filepath.Join] *)
  path_join : string → string → string;
  (** an interrupt signal has been delivered before blocking operation [n]:
      the signal goroutine of [main] calls [cancel()] *)
  interrupt : nat → bool;
  (** when the context is done and the other branch of blocking operation
      [n] is ready too, the operation takes the [ctx.Done()] branch *)
  done_chosen : nat → bool;
  (** the [n]-th blocking point finds a free slot in the Extractor's local
      two-slot limiter *)
  local_slot_free : nat → bool;
  (** the order in which [range params_containers] visits the two roles *)
  range_reversed : Repo → bool
}.

(** ** Cancellation *)

Definition cancel (w : world) : world :=
  mkWorld (active_data w) (error_data w) (completion_data w) (total_data w)
          (logged w) (requests w) (commands w) true (tick w).

Definition next_tick (w : world) : world :=
  mkWorld (active_data w) (error_data w) (completion_data w) (total_data w)
          (logged w) (requests w) (commands w) (cancelled w) (S (tick w)).

(** The goroutine of [main] that waits on the signal channel and on the two
    completion channels: only the interrupt signal makes it call
    [cancel()]. *)
Inductive watcher_event : Type :=
| Signal_interrupt
| Email_list_done
| Email_group_done.

Definition signal_watcher (ev : watcher_event) (w : world) : world :=
  match ev with
  | Signal_interrupt => cancel w
  | Email_list_done | Email_group_done => w
  end.

(** ** Stage states and exits *)

Record fetcher : Type := mkFetcher {
  urls : list string;          (* the work queue, oldest first *)
  urls_closed : bool;
  bodies : list (list decoded); (* the output queue, oldest first *)
  bodies_closed : bool;
  fworld : world
}.

Definition with_world (f : fetcher) (w : world) : fetcher :=
  mkFetcher (urls f) (urls_closed f) (bodies f) (bodies_closed f) w.

(** How the goroutine of the Fetcher ends.  [Fetch_stuck] (an empty work
    queue at the head of the loop) and [Fetch_out_of_fuel] are not exits
    of the program: the first is a goroutine blocked on its queue, the
    second belongs to the model. *)
Inductive fetch_exit : Type :=
| Fetch_semaphore_refused
| Fetch_cancelled
| Fetch_request_setup_failed
| Fetch_retries_exhausted
| Fetch_last_page
| Fetch_panicked
| Fetch_stuck
| Fetch_out_of_fuel.

Record stage (A : Type) : Type := mkStage {
  queue : list A;             (* the output queue, oldest first *)
  closed : bool;
  sworld : world
}.
Arguments mkStage {A} _ _ _.
Arguments queue {A} _.
Arguments closed {A} _.
Arguments sworld {A} _.

Definition on_world {A : Type} (g : world → world) (s : stage A) : stage A :=
  mkStage (queue s) (closed s) (g (sworld s)).
Definition set_world {A : Type} (s : stage A) (w : world) : stage A :=
  mkStage (queue s) (closed s) w.
Definition push {A : Type} (a : A) (s : stage A) : stage A :=
  mkStage (queue s ++ [a]) (closed s) (sworld s).
Definition close {A : Type} (s : stage A) : stage A :=
  mkStage (queue s) true (sworld s).

(** How a spawned task ends. *)
Inductive task_exit : Type :=
| Task_done
| Task_failed
| Task_cancelled
| Task_panicked.

(** How the driver goroutine of a stage ends; a panic in any goroutine
    ends the program. *)
Inductive stage_exit : Type :=
| Stage_completed
| Stage_cancelled
| Stage_panicked.

Definition set_local_path (repo : Repo) (path : string) : Repo :=
  mkRepo (Name repo) (Clone_url repo) (Size repo) (Fork repo) path.

(** What the Cloner's driver does with one received record: the size
    filter skips it, the semaphore is refused because the context is done,
    or a clone is attempted. *)
Inductive clone_decision : Type :=
| Clone_skipped
| Clone_refused
| Clone_attempted (e : task_exit).

(** The state of the Extractor: its two output queues, which are closed
    together, and the store of the records it received.  Each received
    record is a fresh variable of the driver's loop; the two tasks spawned
    for it share its address. *)
Record extractor : Type := mkExtractor {
  emails : list string;
  context_emails : list EmailContext;
  queues_closed : bool;
  store : list Repo;
  xworld : world
}.

Definition x_on_world (g : world → world) (x : extractor) : extractor :=
  mkExtractor (emails x) (context_emails x) (queues_closed x) (store x)
              (g (xworld x)).
Definition x_set_world (x : extractor) (w : world) : extractor :=
  mkExtractor (emails x) (context_emails x) (queues_closed x) (store x) w.
Definition x_push_email (email : string) (x : extractor) : extractor :=
  mkExtractor (emails x ++ [email]) (context_emails x) (queues_closed x)
              (store x) (xworld x).
Definition x_push_context (c : EmailContext) (x : extractor) : extractor :=
  mkExtractor (emails x) (context_emails x ++ [c]) (queues_closed x)
              (store x) (xworld x).
Definition x_close (x : extractor) : extractor :=
  mkExtractor (emails x) (context_emails x) true (store x) (xworld x).
Definition x_alloc (repo : Repo) (x : extractor) : extractor :=
  mkExtractor (emails x) (context_emails x) (queues_closed x)
              (store x ++ [repo]) (xworld x).

(** [params_containers]: the arguments of the two shortlog queries, keyed
    by the role each query reports. *)
Definition params_containers : gmap Z (list string) :=
  {[ ROLE_AUTHOR := ["--no-pager"; "shortlog"; "--all"; "-n"; "-e"; "-s"];
     ROLE_COMMITTER :=
       ["--no-pager"; "shortlog"; "--all"; "-n"; "-e"; "-s"; "-c"] ]}.

(** [full_author[strings.LastIndex(full_author, "<")+1 : len(full_author)-1]] *)
Definition extract_email (full_author : string) : result string :=
  slice full_author (LastIndex full_author "<" + 1) (len full_author - 1).

Section Pipeline.

Variable E : environment.

(** A blocking operation that races against [ctx.Done()] (a [select]
    with a [ctx.Done()] case, or [g_semaphore.Acquire(ctx, 1)]): the
    boolean tells whether the cancellation branch was taken. *)
Definition blocking_point (w : world) : bool * world :=
  let w1 := if interrupt E (tick w)
            then signal_watcher Signal_interrupt w else w in
  (cancelled w1 && done_chosen E (tick w), next_tick w1).

(** *** Stage 1: the Fetcher, [get_repos_from_github] *)

(** The inner [for] loop up to the point where [c.Do] succeeded or the
    retry budget is spent: [Some (w, Some resp)] is a response,
    [Some (w, None)] is the [return] after the last failed attempt,
    [None] is the model running out of fuel. *)
Fixpoint fetch_retry (fuel : nat) (url : string) (fetch_counter : Z)
         (w : world) : option (world * option response) :=
  match fuel with
  | O => None
  | S fuel' =>
      let resp := http_do E (List.length (requests w)) url in
      let w := request url w in
      match resp with
      | Some r => Some (w, Some r)
      | None =>
          if 4 <=? fetch_counter then
            let w := log (Error_fetching url) w in
            let w := add_error GITHUB_FETCH 1 w in
            let w := add_active GITHUB_FETCH minus_one w in
            Some (w, None)
          else
            let w := log (Debug_attempt fetch_counter url) w in
            fetch_retry fuel' url (fetch_counter + 1) w
      end
  end.

(** The outer [for] loop.  [pages] bounds the number of iterations the
    model follows, [attempts] is the fuel of the retry loop. *)
Fixpoint fetch_loop (pages attempts : nat) (total_pages : Z) (f : fetcher)
  : fetch_exit * fetcher :=
  match pages with
  | O => (Fetch_out_of_fuel, f)
  | S pages' =>
      let '(done, w) := blocking_point (fworld f) in
      if done then (Fetch_cancelled, with_world f w)
      else
        match urls f with
        | [] => (Fetch_stuck, with_world f w)
        | url :: queued =>
            let f := mkFetcher queued (urls_closed f) (bodies f)
                               (bodies_closed f) w in
            let w := add_active GITHUB_FETCH 1 w in
            if negb (request_ok E url) then
              let w := log (Error_request_setup url) w in
              let w := add_error GITHUB_FETCH 1 w in
              let w := add_active GITHUB_FETCH minus_one w in
              (Fetch_request_setup_failed, with_world f w)
            else
              match fetch_retry attempts url 1 w with
              | None => (Fetch_out_of_fuel, with_world f w)
              | Some (w, None) => (Fetch_retries_exhausted, with_world f w)
              | Some (w, Some resp) =>
                  match get_total_pages (Header resp) total_pages with
                  | Panics => (Fetch_panicked, with_world f w)
                  | Returns total_pages =>
                      let w := store_total GITHUB_TOTAL_PAGES total_pages w in
                      let w := add_completion GITHUB_FETCH 1 w in
                      let w := add_active GITHUB_FETCH minus_one w in
                      let '(done, w) := blocking_point w in
                      if done then (Fetch_cancelled, with_world f w)
                      else
                        let f := mkFetcher (urls f) (urls_closed f)
                                           (bodies f ++ [Body resp])
                                           (bodies_closed f) w in
                        match get_next_link (Header resp) with
                        | Panics => (Fetch_panicked, f)
                        | Returns (Some next_url) =>
                            let f := mkFetcher (urls f ++ [next_url])
                                               (urls_closed f) (bodies f)
                                               (bodies_closed f) w in
                            fetch_loop pages' attempts total_pages f
                        | Returns None =>
                            let w := log (Info_fetch_completed
                                             total_pages
                                             (LoadUint32 (error_data w)
                                                         GITHUB_FETCH)) w in
                            (Fetch_last_page, with_world f w)
                        end
                  end
              end
        end
  end.

(** [defer close(urls)] and [defer close(bodies)]: they run whenever the
    goroutine function is left, by a [return] or by a panic. *)
Definition close_queues (f : fetcher) : fetcher :=
  mkFetcher (urls f) true (bodies f) true (fworld f).

Definition leaves_goroutine (e : fetch_exit) : bool :=
  match e with
  | Fetch_stuck | Fetch_out_of_fuel => false
  | _ => true
  end.

Definition run_deferred (r : fetch_exit * fetcher) : fetch_exit * fetcher :=
  if leaves_goroutine r.1 then (r.1, close_queues r.2) else r.

Definition get_repos_from_github (pages attempts : nat) (url : string)
           (w : world) : fetch_exit * fetcher :=
  let f := mkFetcher [url] false [] false w in
  let '(done, w) := blocking_point w in
  if done then run_deferred (Fetch_semaphore_refused, with_world f w)
  else run_deferred (fetch_loop pages attempts 0 (with_world f w)).

(** *** Stages 2 to 4: shared shapes

    A stage owns one output queue.  The tasks a stage spawns are run one
    after the other, in the order they are spawned: the model follows the
    records a stage hands over, not the interleaving of its tasks.  The
    program runs the tasks of a stage concurrently, so the order in which
    the items of different tasks reach a queue is that of one schedule
    among those the program has; the driver waits for its tasks before it
    closes the queue, so in a run that is not cancelled the items
    themselves are the same under every schedule.  What is stated below
    about the content of these queues and about the subprocesses run is
    therefore stated up to permutation. *)

(** *** Stage 2: the Decoder/Filter, [parse_github_response] *)

(** [for _, repo := range r] *)
Fixpoint forward_repos (fork_filter : bool) (r : list Repo) (s : stage Repo)
  : bool * stage Repo :=
  match r with
  | [] => (false, s)
  | repo :: r' =>
      if Fork repo && fork_filter then
        forward_repos fork_filter r'
                      (on_world (log (Debug_skip_fork (Name repo))) s)
      else
        let '(done, w) := blocking_point (sworld s) in
        if done then (true, set_world s w)
        else
          let s := push repo (set_world s w) in
          forward_repos fork_filter r' (on_world (add_total REMOTE_REPOS 1) s)
  end.

(** The decode task of one body: the [for] loop around [dec.Decode]. *)
Fixpoint decode_task (fork_filter : bool) (body : list decoded)
         (s : stage Repo) : task_exit * stage Repo :=
  match body with
  | [] => (Task_done, s)
  | DecodeError :: _ =>
      let s := on_world (log Error_parsing_body) s in
      let s := on_world (add_error GITHUB_PARSE 1) s in
      let s := on_world (add_active GITHUB_PARSE minus_one) s in
      (Task_failed, s)
  | Decoded r :: body' =>
      let '(done, s) := forward_repos fork_filter r s in
      if done then (Task_cancelled, s)
      else
        let s := on_world (add_completion GITHUB_PARSE 1) s in
        let s := on_world (add_active GITHUB_PARSE minus_one) s in
        decode_task fork_filter body' s
  end.

(** The driver loop; [repo_data] is what the input queue delivers before
    it is closed.  The goroutine the driver spawns for a body is run here
    to its end before the next body is taken: one of the schedules of the
    program, see above. *)
Fixpoint parse_loop (fork_filter : bool) (repo_data : list (list decoded))
         (s : stage Repo) : stage_exit * stage Repo :=
  let '(done, w) := blocking_point (sworld s) in
  if done then (Stage_cancelled, close (set_world s w))
  else
    match repo_data with
    | [] =>
        let s := on_world (log (Debug_queue_cleared GITHUB_PARSE))
                          (set_world s w) in
        (Stage_completed, on_world (log Info_parse_completed) (close s))
    | body :: rest =>
        let '(done, w) := blocking_point w in
        if done then (Stage_cancelled, close (set_world s w))
        else
          let s := set_world s (add_active GITHUB_PARSE 1 w) in
          parse_loop fork_filter rest (decode_task fork_filter body s).2
    end.

Definition parse_github_response (repo_data : list (list decoded))
           (fork_filter : bool) (w : world) : stage_exit * stage Repo :=
  parse_loop fork_filter repo_data (mkStage [] false w).

(** *** Stage 3: the Cloner, [git_ops_clone] *)

(** The clone goroutine of one record. *)
Definition clone_task (working_dir : string) (repo : Repo) (s : stage Repo)
  : task_exit * stage Repo :=
  let s := on_world (run (GitClone (Clone_url repo) working_dir)) s in
  match clone_run E repo with
  | Some Killed =>
      let s := on_world (log (Debug_clone_killed (Name repo))) s in
      let s := on_world (add_error GIT_OPS_CLONE 1) s in
      let s := on_world (add_active GIT_OPS_CLONE minus_one) s in
      (Task_failed, s)
  | Some _ =>
      let s := on_world (log (Error_clone (Name repo))) s in
      let s := on_world (add_error GIT_OPS_CLONE 1) s in
      let s := on_world (add_active GIT_OPS_CLONE minus_one) s in
      (Task_failed, s)
  | None =>
      let repo := set_local_path repo (path_join E working_dir (Name repo)) in
      let '(done, w) := blocking_point (sworld s) in
      if done then (Task_cancelled, set_world s w)
      else
        let s := push repo (set_world s w) in
        let s := on_world (add_total LOCAL_REPOS 2) s in
        let s := on_world (add_completion GIT_OPS_CLONE 1) s in
        let s := on_world (add_active GIT_OPS_CLONE minus_one) s in
        (Task_done, s)
  end.

(** What the driver does with one received record: the size filter, then
    the semaphore, then the clone task, which is a goroutine of its own in
    the program and is run here to its end before the driver goes on. *)
Definition clone_step (working_dir : string) (size_filter : Z) (repo : Repo)
           (s : stage Repo) : clone_decision * stage Repo :=
  if (0 <? size_filter) && (size_filter <? Size repo) then
    let s := on_world (add_completion GIT_OPS_CLONE 1) s in
    let s := on_world (log (Info_skip_size (Name repo) (Size repo) size_filter)) s in
    (Clone_skipped, s)
  else
    let '(done, w) := blocking_point (sworld s) in
    if done then (Clone_refused, close (set_world s w))
    else
      let s := set_world s (add_active GIT_OPS_CLONE 1 w) in
      let '(e, s) := clone_task working_dir repo s in
      (Clone_attempted e, s).

Fixpoint clone_loop (working_dir : string) (size_filter : Z)
         (repos : list Repo) (s : stage Repo) : stage_exit * stage Repo :=
  let '(done, w) := blocking_point (sworld s) in
  if done then (Stage_cancelled, close (set_world s w))
  else
    match repos with
    | [] =>
        let s := on_world (log (Debug_queue_cleared GIT_OPS_CLONE))
                          (set_world s w) in
        (Stage_completed, on_world (log Info_clone_completed) (close s))
    | repo :: rest =>
        match clone_step working_dir size_filter repo (set_world s w) with
        | (Clone_refused, s) => (Stage_cancelled, s)
        | (_, s) => clone_loop working_dir size_filter rest s
        end
    end.

Definition git_ops_clone (repos : list Repo) (working_dir : string)
           (size_filter : Z) (w : world) : stage_exit * stage Repo :=
  clone_loop working_dir size_filter repos (mkStage [] false w).

(** *** Stage 4: the Extractor, [git_ops_shortlog] *)

(** [for scanner.Scan()] over the lines of one shortlog run; [p] is
    [&repo]. *)
Fixpoint scan_lines (p : ptr) (role : Z) (ls : list string) (x : extractor)
  : task_exit * extractor :=
  match ls with
  | [] => (Task_done, x)
  | full_author :: ls' =>
      match extract_email full_author with
      | Panics => (Task_panicked, x)
      | Returns email =>
          let '(done, w) := blocking_point (xworld x) in
          if done then (Task_cancelled, x_set_world x w)
          else
            let x := x_push_email email (x_set_world x w) in
            let '(done, w) := blocking_point (xworld x) in
            if done then (Task_cancelled, x_set_world x w)
            else
              let x := x_push_context (mkEmailContext p email role)
                                      (x_set_world x w) in
              let x := x_on_world (add_total GIT_IDENTITIES 1) x in
              scan_lines p role ls' x
      end
  end.

(** The shortlog goroutine of one record and one role. *)
Definition shortlog_task (repo : Repo) (p : ptr) (role : Z)
           (params : list string) (x : extractor) : task_exit * extractor :=
  let x := x_on_world (run (GitShortlog params (local_path repo))) x in
  match shortlog_run E repo role with
  | inl Killed =>
      let x := x_on_world (log (Debug_shortlog_killed (Name repo))) x in
      let x := x_on_world (add_error GIT_OPS_LOG 1) x in
      let x := x_on_world (add_active GIT_OPS_LOG minus_one) x in
      (Task_failed, x)
  | inl _ =>
      let x := x_on_world (log (Error_shortlog (Name repo))) x in
      let x := x_on_world (add_error GIT_OPS_LOG 1) x in
      let x := x_on_world (add_active GIT_OPS_LOG minus_one) x in
      (Task_failed, x)
  | inr output =>
      match scan_lines p role (lines output) x with
      | (Task_done, x) =>
          if scan_err output then
            let x := x_on_world (add_error GIT_OPS_LOG 1) x in
            let x := x_on_world (add_active GIT_OPS_LOG minus_one) x in
            let x := x_on_world (log Error_scanning) x in
            (Task_failed, x)
          else
            let x := x_on_world (add_completion GIT_OPS_LOG 1) x in
            let x := x_on_world (add_active GIT_OPS_LOG minus_one) x in
            (Task_done, x)
      | other => other
      end
  end.

(** [for role, params := range params_containers]: Go visits the entries
    of a map in an unspecified order. *)
Definition range_params (repo : Repo) : list (Z * list string) :=
  if range_reversed E repo then reverse (map_to_list params_containers)
  else map_to_list params_containers.

(** [None]: the loop over the roles ran to its end.  The two queries of a
    record are goroutines of their own in the program; here each is run to
    its end before the next one starts. *)
Fixpoint shortlog_roles (repo : Repo) (p : ptr)
         (roles : list (Z * list string)) (x : extractor)
  : option stage_exit * extractor :=
  match roles with
  | [] => (None, x)
  | (role, params) :: roles' =>
      let '(refused, w) :=
        if local_slot_free E (tick (xworld x)) then (false, xworld x)
        else blocking_point (xworld x) in
      if refused then (Some Stage_cancelled, x_close (x_set_world x w))
      else
        let x := x_set_world x (add_active GIT_OPS_LOG 1 w) in
        match shortlog_task repo p role params x with
        | (Task_panicked, x) => (Some Stage_panicked, x)
        | (_, x) => shortlog_roles repo p roles' x
        end
  end.

Fixpoint shortlog_loop (local_repos : list Repo) (x : extractor)
  : stage_exit * extractor :=
  let '(done, w) := blocking_point (xworld x) in
  if done then (Stage_cancelled, x_close (x_set_world x w))
  else
    match local_repos with
    | [] =>
        let x := x_on_world (log (Debug_queue_cleared GIT_OPS_LOG))
                            (x_set_world x w) in
        (Stage_completed, x_on_world (log Info_shortlog_completed) (x_close x))
    | repo :: rest =>
        let p := List.length (store x) in
        let x := x_alloc repo (x_set_world x w) in
        match shortlog_roles repo p (range_params repo) x with
        | (Some e, x) => (e, x)
        | (None, x) => shortlog_loop rest x
        end
    end.

Definition git_ops_shortlog (local_repos : list Repo) (w : world)
  : stage_exit * extractor :=
  shortlog_loop local_repos (mkExtractor [] [] false [] w).

End Pipeline.

(** ** Stages 5 and 6: the Deduplicator and the Grouper *)

(** One iteration of [for email := range emails]. *)
Definition dedup_step (emails_deduped : gmap string Z) (email : string)
  : gmap string Z :=
  match emails_deduped !! email with
  | Some _ => emails_deduped
  | None => <[email := 0]> emails_deduped
  end.

(** [emails_dedup]: the map handed to [main], and the world once the input
    queue is closed and [done] is signalled.  The processed-items counter
    (a platform-sized [uint] that is only printed) is left out of the
    final message. *)
Fixpoint dedup_loop (emails : list string) (m : gmap string Z) (w : world)
  : gmap string Z * world :=
  match emails with
  | [] => (m, w)
  | email :: rest =>
      dedup_loop rest (dedup_step m email) (add_completion EMAILS_DEDUP 1 w)
  end.

Definition emails_dedup (emails : list string) (w : world)
  : gmap string Z * world :=
  let '(m, w) := dedup_loop emails ∅ w in
  (m, log (Info_dedup_completed (size m)) w).

(** One iteration of [for context := range contexts]:
    [emails_grouped[key] |= context.Role]; a missing key reads as [0]. *)
Definition group_step (emails_grouped : gmap EmailGroupByRepoKey Z)
           (context : EmailContext) : gmap EmailGroupByRepoKey Z :=
  let key := mkKey (EmailAddress context) (ctx_Repo context) in
  <[key := Z.lor (default 0 (emails_grouped !! key)) (Role context)]>
    emails_grouped.

Fixpoint group_loop (contexts : list EmailContext)
         (m : gmap EmailGroupByRepoKey Z) (w : world)
  : gmap EmailGroupByRepoKey Z * world :=
  match contexts with
  | [] => (m, w)
  | context :: rest =>
      group_loop rest (group_step m context)
                 (add_completion EMAILS_GROUPED 1 w)
  end.

Definition emails_by_repo (contexts : list EmailContext) (w : world)
  : gmap EmailGroupByRepoKey Z * world :=
  let '(m, w) := group_loop contexts ∅ w in
  (m, log (Info_grouped_completed (size m)) w).

(** ** The structured report, [create_output_json] *)

Definition role_reference : gmap Z string :=
  {[ ROLE_AUTHOR := ROLE_NAME_AUTHOR;
     ROLE_COMMITTER := ROLE_NAME_COMMITTER;
     ROLE_MASK_BOTH := ROLE_NAME_BOTH ]}.

(** [role_reference[role_id]]: a missing key reads as the empty string. *)
Definition role_name (role_id : Z) : string :=
  default "" (role_reference !! role_id).

(** The first statement of the loop body: the email key and the domain
    key under which an entry is reported. *)
Definition email_and_domain (email : string) : result (string * string) :=
  if String.eqb email "" then Returns ("!blank!", "!none!")
  else
    let at_index := LastIndex email "@" in
    if 0 <? at_index then
      domain ← slice_from email (at_index + 1) ;
      Returns (email, domain)
    else Returns (email, "!none!").

(** The two views that are marshalled: [output["repos"]] and
    [output["emails"]]. *)
Record report : Type := mkReport {
  repos : gmap string FmtEmailPerRepo;
  by_domain : gmap string (gmap string (list FmtRepoPerEmail))
}.

(** [*p] for a [*Repo]. *)
Definition deref (store : list Repo) (p : ptr) : result Repo :=
  match store !! p with
  | Some repo => Returns repo
  | None => Panics
  end.

(** The body of [for group_by_key, role_id := range emails_grouped]. *)
Definition report_entry (store : list Repo) (rep : report)
           (entry : EmailGroupByRepoKey * Z) : result report :=
  let '(group_by_key, role_id) := entry in
  '(email, domain) ← email_and_domain (Email group_by_key) ;
  repo ← deref store (key_Repo group_by_key) ;
  let repos1 :=
    match repos rep !! Name repo with
    | Some _ => repos rep
    | None => <[Name repo := mkFmtEmailPerRepo (Clone_url repo) ∅]> (repos rep)
    end in
  let emails1 :=
    match by_domain rep !! domain with
    | Some _ => by_domain rep
    | None => <[domain := ∅]> (by_domain rep)
    end in
  let of_domain : gmap string (list FmtRepoPerEmail) :=
    default ∅ (emails1 !! domain) in
  let of_domain1 : gmap string (list FmtRepoPerEmail) :=
    match of_domain !! email with
    | Some _ => of_domain
    | None => <[email := []]> of_domain
    end in
  let listed : list FmtRepoPerEmail := default [] (of_domain1 !! email) in
  let item := mkFmtRepoPerEmail (Name repo) (role_name role_id) (Clone_url repo) in
  let emails2 := <[domain := <[email := (listed ++ [item])%list]> of_domain1]> emails1 in
  let repos2 :=
    alter (λ fe, mkFmtEmailPerRepo (fe_RepoUrl fe)
                                   (<[email := role_name role_id]> (Emails fe)))
          (Name repo) repos1 in
  Returns (mkReport repos2 emails2).

(** The loop over the entries, in the order Go happens to visit them. *)
Fixpoint report_entries (store : list Repo) (rep : report)
         (entries : list (EmailGroupByRepoKey * Z)) : result report :=
  match entries with
  | [] => Returns rep
  | entry :: rest =>
      rep ← report_entry store rep entry ;
      report_entries store rep rest
  end.

(** The report [create_output_json] marshals, for one visiting order of
    the map. *)
Definition create_output_json (store : list Repo)
           (emails_grouped : gmap EmailGroupByRepoKey Z) : result report :=
  report_entries store (mkReport ∅ ∅) (map_to_list emails_grouped).

(** ** The wiring of [main] *)

Record harvest : Type := mkHarvest {
  fetched : fetch_exit * fetcher;
  parsed : stage_exit * stage Repo;
  cloned : stage_exit * stage Repo;
  extracted : stage_exit * extractor;
  emails_deduped : gmap string Z;
  emails_grouped : gmap EmailGroupByRepoKey Z;
  final_world : world
}.

(** Each stage consumes what the stage before it put on its queue.  The
    option [--size-filter] is a [uint64]; [main] passes [0] on when it is
    not positive.  After both completion signals [main] calls [cancel()]. *)
Definition main (E : environment) (pages attempts : nat) (url : string)
           (ForkFilter : bool) (working_dir : string) (SizeFilter : Z)
  : harvest :=
  let size_filter := if SizeFilter <=? 0 then 0 else SizeFilter in
  let r1 := get_repos_from_github E pages attempts url initial_world in
  let r2 := parse_github_response E (bodies r1.2) ForkFilter (fworld r1.2) in
  let r3 := git_ops_clone E (queue r2.2) working_dir size_filter (sworld r2.2) in
  let r4 := git_ops_shortlog E (queue r3.2) (sworld r3.2) in
  let '(deduped, w) := emails_dedup (emails r4.2) (xworld r4.2) in
  let '(grouped, w) := emails_by_repo (context_emails r4.2) w in
  mkHarvest r1 r2 r3 r4 deduped grouped (cancel w).

(** ** The logger's levels *)

Definition LOG_FATAL : Z := 0.
Definition LOG_ERROR : Z := 1.
Definition LOG_INFO : Z := 2.
Definition LOG_DEBUG : Z := 3.

(** What a function field of the logger can hold; the zero value of a
    function field is nil. *)
Inductive log_func : Type :=
| nil_func
| noop | noopf | noopfunc
| log_debug | logf_debug | logfunc_debug
| log_info | logf_info | logfunc_info
| log_error | logf_error | logfunc_error
| log_fatal | log_panic.

Record Logger : Type := mkLogger {
  Panic : log_func;
  Fatal : log_func;
  Error : log_func;
  Errorf : log_func;
  ErrorFunc : log_func;
  Info : log_func;
  Infof : log_func;
  InfoFunc : log_func;
  Debug : log_func;
  Debugf : log_func;
  DebugFunc : log_func;
  log_level : Z
}.

(** [set_level]: [level] is a [uint8].  The switch enters at the case equal
    to [level] and falls through every case below it, so a case body runs
    when [level] matched it or a case above it.  [Panic] is the one field
    that is not reset first. *)
Definition set_level (level : Z) (logger : Logger) : bool * Logger :=
  if 3 <? level then (false, logger)
  else
    let at_debug := level =? LOG_DEBUG in
    let at_info := at_debug || (level =? LOG_INFO) in
    let at_error := at_info || (level =? LOG_ERROR) in
    let at_fatal := at_error || (level =? LOG_FATAL) in
    (true,
     mkLogger
       (if at_fatal then log_panic else Panic logger)
       (if at_fatal then log_fatal else noop)
       (if at_error then log_error else noop)
       (if at_error then logf_error else noopf)
       (if at_error then logfunc_error else noopfunc)
       (if at_info then log_info else noop)
       (if at_info then logf_info else noopf)
       (if at_info then logfunc_info else noopfunc)
       (if at_debug then log_debug else noop)
       (if at_debug then logf_debug else noopf)
       (if at_debug then logfunc_debug else noopfunc)
       level).

(** ** The command-line options *)

(** The fields of [opts] that [init] and the preamble of [main] read.
    [Workers] is an [int8], [QueueSize] an [int], [SizeFilter] a
    [uint64]; the field [Type] is written [Type_]. *)
Record ResourceOptions : Type := mkResourceOptions {
  Type_ : string;
  Org : bool;
  User : bool;
  Url : bool;
  SizeFilter : Z
}.

Record OutputOptions : Type := mkOutputOptions {
  OutputJson : string;
  OutputFile : string
}.

Record ApplicationOptions : Type := mkApplicationOptions {
  Verbose : bool;
  Quiet : bool;
  WorkingDir : string;
  GitPath : string
}.

Record AdvancedOptions : Type := mkAdvancedOptions {
  Workers : Z;
  QueueSize : Z
}.

Record Positional : Type := mkPositional {
  TargetName : string
}.

Record options : Type := mkOptions {
  Args : Positional;
  Resource : ResourceOptions;
  Output : OutputOptions;
  Application : ApplicationOptions;
  Advanced : AdvancedOptions
}.

Inductive init_exit : Type :=
| Init_returns
| Init_exits (code : Z) (message : string).

(** The checks of [init] once the parser has accepted the command line and
    left no argument over.  On booleans [!=] is exclusive or, and a chain
    of [!=] associates to the left. *)
Definition init (opts : options) : init_exit :=
  let r := Resource opts in
  let a := Application opts in
  if negb (User r) && negb (Org r) && negb (Url r) && (len (Type_ r) =? 0)
  then Init_exits 1 "Please provide either org, user or url as the target type"
  else if xorb (xorb (xorb (User r) (Org r)) (Url r)) (len (Type_ r) =? 0)
  then Init_exits 1
         "Please use only one setting: --user, --org, --url or --type <user|org|url>"
  else if Quiet a && Verbose a
  then Init_exits 1 "You can't have it both ways, quiet and verbose"
  else Init_returns.

(** ** The preamble of [main] *)

(** What the preamble obtains from the operating system.  An error is
    given by its text; [f_Readdir] is the outcome of [f.Readdir(1)] on the
    opened working directory.  [os_OpenFile] is the exclusive creation
    [check_ouput_location] attempts; since each successful call creates a
    file, the outcome may depend on the files the program has created so
    far, which are its first argument. *)
Inductive readdir : Type :=
| Readdir_entries
| Readdir_EOF
| Readdir_error (err : string).

Record system : Type := mkSystem {
  os_Getwd : string + string;
  exec_LookPath : string → option string;
  filepath_Join : string → string → string;
  os_MkdirAll : string → option string;
  os_Open : string → option string;
  f_Readdir : string → readdir;
  os_OpenFile : list string → string → option string;
  filepath_Abs : string → string + string
}.

Definition check_working_dir (sys : system) (working_dir : string)
  : bool * option string :=
  match os_MkdirAll sys working_dir with
  | Some err => (false, Some err)
  | None =>
      match os_Open sys working_dir with
      | Some err => (false, Some err)
      | None =>
          match f_Readdir sys working_dir with
          | Readdir_error err => (false, Some err)
          | Readdir_EOF => (true, None)
          | Readdir_entries => (false, None)
          end
      end
  end.

Definition check_ouput_location (sys : system) (created : list string)
           (file : string) : bool * option string :=
  match os_OpenFile sys created file with
  | Some err => (false, Some err)
  | None => (true, None)
  end.

(** How a piece of [main] ends: it goes on, the process exits, or a
    goroutine panics. *)
Inductive panic_site : Type :=
| Nil_function_call
| Not_a_panic_call
| Target_type_unknown
| Working_dir_unusable
| Git_path_unresolved.

Inductive outcome (A : Type) : Type :=
| Continues (a : A)
| Exits (code : Z)
| Panicked (site : panic_site).
Arguments Continues {A} _.
Arguments Exits {A} _.
Arguments Panicked {A} _.

Global Instance outcome_ret : MRet outcome := λ A a, Continues a.
Global Instance outcome_bind : MBind outcome := λ A B k r,
  match r with
  | Continues a => k a
  | Exits code => Exits code
  | Panicked site => Panicked site
  end.

(** A call of a function field of the logger: [log_fatal] ends the process
    with [os.Exit(1)], [log_panic] panics, a nil function value cannot be
    called, and every other function returns.  [site] names the call when
    it is one of the calls of [logger.Panic] and is [Not_a_panic_call]
    for the calls of the other fields. *)
Definition call (f : log_func) (site : panic_site) : outcome unit :=
  match f with
  | nil_func => Panicked Nil_function_call
  | log_fatal => Exits 1
  | log_panic => Panicked site
  | _ => Continues tt
  end.

Definition when (b : bool) (m : outcome unit) : outcome unit :=
  if b then m else Continues tt.

Definition None_Provided : string := "!None-Provided!".

(** What the preamble of [main] hands to the pipeline. *)
Record setup : Type := mkSetup {
  setup_logger : Logger;
  setup_BUFFER_SIZE : Z;
  setup_NUM_WORKERS : Z;
  setup_target_type : string;
  setup_size_filter : Z;
  setup_working_dir : string;
  setup_output_file : string;
  setup_output_json : string;
  setup_url : string;
  setup_git_path : string
}.

Definition main_log_level (opts : options) : Z :=
  if Verbose (Application opts) then LOG_DEBUG
  else if Quiet (Application opts) then LOG_ERROR
  else LOG_INFO.

Definition main_target_type (opts : options) : string :=
  let r := Resource opts in
  if User r then "users"
  else if Org r then "orgs"
  else if Url r then "url"
  else if String.eqb (Type_ r) "org" then "orgs"
  else if String.eqb (Type_ r) "user" then "users"
  else if String.eqb (Type_ r) "url" then "url"
  else "".

(** The replacer fills the two placeholders of the URL template, each of
    which occurs once; what it puts in is not looked at again. *)
Definition main_url (target_type target_name : string) : string :=
  if negb (String.eqb target_type "url")
  then "https://api.github.com/" +:+ target_type +:+ "/" +:+ target_name
       +:+ "/repos?per_page=100"
  else target_name.

(** [main] up to [logger.Info("Starting...")], statement by statement.  A
    failed call leaves the zero value in its result variable. *)
Definition main_setup (opts : options) (sys : system) (logger : Logger)
  : outcome setup :=
  let logger := (set_level (main_log_level opts) logger).2 in
  let here := Not_a_panic_call in
  WorkingDir ←
    (if String.eqb (WorkingDir (Application opts)) None_Provided then
       let '(working_path, failed) :=
         match os_Getwd sys with
         | inl path => (path, false)
         | inr _ => ("", true)
         end in
       _ ← when failed (call (Fatal logger) here) ;
       _ ← call (Debugf logger) here ;
       let WorkingDir := filepath_Join sys working_path "working_dir" in
       _ ← call (Infof logger) here ;
       mret WorkingDir
     else mret (WorkingDir (Application opts))) ;
  GitPath ←
    (if String.eqb (GitPath (Application opts)) None_Provided then
       let '(path, failed) :=
         match exec_LookPath sys "git" with
         | Some path => (path, false)
         | None => ("", true)
         end in
       _ ← when failed (call (Fatal logger) here) ;
       _ ← call (Infof logger) here ;
       mret path
     else mret (GitPath (Application opts))) ;
  QueueSize ←
    (if QueueSize (Advanced opts) <? 1 then
       _ ← call (Error logger) here ; mret 20
     else mret (QueueSize (Advanced opts))) ;
  Workers ←
    (if Workers (Advanced opts) <? 1 then
       _ ← call (Error logger) here ; mret 20
     else mret (Workers (Advanced opts))) ;
  let target_type := main_target_type opts in
  _ ← when (len target_type <? 3) (call (Panic logger) Target_type_unknown) ;
  size_filter ←
    (if SizeFilter (Resource opts) <=? 0 then
       _ ← call (Info logger) here ; mret 0
     else mret (SizeFilter (Resource opts))) ;
  let working_dir := WorkingDir in
  let output_file := OutputFile (Output opts) in
  let output_json := OutputJson (Output opts) in
  let '(ok, err) := check_working_dir sys working_dir in
  _ ← when (negb ok)
        (match err with
         | None => call (Fatal logger) here
         | Some _ => call (Panic logger) Working_dir_unusable
         end) ;
  let '(ok, _) := check_ouput_location sys [] output_file in
  _ ← when (negb ok) (call (Fatal logger) here) ;
  let created := if ok then [output_file] else [] in
  let '(ok, _) := check_ouput_location sys created output_json in
  _ ← when (negb ok) (call (Fatal logger) here) ;
  let url := main_url target_type (TargetName (Args opts)) in
  let '(git_path, failed) :=
    match filepath_Abs sys GitPath with
    | inl path => (path, false)
    | inr _ => ("", true)
    end in
  _ ← when failed (call (Panic logger) Git_path_unresolved) ;
  _ ← call (Info logger) here ;
  mret (mkSetup logger QueueSize Workers target_type size_filter working_dir
                output_file output_json url git_path).

(** ** Writing the flat file *)

Definition int8 (z : Z) : Z := (z + 128) mod 256 - 128.

(** The loop around [ioutil.WriteFile]: [WriteFile k] is the error of the
    call number [k], if it fails.  The result is the error returned and the
    number of calls made. *)
Fixpoint write_retry (WriteFile : nat → option string) (fuel calls : nat)
         (write_counter : Z) : option (option string * nat) :=
  match fuel with
  | O => None
  | S fuel =>
      match WriteFile calls with
      | Some err =>
          if 3 <? write_counter then Some (Some err, S calls)
          else write_retry WriteFile fuel (S calls) (int8 (write_counter + 1))
      | None => Some (None, S calls)
      end
  end.

(** The buffer [create_output_file] fills: every key followed by the line
    separator, for one visiting order of the map. *)
Definition output_data (LINE_SEP : string) (emails : gmap string Z) : string :=
  fold_left (λ buffer key, buffer +:+ key +:+ LINE_SEP)
            (map fst (map_to_list emails)) "".

Definition create_output_file (LINE_SEP : string)
           (WriteFile : nat → string → string → option string) (fuel : nat)
           (output_file : string) (emails : gmap string Z)
  : option (option string * nat) :=
  write_retry (λ k, WriteFile k output_file (output_data LINE_SEP emails))
              fuel 0%nat 1.

(** The goroutine of [main] that writes the flat file: nothing is written
    for an empty map. *)
Definition write_flat_file (LINE_SEP : string)
           (WriteFile : nat → string → string → option string) (fuel : nat)
           (output_file : string) (emails : gmap string Z)
  : option (option string * nat) :=
  if Z.of_nat (size emails) =? 0 then Some (None, 0%nat)
  else create_output_file LINE_SEP WriteFile fuel output_file emails.

(** * Properties *)

(** Blocking operations are reasoned about through the two lemmas below. *)
Lemma blocking_point_frame E w :
  let w' := (blocking_point E w).2 in
  active_data w' = active_data w ∧ error_data w' = error_data w ∧
  completion_data w' = completion_data w ∧ total_data w' = total_data w ∧
  logged w' = logged w ∧ requests w' = requests w ∧
  commands w' = commands w ∧ tick w' = S (tick w).
Proof.
  unfold blocking_point. destruct (interrupt E (tick w)); simpl; repeat split.
Qed.

Lemma blocking_point_token E w :
  cancelled (blocking_point E w).2 = cancelled w || interrupt E (tick w).
Proof.
  unfold blocking_point. destruct (interrupt E (tick w)); simpl.
  - by rewrite orb_true_r.
  - by rewrite orb_false_r.
Qed.

Lemma blocking_point_refuses E w :
  (blocking_point E w).1 = true → cancelled (blocking_point E w).2 = true.
Proof.
  unfold blocking_point. simpl.
  destruct (interrupt E (tick w)); simpl; intros H; [reflexivity|].
  apply andb_true_iff in H as [H _]. exact H.
Qed.

Opaque blocking_point.

(** ** Stage 6: grouping is a bitwise-OR fold *)

Definition key_of (context : EmailContext) : EmailGroupByRepoKey :=
  mkKey (EmailAddress context) (ctx_Repo context).

(** The roles of the items received for a key, in arrival order. *)
Definition roles_received (key : EmailGroupByRepoKey)
           (contexts : list EmailContext) : list Z :=
  Role <$> filter (λ c, key_of c = key) contexts.

Definition or_fold (roles : list Z) : Z := foldr Z.lor 0 roles.

Lemma group_loop_map contexts m w :
  (group_loop contexts m w).1 = foldl group_step m contexts.
Proof.
  revert m w. induction contexts as [|c contexts IH]; intros m w; simpl; auto.
Qed.

Lemma emails_by_repo_map contexts w :
  (emails_by_repo contexts w).1 = foldl group_step ∅ contexts.
Proof.
  unfold emails_by_repo.
  pose proof (group_loop_map contexts ∅ w) as H.
  destruct (group_loop contexts ∅ w) as [m w']. exact H.
Qed.

Lemma roles_received_cons key c contexts :
  roles_received key (c :: contexts) =
  if decide (key_of c = key) then Role c :: roles_received key contexts
  else roles_received key contexts.
Proof.
  unfold roles_received. rewrite filter_cons.
  destruct (decide (key_of c = key)); reflexivity.
Qed.

Lemma roles_received_app key l1 l2 :
  roles_received key (l1 ++ l2) =
  (roles_received key l1 ++ roles_received key l2)%list.
Proof. unfold roles_received. by rewrite filter_app, fmap_app. Qed.

Lemma roles_received_perm key l1 l2 :
  l1 ≡ₚ l2 → roles_received key l1 ≡ₚ roles_received key l2.
Proof. intros H. unfold roles_received. by rewrite H. Qed.

Lemma or_fold_perm rs1 rs2 : rs1 ≡ₚ rs2 → or_fold rs1 = or_fold rs2.
Proof.
  induction 1 as [|r rs1 rs2 _ IH|r1 r2 rs|rs1 rs2 rs3 _ IH1 _ IH2]; simpl.
  - reflexivity.
  - by rewrite IH.
  - rewrite !Z.lor_assoc. f_equal. apply Z.lor_comm.
  - congruence.
Qed.

Lemma or_fold_app rs1 rs2 :
  or_fold (rs1 ++ rs2) = Z.lor (or_fold rs1) (or_fold rs2).
Proof.
  induction rs1 as [|r rs1 IH]; simpl.
  - reflexivity.
  - by rewrite IH, Z.lor_assoc.
Qed.

Lemma or_fold_absorb r rs : r ∈ rs → Z.lor r (or_fold rs) = or_fold rs.
Proof.
  induction 1 as [r rs|r r' rs _ IH]; simpl.
  - by rewrite Z.lor_assoc, Z.lor_diag.
  - rewrite Z.lor_assoc, (Z.lor_comm r r'), <- Z.lor_assoc. by rewrite IH.
Qed.

(** The value the fold leaves under a key, from any starting map. *)
Lemma foldl_group_step_lookup contexts m key :
  foldl group_step m contexts !! key =
  match roles_received key contexts with
  | [] => m !! key
  | roles => Some (Z.lor (default 0 (m !! key)) (or_fold roles))
  end.
Proof.
  revert m. induction contexts as [|c contexts IH]; intros m.
  - reflexivity.
  - simpl foldl. rewrite IH, roles_received_cons.
    assert (group_step m c =
            <[key_of c := Z.lor (default 0 (m !! key_of c)) (Role c)]> m) as ->
        by reflexivity.
    destruct (decide (key_of c = key)) as [<-|Hne].
    + rewrite lookup_insert_eq. simpl.
      destruct (roles_received (key_of c) contexts) as [|r rs]; simpl.
      * by rewrite Z.lor_0_r.
      * by rewrite <- !Z.lor_assoc.
    + by rewrite lookup_insert_ne.
Qed.

Lemma grouped_lookup contexts w key :
  (emails_by_repo contexts w).1 !! key =
  match roles_received key contexts with
  | [] => None
  | roles => Some (or_fold roles)
  end.
Proof.
  rewrite emails_by_repo_map, foldl_group_step_lookup, lookup_empty.
  destruct (roles_received key contexts); reflexivity.
Qed.

Lemma grouped_perm l1 l2 w1 w2 :
  l1 ≡ₚ l2 → (emails_by_repo l1 w1).1 = (emails_by_repo l2 w2).1.
Proof.
  intros Hp. apply map_eq. intros key. rewrite !grouped_lookup.
  pose proof (roles_received_perm key _ _ Hp) as Hr.
  pose proof (Permutation_length Hr) as Hlen.
  pose proof (or_fold_perm _ _ Hr) as Hor.
  destruct (roles_received key l1) as [|r1 rs1],
           (roles_received key l2) as [|r2 rs2];
    simpl in Hlen; try discriminate; congruence.
Qed.

Lemma grouped_duplicate c l w1 w2 :
  c ∈ l → (emails_by_repo (l ++ [c]) w1).1 = (emails_by_repo l w2).1.
Proof.
  intros Hin. apply map_eq. intros key. rewrite !grouped_lookup.
  rewrite roles_received_app, roles_received_cons.
  destruct (decide (key_of c = key)) as [Hk|Hk].
  - assert (Role c ∈ roles_received key l) as Hr.
    { unfold roles_received. apply list_elem_of_fmap. exists c. split; auto.
      apply list_elem_of_filter. auto. }
    unfold roles_received at 2. simpl app.
    destruct (roles_received key l) as [|r rs] eqn:Erl.
    + inversion Hr.
    + simpl app. f_equal.
      change (or_fold ((r :: rs) ++ [Role c]) = or_fold (r :: rs)).
      rewrite or_fold_app. simpl. rewrite Z.lor_0_r, Z.lor_comm.
      by apply (or_fold_absorb (Role c) (r :: rs)).
  - unfold roles_received at 2. simpl. by rewrite app_nil_r.
Qed.

(** [C1] For every (email, repository) key the role accumulated in the
    grouped association map is the bitwise-OR fold of the roles of all the
    items received for that key (a key for which nothing was received has
    no entry).  Receiving the same items in another order gives the same
    map; an item that was already received leaves the map unchanged when
    it arrives again; author and committer items for one key give the
    combined value in either order, and a duplicated author item gives what
    a single one gives. *)
Theorem grouping_is_or_fold :
  (∀ contexts w key,
      (emails_by_repo contexts w).1 !! key =
      match roles_received key contexts with
      | [] => None
      | roles => Some (or_fold roles)
      end) ∧
  (∀ l1 l2 w1 w2,
      l1 ≡ₚ l2 → (emails_by_repo l1 w1).1 = (emails_by_repo l2 w2).1) ∧
  (∀ l c w1 w2,
      c ∈ l → (emails_by_repo (l ++ [c]) w1).1 = (emails_by_repo l w2).1) ∧
  (∀ email repo w,
      let author := mkEmailContext repo email ROLE_AUTHOR in
      let committer := mkEmailContext repo email ROLE_COMMITTER in
      let key := mkKey email repo in
      (emails_by_repo [author; committer] w).1 !! key = Some ROLE_MASK_BOTH ∧
      (emails_by_repo [committer; author] w).1 !! key = Some ROLE_MASK_BOTH ∧
      (emails_by_repo [author; author] w).1 !! key = Some ROLE_AUTHOR ∧
      (emails_by_repo [author] w).1 !! key = Some ROLE_AUTHOR).
Proof.
  split; [exact grouped_lookup|].
  split; [exact grouped_perm|].
  split; [intros l c w1 w2; apply grouped_duplicate|].
  intros email repo w author committer key.
  rewrite !grouped_lookup. unfold roles_received, author, committer, key.
  rewrite !filter_cons, filter_nil. unfold key_of. simpl.
  rewrite !decide_True by reflexivity. simpl. auto.
Qed.

Lemma grouping_is_or_fold_witness :
  let a := mkEmailContext 0%nat "al@x.org" ROLE_AUTHOR in
  let c := mkEmailContext 0%nat "al@x.org" ROLE_COMMITTER in
  (emails_by_repo [a; c] initial_world).1 =
  (emails_by_repo [c; a] initial_world).1 ∧
  (emails_by_repo ([a; c] ++ [a]) initial_world).1 =
  (emails_by_repo [a; c] initial_world).1.
Proof.
  split.
  - apply (proj1 (proj2 grouping_is_or_fold)). apply perm_swap.
  - apply (proj1 (proj2 (proj2 grouping_is_or_fold))). apply list_elem_of_here.
Defined.

(** ** Stage 5: deduplication *)

Lemma dedup_loop_map emails m w :
  (dedup_loop emails m w).1 = foldl dedup_step m emails.
Proof.
  revert m w. induction emails as [|e emails IH]; intros m w; simpl; auto.
Qed.

Lemma emails_dedup_map emails w :
  (emails_dedup emails w).1 = foldl dedup_step ∅ emails.
Proof.
  unfold emails_dedup.
  pose proof (dedup_loop_map emails ∅ w) as H.
  destruct (dedup_loop emails ∅ w) as [m w']. exact H.
Qed.

Lemma foldl_dedup_step_lookup emails (m : gmap string Z) email :
  foldl dedup_step m emails !! email =
  match m !! email with
  | Some v => Some v
  | None => if decide (email ∈ emails) then Some 0 else None
  end.
Proof.
  revert m. induction emails as [|e emails IH]; intros m.
  - simpl foldl. destruct (m !! email); [reflexivity|].
    destruct (decide (email ∈ [])) as [Hin|_]; [|reflexivity].
    by apply not_elem_of_nil in Hin.
  - simpl foldl. rewrite IH. unfold dedup_step.
    destruct (decide (e = email)) as [->|Hne].
    + destruct (m !! email) as [v|] eqn:Hm.
      * by rewrite Hm.
      * rewrite lookup_insert_eq.
        destruct (decide (email ∈ email :: emails)) as [_|Hout];
          [reflexivity|].
        exfalso. apply Hout, list_elem_of_here.
    + assert ((match m !! e with
               | Some _ => m
               | None => <[e := 0]> m
               end) !! email = m !! email) as ->.
      { destruct (m !! e); [reflexivity|]. by rewrite lookup_insert_ne. }
      destruct (m !! email); [reflexivity|].
      destruct (decide (email ∈ emails)) as [Hin|Hout],
               (decide (email ∈ e :: emails)) as [Hin'|Hout'];
        try reflexivity.
      * exfalso. by apply Hout', list_elem_of_further.
      * exfalso. apply elem_of_cons in Hin' as [?|?]; congruence.
Qed.

Lemma deduped_lookup emails w email :
  (emails_dedup emails w).1 !! email =
  if decide (email ∈ emails) then Some 0 else None.
Proof.
  by rewrite emails_dedup_map, foldl_dedup_step_lookup, lookup_empty.
Qed.

Lemma deduped_is_set emails w :
  (emails_dedup emails w).1 = gset_to_gmap 0 (list_to_set emails).
Proof.
  apply map_eq. intros email.
  rewrite deduped_lookup, lookup_gset_to_gmap.
  destruct (decide (email ∈ emails)) as [Hin|Hout].
  - rewrite option_guard_True; [reflexivity|]. by apply elem_of_list_to_set.
  - rewrite option_guard_False; [reflexivity|]. by rewrite elem_of_list_to_set.
Qed.

Lemma deduped_dom emails w :
  dom (emails_dedup emails w).1 = list_to_set emails.
Proof. by rewrite deduped_is_set, dom_gset_to_gmap. Qed.

Lemma deduped_size emails w :
  size (emails_dedup emails w).1 = List.length (remove_dups emails).
Proof.
  rewrite <- size_dom, deduped_dom.
  rewrite <- (size_list_to_set (C := gset string) (remove_dups emails))
    by apply NoDup_remove_dups.
  f_equal. apply set_eq. intros e.
  by rewrite !elem_of_list_to_set, elem_of_remove_dups.
Qed.

Lemma deduped_perm l1 l2 w1 w2 :
  l1 ≡ₚ l2 → (emails_dedup l1 w1).1 = (emails_dedup l2 w2).1.
Proof. intros Hp. rewrite !deduped_is_set. by rewrite Hp. Qed.

Lemma deduped_again l1 l2 w1 w2 :
  (∀ e, e ∈ l2 → e ∈ l1) →
  (emails_dedup (l1 ++ l2) w1).1 = (emails_dedup l1 w2).1.
Proof.
  intros Hsub. rewrite !deduped_is_set. f_equal.
  apply set_eq. intros e. rewrite !elem_of_list_to_set, elem_of_app.
  split; [intros [?|?]; auto | auto].
Qed.

(** [C2] The deduplicated map has exactly the distinct email strings of
    the input as its keys, and as many entries as there are distinct
    strings.  Feeding a permutation of the input gives the same map, hence
    the same membership and the same size; feeding emails that were
    already seen once more changes nothing. *)
Theorem dedup_is_order_independent :
  (∀ emails w,
      dom (emails_dedup emails w).1 = list_to_set emails ∧
      (∀ email, is_Some ((emails_dedup emails w).1 !! email) ↔ email ∈ emails) ∧
      size (emails_dedup emails w).1 = List.length (remove_dups emails)) ∧
  (∀ l1 l2 w1 w2,
      l1 ≡ₚ l2 →
      (emails_dedup l1 w1).1 = (emails_dedup l2 w2).1 ∧
      dom (emails_dedup l1 w1).1 = dom (emails_dedup l2 w2).1 ∧
      size (emails_dedup l1 w1).1 = size (emails_dedup l2 w2).1) ∧
  (∀ l1 l2 w1 w2,
      (∀ e, e ∈ l2 → e ∈ l1) →
      (emails_dedup (l1 ++ l2) w1).1 = (emails_dedup l1 w2).1).
Proof.
  split; [|split].
  - intros emails w. split; [apply deduped_dom|]. split; [|apply deduped_size].
    intros email. rewrite deduped_lookup.
    destruct (decide (email ∈ emails)) as [Hin|Hout]; split; intros Hs.
    + exact Hin.
    + exists 0. reflexivity.
    + destruct Hs as [v Hv]. discriminate Hv.
    + contradiction.
  - intros l1 l2 w1 w2 Hp.
    rewrite (deduped_perm l1 l2 w1 w2 Hp). auto.
  - exact deduped_again.
Qed.

Lemma dedup_is_order_independent_witness :
  (emails_dedup ["a@x"; "b@y"; "a@x"] initial_world).1 =
  (emails_dedup ["b@y"; "a@x"; "a@x"] initial_world).1 ∧
  (emails_dedup (["a@x"; "b@y"] ++ ["a@x"]) initial_world).1 =
  (emails_dedup ["a@x"; "b@y"] initial_world).1.
Proof.
  split.
  - apply (proj1 (proj2 dedup_is_order_independent)
             ["a@x"; "b@y"; "a@x"] ["b@y"; "a@x"; "a@x"]).
    apply perm_swap.
  - apply (proj2 (proj2 dedup_is_order_independent)).
    intros e He. apply elem_of_cons in He as [->|He].
    + apply list_elem_of_here.
    + by apply not_elem_of_nil in He.
Defined.

(** ** Progress counters *)

(** The arrays have the lengths [main] gives them. *)
Definition counters_allocated (w : world) : Prop :=
  List.length (active_data w) = 4%nat ∧
  List.length (error_data w) = 6%nat ∧
  List.length (completion_data w) = 6%nat ∧
  List.length (total_data w) = 4%nat.

Lemma initial_world_allocated : counters_allocated initial_world.
Proof. repeat split. Qed.

Lemma LoadUint32_AddUint32 arr i d :
  (i < List.length arr)%nat →
  LoadUint32 (AddUint32 arr i d) i = (LoadUint32 arr i + d) mod 2 ^ 32.
Proof.
  intros Hi. unfold LoadUint32, AddUint32.
  destruct (lookup_lt_is_Some_2 arr i Hi) as [x Hx].
  rewrite list_lookup_alter, Hx, decide_True by reflexivity. reflexivity.
Qed.

Lemma succ_mod_neq x : (x + 1) mod 2 ^ 32 ≠ x.
Proof.
  intros H.
  pose proof (Z.mod_pos_bound (x + 1) (2 ^ 32) ltac:(lia)) as Hb.
  assert (x mod 2 ^ 32 = x) as Hx by (apply Z.mod_small; lia).
  rewrite <- Zplus_mod_idemp_l, Hx in H.
  assert ((x + 1) mod 2 ^ 32 = if decide (x + 1 = 2 ^ 32) then 0 else x + 1) as Hs.
  { destruct (decide (x + 1 = 2 ^ 32)) as [->|Hne].
    - apply Z.mod_same. lia.
    - apply Z.mod_small. lia. }
  rewrite Hs in H. destruct (decide (x + 1 = 2 ^ 32)); lia.
Qed.

Lemma AddUint32_one_neq arr i :
  (i < List.length arr)%nat → AddUint32 arr i 1 ≠ arr.
Proof.
  intros Hi Heq.
  pose proof (LoadUint32_AddUint32 arr i 1 Hi) as Hl.
  rewrite Heq in Hl. symmetry in Hl. by apply succ_mod_neq in Hl.
Qed.

(** ** Stage 3: the size filter *)

(** What an observer sees when a record was skipped: no subprocess was
    run, the completed counter of the stage went up by one, the error
    counters and the output queue are as before. *)
Definition skipped_between (s s' : stage Repo) : Prop :=
  commands (sworld s') = commands (sworld s) ∧
  completion_data (sworld s') =
    AddUint32 (completion_data (sworld s)) GIT_OPS_CLONE 1 ∧
  error_data (sworld s') = error_data (sworld s) ∧
  queue s' = queue s.

Lemma clone_step_not_skipped E working_dir size_filter repo s :
  (0 <? size_filter) && (size_filter <? Size repo) = false →
  (clone_step E working_dir size_filter repo s).1 ≠ Clone_skipped.
Proof.
  intros Hc. unfold clone_step. rewrite Hc.
  destruct (blocking_point E (sworld s)) as [[] w]; simpl; [discriminate|].
  destruct (clone_task _ _ _ _); simpl; discriminate.
Qed.

Lemma clone_step_decision E working_dir size_filter repo s :
  (clone_step E working_dir size_filter repo s).1 = Clone_skipped ↔
  0 < size_filter ∧ size_filter < Size repo.
Proof.
  destruct ((0 <? size_filter) && (size_filter <? Size repo)) eqn:Hc.
  - unfold clone_step. rewrite Hc. simpl.
    apply andb_true_iff in Hc as [H0 H1].
    apply Z.ltb_lt in H0, H1. split; auto.
  - split.
    + intros Hs. by apply clone_step_not_skipped in Hs.
    + intros [H0 H1]. apply Z.ltb_lt in H0, H1. rewrite H0, H1 in Hc.
      discriminate.
Qed.

Lemma clone_task_runs E working_dir repo s :
  commands (sworld (clone_task E working_dir repo s).2) =
  (commands (sworld s) ++ [GitClone (Clone_url repo) working_dir])%list.
Proof.
  unfold clone_task. destruct (clone_run E repo) as [[]|]; simpl; auto.
  pose proof (blocking_point_frame E
                (run (GitClone (Clone_url repo) working_dir) (sworld s))) as Hf.
  destruct (blocking_point E _) as [[] w]; simpl in *;
    destruct Hf as (_ & _ & _ & _ & _ & _ & Hc & _); rewrite Hc; reflexivity.
Qed.

Lemma snoc_neq {A : Type} (l : list A) (x : A) : (l ++ [x])%list ≠ l.
Proof.
  intros H. apply (f_equal (@List.length A)) in H.
  rewrite length_app in H. simpl in H. lia.
Qed.

Lemma clone_step_skipped_between E working_dir size_filter repo s :
  counters_allocated (sworld s) →
  skipped_between s (clone_step E working_dir size_filter repo s).2 ↔
  0 < size_filter ∧ size_filter < Size repo.
Proof.
  intros (_ & _ & Hlen & _).
  destruct ((0 <? size_filter) && (size_filter <? Size repo)) eqn:Hc.
  - pose proof Hc as Hc'. apply andb_true_iff in Hc' as [H0 H1].
    apply Z.ltb_lt in H0, H1.
    unfold clone_step. rewrite Hc. simpl. split; [auto|].
    intros _. repeat split.
  - split.
    + intros (Hcmd & Hdone & _ & _). exfalso. revert Hcmd Hdone.
      unfold clone_step. rewrite Hc.
      pose proof (blocking_point_frame E (sworld s)) as Hf.
      destruct (blocking_point E (sworld s)) as [[] w]; simpl in *.
      * intros _ Hdone. destruct Hf as (_ & _ & Hcd & _).
        rewrite Hcd in Hdone. symmetry in Hdone. revert Hdone.
        apply AddUint32_one_neq. rewrite Hlen. unfold GIT_OPS_CLONE. lia.
      * intros Hcmd _.
        pose proof (clone_task_runs E working_dir repo
                      (set_world s (add_active GIT_OPS_CLONE 1 w))) as Hr.
        destruct (clone_task _ _ _ _) as [e s']. simpl in *.
        destruct Hf as (_ & _ & _ & _ & _ & _ & Hcw & _).
        rewrite Hr, Hcw in Hcmd. by apply snoc_neq in Hcmd.
    + intros [H0 H1]. apply Z.ltb_lt in H0, H1. rewrite H0, H1 in Hc.
      discriminate.
Qed.

(** [C3] For a record of size [S] and a threshold [T], the Cloner's driver
    skips the record if and only if [T > 0] and [S > T]; a skip is exactly
    what shows as: no clone subprocess run, the stage's completed counter
    one higher, the error counters unchanged and nothing put on the output
    queue.  With [T = 0] no record is skipped. *)
Theorem size_filter_skips_iff_larger E working_dir size_filter repo s :
  counters_allocated (sworld s) →
  let r := clone_step E working_dir size_filter repo s in
  (r.1 = Clone_skipped ↔ 0 < size_filter ∧ size_filter < Size repo) ∧
  (skipped_between s r.2 ↔ 0 < size_filter ∧ size_filter < Size repo) ∧
  (r.1 = Clone_skipped →
   LoadUint32 (completion_data (sworld r.2)) GIT_OPS_CLONE =
     (LoadUint32 (completion_data (sworld s)) GIT_OPS_CLONE + 1) mod 2 ^ 32 ∧
   LoadUint32 (error_data (sworld r.2)) GIT_OPS_CLONE =
     LoadUint32 (error_data (sworld s)) GIT_OPS_CLONE) ∧
  (size_filter = 0 → r.1 ≠ Clone_skipped ∧ ¬ skipped_between s r.2).
Proof.
  intros Hw r. subst r.
  split; [apply clone_step_decision|].
  split; [by apply clone_step_skipped_between|].
  split.
  - intros Hs. apply clone_step_decision in Hs as [H0 H1].
    apply Z.ltb_lt in H0, H1. unfold clone_step. rewrite H0, H1. simpl.
    split; [|reflexivity].
    apply LoadUint32_AddUint32. destruct Hw as (_ & _ & -> & _).
    unfold GIT_OPS_CLONE. lia.
  - intros ->. split.
    + rewrite clone_step_decision. lia.
    + rewrite clone_step_skipped_between by done. lia.
Qed.

Definition big_repo : Repo :=
  mkRepo "assets" "https://github.com/o/assets.git" 2000000 false "".

Definition quiet_env : environment :=
  mkEnv (λ _, true) (λ _ _, None) (λ _, None)
        (λ _ _, inr (mkShortlogOutput [] false))
        (λ d n, d +:+ "/" +:+ n)
        (λ _, false) (λ _, false) (λ _, true) (λ _, false).

Lemma size_filter_skips_iff_larger_witness :
  (clone_step quiet_env "/w" 1000000 big_repo (mkStage [] false initial_world)).1
  = Clone_skipped.
Proof.
  apply (proj1 (size_filter_skips_iff_larger quiet_env "/w" 1000000 big_repo
                  (mkStage [] false initial_world) initial_world_allocated)).
  vm_compute. split; reflexivity.
Defined.

(** ** Stage 2: the fork filter *)

Definition nonfork (repo : Repo) : Prop := Fork repo = false.

Lemma forward_repos_nonfork E r s :
  Forall nonfork (queue s) →
  Forall nonfork (queue (forward_repos E true r s).2).
Proof.
  revert s. induction r as [|repo r IH]; intros s Hs; simpl; [exact Hs|].
  destruct (Fork repo) eqn:Hf; simpl.
  - apply IH. exact Hs.
  - destruct (blocking_point E (sworld s)) as [[] w]; simpl; [exact Hs|].
    apply IH. simpl. apply Forall_app. split; [exact Hs|].
    apply Forall_singleton. exact Hf.
Qed.

Lemma decode_task_nonfork E body s :
  Forall nonfork (queue s) →
  Forall nonfork (queue (decode_task E true body s).2).
Proof.
  revert s. induction body as [|[r|] body IH]; intros s Hs; simpl; auto.
  pose proof (forward_repos_nonfork E r s Hs) as Hr.
  destruct (forward_repos E true r s) as [[] s']; simpl in *; [exact Hr|].
  apply IH. exact Hr.
Qed.

Lemma parse_loop_nonfork E repo_data s :
  Forall nonfork (queue s) →
  Forall nonfork (queue (parse_loop E true repo_data s).2).
Proof.
  revert s. induction repo_data as [|body rest IH]; intros s Hs; simpl.
  - destruct (blocking_point E (sworld s)) as [[] w]; simpl; exact Hs.
  - destruct (blocking_point E (sworld s)) as [[] w]; simpl; [exact Hs|].
    destruct (blocking_point E w) as [[] w']; simpl; [exact Hs|].
    apply IH. apply decode_task_nonfork. exact Hs.
Qed.

(** The Cloner forwards only records it received, with the local path
    attached. *)
Lemma clone_step_nonfork E working_dir size_filter repo s :
  nonfork repo → Forall nonfork (queue s) →
  Forall nonfork (queue (clone_step E working_dir size_filter repo s).2).
Proof.
  intros Hr Hs. unfold clone_step.
  destruct ((0 <? size_filter) && (size_filter <? Size repo)); simpl; [exact Hs|].
  destruct (blocking_point E (sworld s)) as [[] w]; simpl; [exact Hs|].
  unfold clone_task. simpl.
  destruct (clone_run E repo) as [[]|]; simpl; try exact Hs.
  destruct (blocking_point E _) as [[] w']; simpl; [exact Hs|].
  apply Forall_app. split; [exact Hs|]. apply Forall_singleton. exact Hr.
Qed.

Lemma clone_loop_nonfork E working_dir size_filter repos s :
  Forall nonfork repos → Forall nonfork (queue s) →
  Forall nonfork (queue (clone_loop E working_dir size_filter repos s).2).
Proof.
  revert s. induction repos as [|repo rest IH]; intros s Hr Hs; simpl.
  - destruct (blocking_point E (sworld s)) as [[] w]; simpl; exact Hs.
  - destruct (blocking_point E (sworld s)) as [[] w]; simpl; [exact Hs|].
    apply Forall_cons in Hr as [Hrepo Hrest].
    pose proof (clone_step_nonfork E working_dir size_filter repo
                  (set_world s w) Hrepo Hs) as Hstep.
    destruct (clone_step E working_dir size_filter repo (set_world s w))
      as [[| |e] s']; simpl in *; auto.
Qed.

(** The Extractor stores the records it received and hands out their
    addresses. *)
Definition contexts_point_to (P : Repo → Prop) (x : extractor) : Prop :=
  Forall P (store x) ∧
  Forall (λ c, (ctx_Repo c < List.length (store x))%nat) (context_emails x).

Lemma scan_lines_points_to E P p role ls x :
  (p < List.length (store x))%nat →
  contexts_point_to P x →
  contexts_point_to P (scan_lines E p role ls x).2.
Proof.
  revert x. induction ls as [|full_author ls IH]; intros x Hp Hx; simpl;
    [exact Hx|].
  destruct (extract_email full_author) as [email|]; simpl; [|exact Hx].
  destruct (blocking_point E (xworld x)) as [[] w]; simpl; [exact Hx|].
  destruct (blocking_point E w) as [[] w']; simpl; [exact Hx|].
  apply IH; simpl; [exact Hp|].
  destruct Hx as [Hst Hc]. split; [exact Hst|]. simpl.
  apply Forall_app. split; [exact Hc|]. apply Forall_singleton. exact Hp.
Qed.

Lemma scan_lines_store E p role ls x :
  store (scan_lines E p role ls x).2 = store x.
Proof.
  revert x. induction ls as [|full_author ls IH]; intros x; simpl; auto.
  destruct (extract_email full_author) as [email|]; simpl; auto.
  destruct (blocking_point E (xworld x)) as [[] w]; simpl; auto.
  destruct (blocking_point E w) as [[] w']; simpl; auto.
  by rewrite IH.
Qed.

Lemma shortlog_task_points_to E P repo p role params x :
  (p < List.length (store x))%nat →
  contexts_point_to P x →
  contexts_point_to P (shortlog_task E repo p role params x).2 ∧
  store (shortlog_task E repo p role params x).2 = store x.
Proof.
  intros Hp Hx. unfold shortlog_task.
  destruct (shortlog_run E repo role) as [[]|output]; simpl; auto.
  set (x0 := x_on_world (run (GitShortlog params (local_path repo))) x).
  pose proof (scan_lines_points_to E P p role (lines output) x0 Hp Hx) as H1.
  pose proof (scan_lines_store E p role (lines output) x0) as H2.
  destruct (scan_lines E p role (lines output) x0) as [[] x1]; simpl in *;
    auto.
  destruct (scan_err output); simpl; auto.
Qed.

Lemma shortlog_roles_points_to E P repo p roles x :
  (p < List.length (store x))%nat →
  contexts_point_to P x →
  contexts_point_to P (shortlog_roles E repo p roles x).2.
Proof.
  revert x. induction roles as [|[role params] roles IH]; intros x Hp Hx;
    simpl; [exact Hx|].
  destruct (if local_slot_free E (tick (xworld x))
            then (false, xworld x) else blocking_point E (xworld x))
    as [[] w]; simpl; [exact Hx|].
  set (x0 := x_set_world x (add_active GIT_OPS_LOG 1 w)).
  destruct (shortlog_task_points_to E P repo p role params x0 Hp Hx)
    as [H1 H2].
  destruct (shortlog_task E repo p role params x0) as [[] x1]; simpl in *;
    try exact H1; apply IH; try exact H1; rewrite H2; exact Hp.
Qed.

Lemma points_to_alloc P repo x :
  P repo → contexts_point_to P x → contexts_point_to P (x_alloc repo x).
Proof.
  intros Hr [Hs Hc]. split; simpl.
  - apply Forall_app. split; [exact Hs|]. by apply Forall_singleton.
  - eapply Forall_impl; [exact Hc|]. intros c Hlt. simpl in Hlt.
    rewrite length_app. simpl. lia.
Qed.

Lemma shortlog_loop_points_to E P local_repos x :
  Forall P local_repos →
  contexts_point_to P x →
  contexts_point_to P (shortlog_loop E local_repos x).2.
Proof.
  revert x. induction local_repos as [|repo rest IH]; intros x Hr Hx; simpl.
  - destruct (blocking_point E (xworld x)) as [[] w]; simpl; exact Hx.
  - destruct (blocking_point E (xworld x)) as [[] w]; simpl; [exact Hx|].
    apply Forall_cons in Hr as [Hrepo Hrest].
    set (x0 := x_alloc repo (x_set_world x w)).
    assert (contexts_point_to P x0) as Hx0 by (by apply points_to_alloc).
    assert (List.length (store x) < List.length (store x0))%nat as Hp.
    { unfold x0. simpl. rewrite length_app. simpl. lia. }
    pose proof (shortlog_roles_points_to E P repo _ (range_params E repo)
                  x0 Hp Hx0) as H1.
    destruct (shortlog_roles E repo (List.length (store x))
                (range_params E repo) x0) as [[e|] x1]; simpl in *; auto.
Qed.

Lemma points_to_deref P x c :
  contexts_point_to P x → c ∈ context_emails x →
  ∃ repo, deref (store x) (ctx_Repo c) = Returns repo ∧ P repo.
Proof.
  intros [Hs Hc] Hin.
  rewrite Forall_forall in Hc. specialize (Hc c Hin).
  destruct (lookup_lt_is_Some_2 _ _ Hc) as [repo Hrepo].
  exists repo. unfold deref. rewrite Hrepo. split; [reflexivity|].
  rewrite Forall_forall in Hs. apply Hs. by eapply list_elem_of_lookup_2.
Qed.

(** No interrupt signal is ever delivered. *)
Definition never_interrupted (E : environment) : Prop :=
  ∀ n, interrupt E n = false.

Lemma blocking_point_quiet E w :
  never_interrupted E → cancelled w = false →
  (blocking_point E w).1 = false ∧ cancelled (blocking_point E w).2 = false.
Proof.
  intros Hq Hw.
  assert (cancelled (blocking_point E w).2 = false) as Hc.
  { by rewrite blocking_point_token, Hw, Hq. }
  split; [|exact Hc].
  destruct ((blocking_point E w).1) eqn:Hd; [|reflexivity].
  apply blocking_point_refuses in Hd. congruence.
Qed.

(** The records a body decodes to before its stream ends or fails. *)
Fixpoint decoded_records (body : list decoded) : list Repo :=
  match body with
  | [] => []
  | DecodeError :: _ => []
  | Decoded r :: body' => r ++ decoded_records body'
  end.

Lemma forward_repos_all E r s :
  never_interrupted E → cancelled (sworld s) = false →
  (forward_repos E false r s).1 = false ∧
  queue (forward_repos E false r s).2 = (queue s ++ r)%list ∧
  cancelled (sworld (forward_repos E false r s).2) = false.
Proof.
  intros Hq. revert s. induction r as [|repo r IH]; intros s Hs; simpl.
  - by rewrite app_nil_r.
  - rewrite andb_false_r.
    destruct (blocking_point_quiet E (sworld s) Hq Hs) as [Hd Hc].
    destruct (blocking_point E (sworld s)) as [done w]. simpl in Hd, Hc.
    subst done.
    destruct (IH (on_world (add_total REMOTE_REPOS 1)
                           (push repo (set_world s w))) Hc)
      as (H1 & H2 & H3).
    split; [exact H1|]. split; [|exact H3].
    rewrite H2. simpl. by rewrite <- app_assoc.
Qed.

Lemma decode_task_all E body s :
  never_interrupted E → cancelled (sworld s) = false →
  queue (decode_task E false body s).2 = (queue s ++ decoded_records body)%list ∧
  cancelled (sworld (decode_task E false body s).2) = false.
Proof.
  intros Hq. revert s. induction body as [|[r|] body IH]; intros s Hs; simpl.
  - by rewrite app_nil_r.
  - destruct (forward_repos_all E r s Hq Hs) as (H1 & H2 & H3).
    destruct (forward_repos E false r s) as [done s']. simpl in H1, H2, H3.
    subst done.
    destruct (IH (on_world (add_active GITHUB_PARSE minus_one)
                    (on_world (add_completion GITHUB_PARSE 1) s')) H3)
      as [H4 H5].
    split; [|exact H5]. rewrite H4. simpl. by rewrite H2, <- app_assoc.
  - by rewrite app_nil_r.
Qed.

Lemma parse_loop_all E repo_data s :
  never_interrupted E → cancelled (sworld s) = false →
  (parse_loop E false repo_data s).1 = Stage_completed ∧
  queue (parse_loop E false repo_data s).2 =
    (queue s ++ List.concat (decoded_records <$> repo_data))%list ∧
  closed (parse_loop E false repo_data s).2 = true.
Proof.
  intros Hq. revert s.
  induction repo_data as [|body rest IH]; intros s Hs; simpl.
  - destruct (blocking_point_quiet E (sworld s) Hq Hs) as [Hd Hc].
    destruct (blocking_point E (sworld s)) as [done w]. simpl in Hd. subst done.
    simpl. by rewrite app_nil_r.
  - destruct (blocking_point_quiet E (sworld s) Hq Hs) as [Hd Hc].
    destruct (blocking_point E (sworld s)) as [done w]. simpl in Hd, Hc.
    subst done.
    destruct (blocking_point_quiet E w Hq Hc) as [Hd' Hc'].
    destruct (blocking_point E w) as [done w']. simpl in Hd', Hc'.
    subst done.
    set (s0 := set_world s (add_active GITHUB_PARSE 1 w')).
    destruct (decode_task_all E body s0 Hq Hc') as [H1 H2].
    destruct (IH (decode_task E false body s0).2 H2) as (H3 & H4 & H5).
    split; [exact H3|]. split; [|exact H5].
    rewrite H4, H1. simpl. by rewrite <- app_assoc.
Qed.

(** [C4] With the fork filter enabled, no record with [fork = true] is put
    on the Decoder's output queue, and none reaches a later stage: the
    Cloner's output queue holds no fork, the Extractor stores no fork, and
    every association it emits refers to a stored record that is not a
    fork.  With the fork filter disabled and the run not cancelled, the
    Decoder forwards every record it decodes, unchanged (forks included):
    its output queue holds the decoded records and nothing else, each as
    often as it was decoded. *)
Theorem fork_filter_excludes_forks :
  (∀ E repo_data w,
      Forall nonfork (queue (parse_github_response E repo_data true w).2)) ∧
  (∀ E pages attempts url working_dir SizeFilter,
      let h := main E pages attempts url true working_dir SizeFilter in
      Forall nonfork (queue (parsed h).2) ∧
      Forall nonfork (queue (cloned h).2) ∧
      Forall nonfork (store (extracted h).2) ∧
      ∀ c, c ∈ context_emails (extracted h).2 →
           ∃ repo, deref (store (extracted h).2) (ctx_Repo c) = Returns repo ∧
                   Fork repo = false) ∧
  (∀ E repo_data w,
      never_interrupted E → cancelled w = false →
      let r := parse_github_response E repo_data false w in
      r.1 = Stage_completed ∧
      queue r.2 ≡ₚ List.concat (decoded_records <$> repo_data) ∧
      ∀ body r0 repo,
        body ∈ repo_data → decoded_records body = r0 → repo ∈ r0 →
        repo ∈ queue r.2).
Proof.
  split; [|split].
  - intros E repo_data w. apply parse_loop_nonfork. constructor.
  - intros E pages attempts url working_dir SizeFilter.
    unfold main.
    set (r1 := get_repos_from_github E pages attempts url initial_world).
    set (r2 := parse_github_response E (bodies r1.2) true (fworld r1.2)).
    set (sf := if SizeFilter <=? 0 then 0 else SizeFilter).
    set (r3 := git_ops_clone E (queue r2.2) working_dir sf (sworld r2.2)).
    set (r4 := git_ops_shortlog E (queue r3.2) (sworld r3.2)).
    assert (Forall nonfork (queue r2.2)) as H2.
    { apply parse_loop_nonfork. constructor. }
    assert (Forall nonfork (queue r3.2)) as H3.
    { apply clone_loop_nonfork; [exact H2|constructor]. }
    assert (contexts_point_to nonfork r4.2) as H4.
    { apply shortlog_loop_points_to; [exact H3|]. split; constructor. }
    destruct (emails_dedup (emails r4.2) (xworld r4.2)) as [deduped w1].
    destruct (emails_by_repo (context_emails r4.2) w1) as [grouped w2].
    simpl. split; [exact H2|]. split; [exact H3|].
    split; [exact (proj1 H4)|].
    intros c Hc. by apply (points_to_deref nonfork).
  - intros E repo_data w Hq Hw r. subst r.
    destruct (parse_loop_all E repo_data (mkStage [] false w) Hq Hw)
      as (H1 & H2 & _).
    unfold parse_github_response. split; [exact H1|].
    split; [by rewrite H2|].
    intros body r0 repo Hb Hr Hin. rewrite H2. simpl.
    apply list_elem_of_In, in_concat. exists r0.
    split; [|by apply list_elem_of_In].
    apply list_elem_of_In, list_elem_of_fmap. exists body. auto.
Qed.

Definition a_fork : Repo :=
  mkRepo "forked" "https://github.com/o/forked.git" 12 true "".
Definition a_source : Repo :=
  mkRepo "source" "https://github.com/o/source.git" 34 false "".

Lemma fork_filter_excludes_forks_witness :
  queue (parse_github_response quiet_env [[Decoded [a_fork; a_source]]]
                               false initial_world).2
  ≡ₚ [a_fork; a_source].
Proof.
  apply (proj1 (proj2 (proj2 (proj2 fork_filter_excludes_forks)
                         quiet_env [[Decoded [a_fork; a_source]]]
                         initial_world (λ n, eq_refl) eq_refl))).
Defined.

(** ** Stage 1: the retry budget *)

(** A failed attempt that is followed by another one. *)
Definition failed_attempt (fetch_counter : Z) (url : string) (w : world)
  : world :=
  log (Debug_attempt fetch_counter url) (request url w).

(** The last failed attempt. *)
Definition last_failed_attempt (url : string) (w : world) : world :=
  add_active GITHUB_FETCH minus_one
    (add_error GITHUB_FETCH 1 (log (Error_fetching url) (request url w))).

Lemma fetch_retry_again E fuel url fetch_counter w :
  http_do E (List.length (requests w)) url = None →
  fetch_counter < 4 →
  fetch_retry E (S fuel) url fetch_counter w =
  fetch_retry E fuel url (fetch_counter + 1) (failed_attempt fetch_counter url w).
Proof.
  intros Hdo Hc. simpl. rewrite Hdo.
  destruct (Z.leb_spec 4 fetch_counter); [lia|reflexivity].
Qed.

Lemma fetch_retry_gives_up E fuel url fetch_counter w :
  http_do E (List.length (requests w)) url = None →
  4 ≤ fetch_counter →
  fetch_retry E (S fuel) url fetch_counter w =
  Some (last_failed_attempt url w, None).
Proof.
  intros Hdo Hc. simpl. rewrite Hdo.
  destruct (Z.leb_spec 4 fetch_counter); [reflexivity|lia].
Qed.

Lemma fetch_retry_response E fuel url fetch_counter w resp :
  http_do E (List.length (requests w)) url = Some resp →
  fetch_retry E (S fuel) url fetch_counter w = Some (request url w, Some resp).
Proof. intros Hdo. simpl. by rewrite Hdo. Qed.

Lemma failed_attempt_requests c url w :
  List.length (requests (failed_attempt c url w)) = S (List.length (requests w)).
Proof. simpl. rewrite length_app. simpl. lia. Qed.

(** The retry loop never needs more than four rounds of fuel: from
    [fetch_counter = 1] it ends with a response or gives up. *)
Lemma fetch_retry_total E fuel url w :
  (4 ≤ fuel)%nat → ∃ w' r, fetch_retry E fuel url 1 w = Some (w', r).
Proof.
  intros Hfuel.
  do 4 (destruct fuel as [|fuel]; [lia|]). clear Hfuel.
  destruct (http_do E (List.length (requests w)) url) as [r|] eqn:H1.
  { rewrite (fetch_retry_response _ _ _ _ _ _ H1). eauto. }
  rewrite fetch_retry_again by (auto; lia).
  set (w1 := failed_attempt 1 url w).
  destruct (http_do E (List.length (requests w1)) url) as [r|] eqn:H2.
  { rewrite (fetch_retry_response _ _ _ _ _ _ H2). eauto. }
  rewrite fetch_retry_again by (auto; lia).
  set (w2 := failed_attempt (1 + 1) url w1).
  destruct (http_do E (List.length (requests w2)) url) as [r|] eqn:H3.
  { rewrite (fetch_retry_response _ _ _ _ _ _ H3). eauto. }
  rewrite fetch_retry_again by (auto; lia).
  set (w3 := failed_attempt (1 + 1 + 1) url w2).
  destruct (http_do E (List.length (requests w3)) url) as [r|] eqn:H4.
  { rewrite (fetch_retry_response _ _ _ _ _ _ H4). eauto. }
  rewrite fetch_retry_gives_up by (auto; lia). eauto.
Qed.

(** Four failures in a row, starting with the call numbered [n]. *)
Definition four_failures (E : environment) (n : nat) (url : string) : Prop :=
  ∀ i, (i < 4)%nat → http_do E (n + i) url = None.

Lemma fetch_retry_exhausted E fuel url w :
  (4 ≤ fuel)%nat →
  four_failures E (List.length (requests w)) url →
  fetch_retry E fuel url 1 w =
  Some (last_failed_attempt url
          (failed_attempt 3 url (failed_attempt 2 url (failed_attempt 1 url w))),
        None).
Proof.
  intros Hfuel Hfail.
  do 4 (destruct fuel as [|fuel]; [lia|]). clear Hfuel.
  pose proof (Hfail 0%nat ltac:(lia)) as H0.
  pose proof (Hfail 1%nat ltac:(lia)) as H1.
  pose proof (Hfail 2%nat ltac:(lia)) as H2.
  pose proof (Hfail 3%nat ltac:(lia)) as H3.
  rewrite Nat.add_0_r in H0.
  rewrite fetch_retry_again by (auto; lia).
  rewrite fetch_retry_again;
    [|rewrite failed_attempt_requests, <- Nat.add_1_r; exact H1|lia].
  rewrite fetch_retry_again;
    [|rewrite !failed_attempt_requests; simpl;
      replace (S (S (List.length (requests w))))
        with (List.length (requests w) + 2)%nat by lia; exact H2|lia].
  rewrite fetch_retry_gives_up;
    [reflexivity| |lia].
  rewrite !failed_attempt_requests.
  replace (S (S (S (List.length (requests w)))))
    with (List.length (requests w) + 3)%nat by lia. exact H3.
Qed.

(** [C5] A failed request is tried again until the fourth attempt: when
    one of the first four calls for a URL succeeds, its response is used
    and no more than four calls were made.  When the Fetcher takes a URL
    from its work queue, can build the request, and four calls in a row
    fail, it logs an error, increments its error counter, decrements its
    active counter and leaves its goroutine: the URLs still queued are not
    requested, nothing is added to the output queue, and the deferred calls
    close the work queue and the output queue. *)
Theorem fetcher_gives_up_after_four_attempts :
  (∀ E attempts url w k resp,
      (4 ≤ attempts)%nat → (k < 4)%nat →
      (∀ i, (i < k)%nat → http_do E (List.length (requests w) + i) url = None) →
      http_do E (List.length (requests w) + k) url = Some resp →
      ∃ w', fetch_retry E attempts url 1 w = Some (w', Some resp) ∧
            requests w' = (requests w ++ replicate (S k) url)%list ∧
            error_data w' = error_data w ∧ active_data w' = active_data w) ∧
  (∀ E pages attempts total_pages f url queued,
      (4 ≤ attempts)%nat →
      counters_allocated (fworld f) →
      urls f = url :: queued →
      (blocking_point E (fworld f)).1 = false →
      request_ok E url = true →
      four_failures E (List.length (requests (fworld f))) url →
      let r := run_deferred (fetch_loop E (S pages) attempts total_pages f) in
      r.1 = Fetch_retries_exhausted ∧
      requests (fworld r.2) = (requests (fworld f) ++ [url; url; url; url])%list ∧
      logged (fworld r.2) =
        (logged (fworld f) ++
         [Debug_attempt 1 url; Debug_attempt 2 url; Debug_attempt 3 url;
          Error_fetching url])%list ∧
      LoadUint32 (error_data (fworld r.2)) GITHUB_FETCH =
        (LoadUint32 (error_data (fworld f)) GITHUB_FETCH + 1) mod 2 ^ 32 ∧
      active_data (fworld r.2) =
        AddUint32 (AddUint32 (active_data (fworld f)) GITHUB_FETCH 1)
                  GITHUB_FETCH minus_one ∧
      LoadUint32 (active_data (fworld r.2)) GITHUB_FETCH =
        (LoadUint32 (AddUint32 (active_data (fworld f)) GITHUB_FETCH 1)
                    GITHUB_FETCH + minus_one) mod 2 ^ 32 ∧
      completion_data (fworld r.2) = completion_data (fworld f) ∧
      urls r.2 = queued ∧ bodies r.2 = bodies f ∧
      urls_closed r.2 = true ∧ bodies_closed r.2 = true).
Proof.
  split.
  - intros E attempts url w k resp Hfuel Hk Hfail Hok.
    do 4 (destruct attempts as [|attempts]; [lia|]). clear Hfuel.
    destruct k as [|k].
    { rewrite Nat.add_0_r in Hok.
      rewrite (fetch_retry_response _ _ _ _ _ _ Hok). eexists. repeat split. }
    pose proof (Hfail 0%nat ltac:(lia)) as H0. rewrite Nat.add_0_r in H0.
    rewrite fetch_retry_again by (auto; lia).
    destruct k as [|k].
    { rewrite (fetch_retry_response _ _ _ _ _ resp);
        [|by rewrite failed_attempt_requests, <- Nat.add_1_r].
      eexists. split; [reflexivity|]. simpl. rewrite <- app_assoc. auto. }
    pose proof (Hfail 1%nat ltac:(lia)) as H1.
    rewrite fetch_retry_again;
      [|by rewrite failed_attempt_requests, <- Nat.add_1_r|lia].
    destruct k as [|k].
    { rewrite (fetch_retry_response _ _ _ _ _ resp).
      - eexists. split; [reflexivity|]. simpl. rewrite <- !app_assoc. auto.
      - rewrite !failed_attempt_requests.
        replace (S (S (List.length (requests w))))
          with (List.length (requests w) + 2)%nat by lia. exact Hok. }
    pose proof (Hfail 2%nat ltac:(lia)) as H2.
    rewrite fetch_retry_again;
      [|rewrite !failed_attempt_requests;
        replace (S (S (List.length (requests w))))
          with (List.length (requests w) + 2)%nat by lia; exact H2|lia].
    destruct k as [|k]; [|lia].
    rewrite (fetch_retry_response _ _ _ _ _ resp).
    + eexists. split; [reflexivity|]. simpl. rewrite <- !app_assoc. auto.
    + rewrite !failed_attempt_requests.
      replace (S (S (S (List.length (requests w)))))
        with (List.length (requests w) + 3)%nat by lia. exact Hok.
  - intros E pages attempts total_pages f url queued Hfuel Hw Hurls Hdone
           Hreq Hfail r. subst r.
    simpl fetch_loop.
    pose proof (blocking_point_frame E (fworld f)) as Hf.
    destruct (blocking_point E (fworld f)) as [done w]. simpl in Hdone, Hf.
    subst done. rewrite Hurls, Hreq. simpl negb. cbv iota.
    destruct Hf as (Ha & He & Hc & Ht & Hl & Hr & Hcmd & Htick).
    rewrite (fetch_retry_exhausted E attempts url
               (add_active GITHUB_FETCH 1 w) Hfuel)
      by (simpl; rewrite Hr; exact Hfail).
    destruct Hw as (Hla & Hle & _ & _).
    simpl. rewrite Hr, Hl, He, Ha, Hc, <- !app_assoc. simpl.
    repeat split.
    + apply LoadUint32_AddUint32. rewrite Hle. unfold GITHUB_FETCH. lia.
    + apply LoadUint32_AddUint32. unfold AddUint32.
      rewrite length_alter, Hla. unfold GITHUB_FETCH. lia.
Qed.

Definition seed_url : string :=
  "https://api.github.com/orgs/o/repos?per_page=100".

(** The first two calls fail, every later one answers with an empty page
    that has no Link header. *)
Definition flaky_env : environment :=
  mkEnv (λ _, true)
        (λ n _, if (n <? 2)%nat then None else Some (mkResponse ∅ []))
        (λ _, None)
        (λ _ _, inr (mkShortlogOutput [] false))
        (λ d n, d +:+ "/" +:+ n)
        (λ _, false) (λ _, false) (λ _, true) (λ _, false).

Lemma fetcher_gives_up_after_four_attempts_witness :
  (∃ w', fetch_retry flaky_env 4 seed_url 1 initial_world
         = Some (w', Some (mkResponse ∅ [])) ∧
         requests w' = [seed_url; seed_url; seed_url]) ∧
  let r := run_deferred
             (fetch_loop quiet_env 1 4 0
                         (mkFetcher [seed_url] false [] false initial_world)) in
  r.1 = Fetch_retries_exhausted ∧
  urls_closed r.2 = true ∧ bodies_closed r.2 = true.
Proof.
  split.
  - destruct (proj1 fetcher_gives_up_after_four_attempts
                flaky_env 4%nat seed_url initial_world 2%nat
                (mkResponse ∅ []))
      as (w' & H1 & H2 & _).
    + lia.
    + lia.
    + intros i Hi. destruct i as [|[|i]]; [reflexivity|reflexivity|lia].
    + reflexivity.
    + exists w'. split; [exact H1|exact H2].
  - pose proof (proj2 fetcher_gives_up_after_four_attempts
                  quiet_env 0%nat 4%nat 0
                  (mkFetcher [seed_url] false [] false initial_world)
                  seed_url []) as H.
    simpl in H. intros r.
    destruct H as (H1 & _ & _ & _ & _ & _ & _ & _ & _ & H2 & H3).
    + lia.
    + repeat split.
    + reflexivity.
    + vm_compute. reflexivity.
    + reflexivity.
    + intros i _. reflexivity.
    + auto.
Defined.

(** ** The cancellation token *)








Lemma run_deferred_world r : fworld (run_deferred r).2 = fworld r.2.
Proof. unfold run_deferred. destruct (leaves_goroutine r.1); reflexivity. Qed.

Lemma run_deferred_exit r : (run_deferred r).1 = r.1.
Proof. unfold run_deferred. destruct (leaves_goroutine r.1); reflexivity. Qed.




(** ** Facts about the string primitives *)

Lemma append_cons c s1 s2 : String c s1 +:+ s2 = String c (s1 +:+ s2).
Proof. reflexivity. Qed.

Lemma append_nil_l s : "" +:+ s = s.
Proof. reflexivity. Qed.

Lemma length_append s1 s2 :
  String.length (s1 +:+ s2) = (String.length s1 + String.length s2)%nat.
Proof.
  induction s1 as [|c s1 IH]; [reflexivity|].
  rewrite append_cons. simpl. by rewrite IH.
Qed.

Lemma len_append s1 s2 : len (s1 +:+ s2) = len s1 + len s2.
Proof. unfold len. rewrite length_append. lia. Qed.

Lemma len_nonneg s : 0 ≤ len s.
Proof. unfold len. lia. Qed.

Lemma substring_all s : String.substring 0 (String.length s) s = s.
Proof. induction s as [|c s IH]; simpl; [reflexivity|]. by rewrite IH. Qed.

Lemma substring_skip a s n :
  String.substring (String.length a) n (a +:+ s) = String.substring 0 n s.
Proof.
  induction a as [|c a IH]; [reflexivity|].
  rewrite append_cons. simpl. exact IH.
Qed.

Lemma substring_take s1 s2 :
  String.substring 0 (String.length s1) (s1 +:+ s2) = s1.
Proof.
  induction s1 as [|c s1 IH].
  - simpl. rewrite append_nil_l. by destruct s2.
  - rewrite append_cons. simpl. by rewrite IH.
Qed.

(** The byte before the last one. *)
Lemma slice_before_last u c d :
  let url := u +:+ String c (String d "") in
  slice url (len url - 2) (len url - 1) = Returns (String c "").
Proof.
  intros url. unfold slice.
  assert (len url = len u + 2) as Hl.
  { unfold url. rewrite len_append. reflexivity. }
  pose proof (len_nonneg u) as Hu.
  rewrite Hl.
  destruct (Z.leb_spec 0 (len u + 2 - 2)); [|lia].
  destruct (Z.leb_spec (len u + 2 - 2) (len u + 2 - 1)); [|lia].
  destruct (Z.leb_spec (len u + 2 - 1) (len u + 2)); [|lia].
  simpl. f_equal.
  replace (Z.to_nat (len u + 2 - 2)) with (String.length u)
    by (unfold len; lia).
  replace (Z.to_nat (len u + 2 - 1 - (len u + 2 - 2))) with 1%nat by lia.
  unfold url. rewrite substring_skip. reflexivity.
Qed.

Lemma digit_value_range c n : digit_value c = Some n → 0 ≤ n ≤ 9.
Proof.
  unfold digit_value.
  destruct (Z.leb_spec 48 (Z.of_nat (nat_of_ascii c)));
    destruct (Z.leb_spec (Z.of_nat (nat_of_ascii c)) 57); simpl;
    intros Hn; inversion Hn; lia.
Qed.

(** Parsing a one-byte string. *)
Lemma ParseUint10_digit c : ParseUint10 (String c "") 32 = digit_value c.
Proof.
  unfold ParseUint10, parse_digits.
  destruct (digit_value c) as [n|] eqn:Hd; [|reflexivity].
  apply digit_value_range in Hd.
  destruct (Z.ltb_spec (2 ^ 32 - 1) (0 * 10 + n)); [lia|].
  reflexivity.
Qed.

Lemma total_pages_scan_skips before entries :
  Forall (λ v, HasSuffix v rel_last = false) before →
  total_pages_scan (before ++ entries) = total_pages_scan entries.
Proof.
  induction 1 as [|v before Hv _ IH]; [reflexivity|].
  simpl. rewrite Hv. exact IH.
Qed.

Lemma total_pages_scan_last value url others u c d :
  HasSuffix value rel_last = true →
  Split value "; " = url :: others →
  url = u +:+ String c (String d "") →
  ∀ after,
    total_pages_scan (value :: after) =
    match digit_value c with
    | Some pages => Returns pages
    | None => Panics
    end.
Proof.
  intros Hs Hsplit -> after.
  cbn -[ParseUint10 slice len Split HasSuffix]. rewrite Hs, Hsplit.
  cbn -[ParseUint10 slice len Split HasSuffix].
  rewrite (slice_before_last u c d).
  cbn -[ParseUint10 slice len Split HasSuffix].
  rewrite ParseUint10_digit.
  destruct (digit_value c) as [n|] eqn:Hd; [|reflexivity].
  apply digit_value_range in Hd. f_equal. apply Z.mod_small. lia.
Qed.

(** [C6] The total page count is recorded at most once: a count that is
    already nonzero is left as it is.  With no Link header at all the count
    recorded is 1.  When the first header value has an entry whose
    relation is "last", the first such entry is used: of the text before
    its ["; "], the byte just before the final byte (the final byte is the
    closing ['>']) is parsed as a decimal number, which becomes the count;
    when that byte is not a digit the function panics.  A Link header
    without such an entry records 1 as well. *)
Theorem total_pages_from_last_link :
  (∀ h total_pages,
      0 < total_pages → get_total_pages h total_pages = Returns total_pages) ∧
  (∀ (h : http_header),
      h !! "Link" = None → get_total_pages h 0 = Returns 1) ∧
  (∀ (h : http_header) val0 more before value after url others u c d,
      h !! "Link" = Some (val0 :: more) →
      Split val0 ", " = (before ++ value :: after)%list →
      Forall (λ v, HasSuffix v rel_last = false) before →
      HasSuffix value rel_last = true →
      Split value "; " = url :: others →
      url = u +:+ String c (String d "") →
      get_total_pages h 0 =
      match ParseUint10 (String c "") 32 with
      | Some pages => Returns pages
      | None => Panics
      end ∧
      ∀ pages, digit_value c = Some pages → get_total_pages h 0 = Returns pages) ∧
  (∀ (h : http_header) val0 more,
      h !! "Link" = Some (val0 :: more) →
      Forall (λ v, HasSuffix v rel_last = false) (Split val0 ", ") →
      get_total_pages h 0 = Returns 1).
Proof.
  split; [|split; [|split]].
  - intros h total_pages Hpos. unfold get_total_pages.
    destruct (Z.ltb_spec 0 total_pages); [reflexivity|lia].
  - intros h Hnone. unfold get_total_pages. simpl. by rewrite Hnone.
  - intros h val0 more before value after url others u c d
           Hlink Hsplit Hbefore Hlast Hurl Hshape.
    assert (get_total_pages h 0 =
            match digit_value c with
            | Some pages => Returns pages
            | None => Panics
            end) as Hres.
    { unfold get_total_pages. simpl. rewrite Hlink. simpl.
      rewrite Hsplit, (total_pages_scan_skips _ _ Hbefore).
      by apply (total_pages_scan_last value url others u c d). }
    rewrite ParseUint10_digit. split; [exact Hres|].
    intros pages Hd. by rewrite Hres, Hd.
  - intros h val0 more Hlink Hnone. unfold get_total_pages. simpl.
    rewrite Hlink. simpl.
    rewrite <- (app_nil_r (Split val0 ", ")).
    by rewrite (total_pages_scan_skips _ [] Hnone).
Qed.

Definition next_entry : string :=
  "<https://api.github.com/organizations/1/repos?per_page=100&page=2>; rel="
  +:+ rel_next.
Definition last_entry : string :=
  "<https://api.github.com/organizations/1/repos?per_page=100&page=7>; rel="
  +:+ rel_last.
Definition github_link : string := next_entry +:+ ", " +:+ last_entry.

Lemma total_pages_from_last_link_witness :
  get_total_pages {[ "Link" := [github_link] ]} 0 = Returns 7.
Proof.
  apply (proj1 (proj2 (proj2 total_pages_from_last_link))
           {[ "Link" := [github_link] ]} github_link [] [next_entry]
           last_entry []
           "<https://api.github.com/organizations/1/repos?per_page=100&page=7>"
           ["rel=" +:+ rel_last]
           "<https://api.github.com/organizations/1/repos?per_page=100&page="
           "7"%char ">"%char).
  - reflexivity.
  - vm_compute. reflexivity.
  - constructor; [vm_compute; reflexivity|constructor].
  - vm_compute. reflexivity.
  - vm_compute. reflexivity.
  - reflexivity.
  - vm_compute. reflexivity.
Defined.

(** Only the last digit of the page number is read: a listing of twelve
    pages is recorded as two. *)
Example total_pages_of_twelve :
  get_total_pages
    {[ "Link" := ["<https://api.github.com/orgs/o/repos?per_page=100&page=12>; rel="
                  +:+ rel_last] ]} 0
  = Returns 2.
Proof. vm_compute. reflexivity. Qed.

(** *** The last occurrence of a byte *)

Definition occurs (c : ascii) (s : string) : Prop :=
  ∃ a b, s = a +:+ String c b.

Lemma prefix_nil s : String.prefix "" s = true.
Proof. by destruct s. Qed.

Lemma prefix_char c x s :
  String.prefix (String c "") (String x s) = bool_decide (c = x).
Proof.
  simpl. destruct (ascii_dec c x) as [Heq|Hne].
  - rewrite prefix_nil. by rewrite bool_decide_eq_true_2.
  - by rewrite bool_decide_eq_false_2.
Qed.

Lemma occurs_nil c : ¬ occurs c "".
Proof. intros (a & b & H). destruct a; discriminate H. Qed.

Lemma occurs_cons c x s : occurs c (String x s) ↔ c = x ∨ occurs c s.
Proof.
  split.
  - intros (a & b & H). destruct a as [|y a].
    + rewrite append_nil_l in H. inversion H. auto.
    + rewrite append_cons in H. inversion H. right. by exists a, b.
  - intros [->|(a & b & ->)].
    + by exists "", s.
    + by exists (String x a), b.
Qed.

Lemma last_index_none i c s :
  ¬ occurs c s → last_index_from i s (String c "") = -1.
Proof.
  revert i. induction s as [|x s IH]; intros i Hno; [reflexivity|].
  rewrite occurs_cons in Hno.
  change (last_index_from i (String x s) (String c ""))
    with (let later := last_index_from (i + 1) s (String c "") in
          if 0 <=? later then later
          else if String.prefix (String c "") (String x s) then i else -1).
  rewrite IH by tauto. rewrite prefix_char.
  rewrite bool_decide_eq_false_2 by tauto. reflexivity.
Qed.

Lemma last_index_last i c a b :
  0 ≤ i → ¬ occurs c b →
  last_index_from i (a +:+ String c b) (String c "") = i + len a.
Proof.
  revert i. induction a as [|x a IH]; intros i Hi Hno.
  - rewrite append_nil_l.
    change (last_index_from i (String c b) (String c ""))
      with (let later := last_index_from (i + 1) b (String c "") in
            if 0 <=? later then later
            else if String.prefix (String c "") (String c b) then i else -1).
    rewrite last_index_none by exact Hno. rewrite prefix_char.
    rewrite bool_decide_eq_true_2 by reflexivity. simpl. unfold len. simpl. lia.
  - rewrite append_cons.
    change (last_index_from i (String x (a +:+ String c b)) (String c ""))
      with (let later :=
              last_index_from (i + 1) (a +:+ String c b) (String c "") in
            if 0 <=? later then later
            else if String.prefix (String c "")
                                  (String x (a +:+ String c b))
                 then i else -1).
    rewrite IH by (auto; lia).
    pose proof (len_nonneg a) as Ha. cbv zeta.
    destruct (Z.leb_spec 0 (i + 1 + len a)); [|lia].
    unfold len. simpl String.length. lia.
Qed.

(** Occurrence, decided. *)
Fixpoint contains_byte (c : ascii) (s : string) : bool :=
  match s with
  | EmptyString => false
  | String x s' => bool_decide (c = x) || contains_byte c s'
  end.

Lemma occurs_contains c s : occurs c s ↔ contains_byte c s = true.
Proof.
  induction s as [|x s IH].
  - split; [intros H; by apply occurs_nil in H|discriminate].
  - rewrite occurs_cons. simpl. rewrite orb_true_iff, bool_decide_eq_true.
    by rewrite IH.
Qed.

(** A string either lacks the byte or splits at its last occurrence. *)
Lemma last_occurrence c s :
  ¬ occurs c s ∨ ∃ a b, s = a +:+ String c b ∧ ¬ occurs c b.
Proof.
  induction s as [|x s IH].
  - left. apply occurs_nil.
  - destruct IH as [Hno|(a & b & -> & Hb)].
    + destruct (decide (c = x)) as [->|Hne].
      * right. by exists "", s.
      * left. rewrite occurs_cons. tauto.
    + right. by exists (String x a), b.
Qed.

Lemma substring_after a c b :
  String.substring (S (String.length a)) (String.length b) (a +:+ String c b) = b.
Proof.
  induction a as [|x a IH].
  - rewrite append_nil_l. simpl. apply substring_all.
  - rewrite append_cons. simpl. exact IH.
Qed.

Lemma slice_from_after a c b :
  slice_from (a +:+ String c b) (len a + 1) = Returns b.
Proof.
  unfold slice_from, slice.
  assert (len (a +:+ String c b) = len a + 1 + len b) as Hl.
  { rewrite len_append. unfold len. simpl String.length. lia. }
  pose proof (len_nonneg a) as Ha. pose proof (len_nonneg b) as Hb.
  rewrite Hl.
  destruct (Z.leb_spec 0 (len a + 1)); [|lia].
  destruct (Z.leb_spec (len a + 1) (len a + 1 + len b)); [|lia].
  destruct (Z.leb_spec (len a + 1 + len b) (len a + 1 + len b)); [|lia].
  simpl. f_equal.
  replace (Z.to_nat (len a + 1)) with (S (String.length a))
    by (unfold len; lia).
  replace (Z.to_nat (len a + 1 + len b - (len a + 1))) with (String.length b)
    by (unfold len; lia).
  apply substring_after.
Qed.

(** ** The structured report: email and domain keys *)

Definition at_sign : ascii := "@"%char.

Lemma email_and_domain_blank :
  email_and_domain "" = Returns ("!blank!", "!none!").
Proof. reflexivity. Qed.

Lemma email_and_domain_with_domain local domain :
  local ≠ "" → ¬ occurs at_sign domain →
  email_and_domain (local +:+ String at_sign domain) =
  Returns (local +:+ String at_sign domain, domain).
Proof.
  intros Hlocal Hdomain. unfold email_and_domain.
  destruct (String.eqb_spec (local +:+ String at_sign domain) "") as [He|_].
  { destruct local; discriminate He. }
  unfold LastIndex.
  change "@" with (String at_sign "").
  rewrite last_index_last by (auto; lia).
  assert (0 < len local) as Hpos.
  { destruct local; [congruence|]. unfold len. simpl. lia. }
  destruct (Z.ltb_spec 0 (0 + len local)); [|lia].
  replace (0 + len local + 1) with (len local + 1) by lia.
  rewrite slice_from_after. reflexivity.
Qed.

Lemma email_and_domain_without_domain email :
  email ≠ "" →
  ¬ (∃ local domain, local ≠ "" ∧ email = local +:+ String at_sign domain) →
  email_and_domain email = Returns (email, "!none!").
Proof.
  intros Hne Hno. unfold email_and_domain.
  destruct (String.eqb_spec email "") as [He|_]; [congruence|].
  unfold LastIndex. change "@" with (String at_sign "").
  destruct (last_occurrence at_sign email) as [Hnone|(a & b & -> & Hb)].
  - rewrite last_index_none by exact Hnone. reflexivity.
  - rewrite last_index_last by (auto; lia).
    destruct a as [|x a].
    + reflexivity.
    + exfalso. apply Hno. exists (String x a), b. split; [discriminate|reflexivity].
Qed.

Lemma email_and_domain_total email :
  ∃ keys, email_and_domain email = Returns keys.
Proof.
  destruct email as [|x email]; [eexists; apply email_and_domain_blank|].
  destruct (last_occurrence at_sign (String x email))
    as [Hnone|(a & b & Heq & Hb)].
  - eexists. apply email_and_domain_without_domain; [discriminate|].
    intros (local & domain & _ & H). apply Hnone. rewrite H.
    by exists local, domain.
  - destruct a as [|y a].
    + eexists. apply email_and_domain_without_domain; [discriminate|].
      intros (local & domain & Hl & H). rewrite Heq in H.
      destruct local as [|z local]; [congruence|].
      rewrite append_nil_l, append_cons in H. inversion H as [[Hz Hrest]].
      apply Hb. rewrite Hrest. by exists local, domain.
    + rewrite Heq. eexists.
      apply email_and_domain_with_domain; [discriminate|exact Hb].
Qed.

(** An item is listed in the report under a domain key and an email key. *)
Definition listed_under (rep : report) (domain email : string)
           (item : FmtRepoPerEmail) : Prop :=
  ∃ (of_domain : gmap string (list FmtRepoPerEmail)) (items : list FmtRepoPerEmail),
    by_domain rep !! domain = Some of_domain ∧
    of_domain !! email = Some items ∧
    item ∈ items.

Definition item_of (repo : Repo) (role_id : Z) : FmtRepoPerEmail :=
  mkFmtRepoPerEmail (Name repo) (role_name role_id) (Clone_url repo).

(** The domain view after one more entry, in closed form. *)
Lemma report_entry_by_domain store rep key role_id rep' :
  report_entry store rep (key, role_id) = Returns rep' →
  ∃ email domain repo,
    email_and_domain (Email key) = Returns (email, domain) ∧
    deref store (key_Repo key) = Returns repo ∧
    let base : gmap string (list FmtRepoPerEmail) :=
      default ∅ (by_domain rep !! domain) in
    by_domain rep' =
    <[domain := <[email := (default [] (base !! email)
                             ++ [item_of repo role_id])%list]> base]>
      (by_domain rep).
Proof.
  unfold report_entry.
  destruct (email_and_domain (Email key)) as [[email domain]|]; [|discriminate].
  destruct (deref store (key_Repo key)) as [repo|]; [|discriminate].
  cbn -[email_and_domain deref]. intros H. inversion H as [Hrep]. clear H Hrep.
  exists email, domain, repo. split; [reflexivity|]. split; [reflexivity|].
  cbn. destruct (by_domain rep !! domain) as [m|] eqn:Hd; cbn.
  - rewrite Hd. cbn. destruct (m !! email) as [items|] eqn:He; cbn.
    + rewrite He. reflexivity.
    + rewrite lookup_insert_eq. cbn. by rewrite insert_insert_eq.
  - rewrite lookup_insert_eq. cbn. rewrite lookup_empty, lookup_insert_eq. cbn.
    by rewrite !insert_insert_eq.
Qed.

Lemma report_entry_lists store rep key role_id rep' :
  report_entry store rep (key, role_id) = Returns rep' →
  ∃ email domain repo,
    email_and_domain (Email key) = Returns (email, domain) ∧
    deref store (key_Repo key) = Returns repo ∧
    listed_under rep' domain email (item_of repo role_id).
Proof.
  intros H. apply report_entry_by_domain in H
    as (email & domain & repo & H1 & H2 & H3).
  exists email, domain, repo. split; [exact H1|]. split; [exact H2|].
  unfold listed_under. rewrite H3.
  eexists _, _. split; [apply lookup_insert_eq|].
  split; [apply lookup_insert_eq|].
  apply elem_of_app. right. apply list_elem_of_here.
Qed.

Lemma report_entry_keeps store rep entry rep' domain email item :
  report_entry store rep entry = Returns rep' →
  listed_under rep domain email item → listed_under rep' domain email item.
Proof.
  destruct entry as [key role_id]. intros H (m & items & Hm & Hitems & Hin).
  apply report_entry_by_domain in H as (email' & domain' & repo & _ & _ & H3).
  unfold listed_under. rewrite H3. clear H3.
  destruct (decide (domain' = domain)) as [->|Hd].
  - rewrite Hm. simpl. rewrite lookup_insert_eq.
    destruct (decide (email' = email)) as [->|He].
    + rewrite Hitems. simpl. eexists _, _. split; [reflexivity|].
      split; [apply lookup_insert_eq|]. apply elem_of_app. by left.
    + eexists _, _. split; [reflexivity|].
      split; [rewrite lookup_insert_ne by exact He; exact Hitems|exact Hin].
  - rewrite lookup_insert_ne by exact Hd. by exists m, items.
Qed.

Lemma report_entries_keeps store entries rep rep' domain email item :
  report_entries store rep entries = Returns rep' →
  listed_under rep domain email item → listed_under rep' domain email item.
Proof.
  revert rep. induction entries as [|entry rest IH]; intros rep H Hl.
  - inversion H. by subst.
  - simpl in H. destruct (report_entry store rep entry) as [rep1|] eqn:H1;
      [|discriminate].
    apply (IH rep1); [exact H|]. by eapply report_entry_keeps.
Qed.

Lemma report_entries_lists store entries rep rep' key role_id :
  report_entries store rep entries = Returns rep' →
  (key, role_id) ∈ entries →
  ∃ email domain repo,
    email_and_domain (Email key) = Returns (email, domain) ∧
    deref store (key_Repo key) = Returns repo ∧
    listed_under rep' domain email (item_of repo role_id).
Proof.
  revert rep. induction entries as [|entry rest IH]; intros rep H Hin.
  - by apply not_elem_of_nil in Hin.
  - simpl in H. destruct (report_entry store rep entry) as [rep1|] eqn:H1;
      [|discriminate].
    apply elem_of_cons in Hin as [<-|Hin].
    + apply report_entry_lists in H1 as (email & domain & repo & Ha & Hb & Hc).
      exists email, domain, repo. split; [exact Ha|]. split; [exact Hb|].
      by eapply report_entries_keeps.
    + by apply (IH rep1).
Qed.

(** [C8] In the structured report every (email, repository) entry is
    listed under the domain key and the email key computed from its email:
    the empty email is reported as ["!blank!"] under the domain ["!none!"];
    an email in which no ["@"] follows a nonempty local part is reported as
    it is under ["!none!"]; every other email is reported as it is under
    the text that follows its last ["@"].  Computing the two keys never
    panics. *)
Theorem report_domain_keys :
  email_and_domain "" = Returns ("!blank!", "!none!") ∧
  (∀ email,
      email ≠ "" →
      ¬ (∃ local domain,
            local ≠ "" ∧ email = local +:+ String at_sign domain) →
      email_and_domain email = Returns (email, "!none!")) ∧
  (∀ local domain,
      local ≠ "" → ¬ occurs at_sign domain →
      email_and_domain (local +:+ String at_sign domain) =
      Returns (local +:+ String at_sign domain, domain)) ∧
  (∀ email, ∃ keys, email_and_domain email = Returns keys) ∧
  (∀ store entries rep key role_id,
      report_entries store (mkReport ∅ ∅) entries = Returns rep →
      (key, role_id) ∈ entries →
      ∃ email domain repo,
        email_and_domain (Email key) = Returns (email, domain) ∧
        deref store (key_Repo key) = Returns repo ∧
        listed_under rep domain email
          (mkFmtRepoPerEmail (Name repo) (role_name role_id) (Clone_url repo))).
Proof.
  split; [exact email_and_domain_blank|].
  split; [exact email_and_domain_without_domain|].
  split; [exact email_and_domain_with_domain|].
  split; [exact email_and_domain_total|].
  intros store entries rep key role_id H Hin.
  by apply (report_entries_lists store entries (mkReport ∅ ∅)).
Qed.

Definition a_store : list Repo :=
  [mkRepo "source" "https://github.com/o/source.git" 34 false "/w/source"].

Lemma report_domain_keys_witness :
  email_and_domain "octo@users.noreply@github.com" =
    Returns ("octo@users.noreply@github.com", "github.com") ∧
  email_and_domain "@github.com" = Returns ("@github.com", "!none!") ∧
  ∃ rep,
    report_entries a_store (mkReport ∅ ∅) [(mkKey "" 0%nat, ROLE_AUTHOR)]
      = Returns rep ∧
    listed_under rep "!none!" "!blank!"
      (mkFmtRepoPerEmail "source" "Author" "https://github.com/o/source.git").
Proof.
  split; [|split].
  - apply (proj1 (proj2 (proj2 report_domain_keys))
             "octo@users.noreply" "github.com").
    + discriminate.
    + intros H. apply occurs_contains in H. vm_compute in H. discriminate H.
  - apply (proj1 (proj2 report_domain_keys) "@github.com").
    + discriminate.
    + intros (local & domain & Hl & H).
      destruct local as [|c local]; [congruence|].
      rewrite append_cons in H. inversion H as [[Hc H']].
      assert (occurs at_sign "github.com") as Ho by (by exists local, domain).
      apply occurs_contains in Ho. vm_compute in Ho. discriminate Ho.
  - eexists. split; [reflexivity|].
    destruct (proj2 (proj2 (proj2 (proj2 report_domain_keys)))
                a_store [(mkKey "" 0%nat, ROLE_AUTHOR)] _
                (mkKey "" 0%nat) ROLE_AUTHOR eq_refl)
      as (email & domain & repo & Ha & Hb & Hc).
    + apply list_elem_of_here.
    + inversion Ha. inversion Hb. subst. exact Hc.
Defined.

(** ** Roles *)

(** The role of an item is a key of [params_containers]. *)
Definition emitted_role (c : EmailContext) : Prop :=
  is_Some (params_containers !! Role c).

Lemma params_containers_roles role :
  is_Some (params_containers !! role) →
  role = ROLE_AUTHOR ∨ role = ROLE_COMMITTER.
Proof.
  unfold params_containers. intros [params H].
  destruct (decide (role = ROLE_AUTHOR)) as [|Ha]; [by left|].
  rewrite lookup_insert_ne in H by congruence.
  destruct (decide (role = ROLE_COMMITTER)) as [|Hc]; [by right|].
  rewrite lookup_singleton_ne in H by congruence. discriminate H.
Qed.

Lemma or_fold_of_roles roles :
  Forall (λ r, r = ROLE_AUTHOR ∨ r = ROLE_COMMITTER) roles →
  or_fold roles = 0 ∧ roles = [] ∨
  or_fold roles = ROLE_AUTHOR ∨ or_fold roles = ROLE_COMMITTER ∨
  or_fold roles = ROLE_MASK_BOTH.
Proof.
  induction 1 as [|r roles Hr _ IH]; [by left|].
  right. simpl.
  destruct Hr as [->| ->];
    destruct IH as [[-> _]|[->|[->| ->]]]; vm_compute; auto.
Qed.

Lemma grouped_roles contexts w key role :
  Forall emitted_role contexts →
  (emails_by_repo contexts w).1 !! key = Some role →
  role = ROLE_AUTHOR ∨ role = ROLE_COMMITTER ∨ role = ROLE_MASK_BOTH.
Proof.
  intros Hall. rewrite grouped_lookup.
  assert (Forall (λ r, r = ROLE_AUTHOR ∨ r = ROLE_COMMITTER)
                 (roles_received key contexts)) as Hroles.
  { apply Forall_forall. intros r Hr. unfold roles_received in Hr.
    apply list_elem_of_fmap in Hr as (c & -> & Hc).
    apply list_elem_of_filter in Hc as [_ Hc].
    rewrite Forall_forall in Hall. by apply params_containers_roles, Hall. }
  apply or_fold_of_roles in Hroles.
  destruct (roles_received key contexts) as [|r roles]; [discriminate|].
  intros Hsome. injection Hsome as Hrole. subst role.
  destruct Hroles as [[_ Hnil]|Hroles]; [discriminate Hnil|exact Hroles].
Qed.

Lemma role_has_label role :
  role = ROLE_AUTHOR ∨ role = ROLE_COMMITTER ∨ role = ROLE_MASK_BOTH →
  role ≠ 0 ∧
  (role_reference !! role = Some ROLE_NAME_AUTHOR ∧ role = ROLE_AUTHOR ∨
   role_reference !! role = Some ROLE_NAME_COMMITTER ∧ role = ROLE_COMMITTER ∨
   role_reference !! role = Some ROLE_NAME_BOTH ∧ role = ROLE_MASK_BOTH).
Proof.
  intros [->|[->| ->]]; (split; [discriminate|]); vm_compute; auto.
Qed.

(** The Extractor emits items with the roles of its two queries only. *)
Lemma scan_lines_roles E p role ls x :
  is_Some (params_containers !! role) →
  Forall emitted_role (context_emails x) →
  Forall emitted_role (context_emails (scan_lines E p role ls x).2).
Proof.
  intros Hrole. revert x.
  induction ls as [|full_author ls IH]; intros x Hx; simpl; [exact Hx|].
  destruct (extract_email full_author) as [email|]; simpl; [|exact Hx].
  destruct (blocking_point E (xworld x)) as [[] w]; simpl; [exact Hx|].
  destruct (blocking_point E w) as [[] w']; simpl; [exact Hx|].
  apply IH. simpl. apply Forall_app. split; [exact Hx|].
  apply Forall_singleton. exact Hrole.
Qed.

Lemma shortlog_task_roles E repo p role params x :
  is_Some (params_containers !! role) →
  Forall emitted_role (context_emails x) →
  Forall emitted_role
         (context_emails (shortlog_task E repo p role params x).2).
Proof.
  intros Hrole Hx. unfold shortlog_task.
  destruct (shortlog_run E repo role) as [[]|output]; simpl; auto.
  set (x0 := x_on_world (run (GitShortlog params (local_path repo))) x).
  pose proof (scan_lines_roles E p role (lines output) x0 Hrole Hx) as H1.
  destruct (scan_lines E p role (lines output) x0) as [[] x1]; simpl in *;
    auto.
  destruct (scan_err output); simpl; auto.
Qed.

Lemma shortlog_roles_roles E repo p roles x :
  Forall (λ rp, is_Some (params_containers !! rp.1)) roles →
  Forall emitted_role (context_emails x) →
  Forall emitted_role (context_emails (shortlog_roles E repo p roles x).2).
Proof.
  intros Hroles. revert x.
  induction Hroles as [|[role params] roles Hrole _ IH]; intros x Hx; simpl;
    [exact Hx|].
  destruct (if local_slot_free E (tick (xworld x))
            then (false, xworld x) else blocking_point E (xworld x))
    as [[] w]; simpl; [exact Hx|].
  set (x0 := x_set_world x (add_active GIT_OPS_LOG 1 w)).
  pose proof (shortlog_task_roles E repo p role params x0 Hrole Hx) as H1.
  destruct (shortlog_task E repo p role params x0) as [[] x1]; simpl in *;
    try exact H1; by apply IH.
Qed.

Lemma range_params_roles E repo :
  Forall (λ rp, is_Some (params_containers !! rp.1)) (range_params E repo).
Proof.
  apply Forall_forall. intros [role params] Hin. simpl.
  exists params. apply elem_of_map_to_list.
  unfold range_params in Hin.
  destruct (range_reversed E repo); [by apply elem_of_reverse in Hin|exact Hin].
Qed.

Lemma shortlog_loop_roles E local_repos x :
  Forall emitted_role (context_emails x) →
  Forall emitted_role (context_emails (shortlog_loop E local_repos x).2).
Proof.
  revert x. induction local_repos as [|repo rest IH]; intros x Hx; simpl.
  - destruct (blocking_point E (xworld x)) as [[] w]; simpl; exact Hx.
  - destruct (blocking_point E (xworld x)) as [[] w]; simpl; [exact Hx|].
    set (x0 := x_alloc repo (x_set_world x w)).
    pose proof (shortlog_roles_roles E repo (List.length (store x))
                  (range_params E repo) x0 (range_params_roles E repo) Hx)
      as H1.
    destruct (shortlog_roles E repo (List.length (store x))
                (range_params E repo) x0) as [[e|] x1]; simpl in *; auto.
Qed.

(** [C9] Every role stored in the grouped association map is the author
    value, the committer value or both bits together, never zero, and the
    lookup table has a display label for it.  This holds for any items
    whose roles are those of the Extractor's two queries, in particular
    for whatever the Extractor emits and for the map [main] ends with. *)
Theorem stored_roles_have_labels :
  (∀ contexts w key role,
      Forall emitted_role contexts →
      (emails_by_repo contexts w).1 !! key = Some role →
      (role = ROLE_AUTHOR ∨ role = ROLE_COMMITTER ∨ role = ROLE_MASK_BOTH) ∧
      role ≠ 0 ∧
      (role_reference !! role = Some ROLE_NAME_AUTHOR ∧ role = ROLE_AUTHOR ∨
       role_reference !! role = Some ROLE_NAME_COMMITTER ∧ role = ROLE_COMMITTER ∨
       role_reference !! role = Some ROLE_NAME_BOTH ∧ role = ROLE_MASK_BOTH)) ∧
  (∀ E local_repos w,
      Forall emitted_role
             (context_emails (git_ops_shortlog E local_repos w).2)) ∧
  (∀ E pages attempts url ForkFilter working_dir SizeFilter key role,
      emails_grouped
        (main E pages attempts url ForkFilter working_dir SizeFilter) !! key
      = Some role →
      is_Some (role_reference !! role) ∧ role ≠ 0) ∧
  ROLE_AUTHOR = 1 ∧ ROLE_COMMITTER = 2 ∧ ROLE_MASK_BOTH = 3.
Proof.
  split; [|split; [|split]].
  - intros contexts w key role Hall Hsome.
    pose proof (grouped_roles contexts w key role Hall Hsome) as Hr.
    split; [exact Hr|]. by apply role_has_label.
  - intros E local_repos w. apply shortlog_loop_roles. constructor.
  - intros E pages attempts url ForkFilter working_dir SizeFilter key role.
    unfold main.
    set (r4 := git_ops_shortlog E _ _).
    assert (Forall emitted_role (context_emails r4.2)) as H4.
    { apply shortlog_loop_roles. constructor. }
    destruct (emails_dedup (emails r4.2) (xworld r4.2)) as [deduped w1].
    pose proof (grouped_roles (context_emails r4.2) w1 key role H4) as Hg.
    destruct (emails_by_repo (context_emails r4.2) w1) as [grouped w2].
    simpl in *. intros Hsome.
    destruct (role_has_label role (Hg Hsome)) as [Hnz Hl].
    split; [|exact Hnz].
    destruct Hl as [[-> _]|[[-> _]|[-> _]]]; by eexists.
  - repeat split.
Qed.

Lemma stored_roles_have_labels_witness :
  role_reference !! ROLE_MASK_BOTH = Some ROLE_NAME_BOTH.
Proof.
  destruct (proj1 stored_roles_have_labels
              [mkEmailContext 0%nat "al@x.org" ROLE_COMMITTER;
               mkEmailContext 0%nat "al@x.org" ROLE_AUTHOR]
              initial_world (mkKey "al@x.org" 0%nat) ROLE_MASK_BOTH)
    as (_ & _ & [[H _]|[[H _]|[H _]]]).
  - repeat constructor; by eexists.
  - reflexivity.
  - vm_compute in H. discriminate H.
  - vm_compute in H. discriminate H.
  - exact H.
Defined.

(** ** Stage 4: extracting the email from a line *)

Definition lt_sign : ascii := "<"%char.

Lemma string_snoc_cases s :
  s = "" ∨ ∃ body last, s = body +:+ String last "".
Proof.
  induction s as [|c s IH]; [by left|]. right.
  destruct IH as [->|(body & last & ->)].
  - by exists "", c.
  - by exists (String c body), last.
Qed.

Lemma snoc_inj a b x y :
  a +:+ String x "" = b +:+ String y "" → a = b ∧ x = y.
Proof.
  revert b. induction a as [|c a IH]; intros [|d b] H.
  - rewrite !append_nil_l in H. by inversion H.
  - rewrite append_nil_l, append_cons in H. inversion H as [[Hc Hr]].
    destruct b; discriminate Hr.
  - rewrite append_nil_l, append_cons in H. inversion H as [[Hc Hr]].
    destruct a; discriminate Hr.
  - rewrite !append_cons in H. inversion H as [[Hc Hr]].
    apply IH in Hr as [-> ->]. auto.
Qed.

Lemma substring_between a c mid last :
  String.substring (S (String.length a)) (String.length mid)
                   (a +:+ String c (mid +:+ String last "")) = mid.
Proof.
  induction a as [|x a IH].
  - rewrite append_nil_l. simpl. apply substring_take.
  - rewrite append_cons. simpl. exact IH.
Qed.

Lemma extract_email_empty : extract_email "" = Panics.
Proof. reflexivity. Qed.

Lemma extract_email_ends_lt body :
  extract_email (body +:+ String lt_sign "") = Panics.
Proof.
  unfold extract_email, LastIndex. change "<" with (String lt_sign "").
  rewrite last_index_last by (try lia; apply occurs_nil).
  rewrite len_append. unfold slice.
  replace (len (String lt_sign "")) with 1 by reflexivity.
  pose proof (len_nonneg body) as Hb.
  destruct (Z.leb_spec 0 (0 + len body + 1)); [|lia].
  destruct (Z.leb_spec (0 + len body + 1) (len body + 1 - 1)); [lia|].
  reflexivity.
Qed.

Lemma extract_email_without_lt body last :
  ¬ occurs lt_sign (body +:+ String last "") →
  extract_email (body +:+ String last "") = Returns body.
Proof.
  intros Hno. unfold extract_email, LastIndex.
  change "<" with (String lt_sign "").
  rewrite last_index_none by exact Hno.
  unfold slice. rewrite !len_append.
  replace (len (String last "")) with 1 by reflexivity.
  pose proof (len_nonneg body) as Hb.
  destruct (Z.leb_spec 0 (-1 + 1)); [|lia].
  destruct (Z.leb_spec (-1 + 1) (len body + 1 - 1)); [|lia].
  destruct (Z.leb_spec (len body + 1 - 1) (len body + 1)); [|lia].
  simpl. f_equal.
  replace (Z.to_nat (len body + 1 - 1 - (-1 + 1))) with (String.length body)
    by (unfold len; lia).
  apply substring_take.
Qed.

Lemma extract_email_between name mid last :
  ¬ occurs lt_sign (mid +:+ String last "") →
  extract_email (name +:+ String lt_sign (mid +:+ String last "")) = Returns mid.
Proof.
  intros Hno. unfold extract_email, LastIndex.
  change "<" with (String lt_sign "").
  rewrite last_index_last by (auto; lia).
  assert (len (name +:+ String lt_sign (mid +:+ String last ""))
          = len name + 1 + len mid + 1) as Hl.
  { rewrite len_append. unfold len. simpl String.length.
    rewrite length_append. simpl. lia. }
  rewrite Hl. unfold slice. rewrite Hl.
  pose proof (len_nonneg name) as Hn. pose proof (len_nonneg mid) as Hm.
  destruct (Z.leb_spec 0 (0 + len name + 1)); [|lia].
  destruct (Z.leb_spec (0 + len name + 1) (len name + 1 + len mid + 1 - 1));
    [|lia].
  destruct (Z.leb_spec (len name + 1 + len mid + 1 - 1)
                       (len name + 1 + len mid + 1)); [|lia].
  simpl. f_equal.
  replace (Z.to_nat (0 + len name + 1)) with (S (String.length name))
    by (unfold len; lia).
  replace (Z.to_nat (len name + 1 + len mid + 1 - 1 - (0 + len name + 1)))
    with (String.length mid) by (unfold len; lia).
  apply substring_between.
Qed.

Lemma extract_email_in_bounds body last :
  last ≠ lt_sign →
  ∃ email, extract_email (body +:+ String last "") = Returns email.
Proof.
  intros Hlast.
  destruct (last_occurrence lt_sign (body +:+ String last ""))
    as [Hno|(a & b & Heq & Hb)].
  - exists body. by apply extract_email_without_lt.
  - destruct (string_snoc_cases b) as [->|(mid & l & ->)].
    + apply snoc_inj in Heq as [_ Heq]. congruence.
    + rewrite Heq. exists mid. by apply extract_email_between.
Qed.

Lemma contains_byte_snoc c s x :
  contains_byte c (s +:+ String x "") = contains_byte c s || bool_decide (c = x).
Proof.
  induction s as [|y s IH].
  - rewrite append_nil_l. simpl. by rewrite orb_false_r.
  - rewrite append_cons. simpl. by rewrite IH, orb_assoc.
Qed.

Lemma not_occurs_snoc c s x :
  ¬ occurs c s → x ≠ c → ¬ occurs c (s +:+ String x "").
Proof.
  rewrite !occurs_contains, contains_byte_snoc. intros Hs Hx H.
  apply orb_true_iff in H as [H|H]; [by apply Hs|].
  apply bool_decide_eq_true in H. congruence.
Qed.

(** [C10] (as the code has it) The slice that extracts the email is in
    bounds exactly for the lines that are not empty and do not end in
    ['<'].  For a line without ['<'] it yields the line without its final
    byte; for a line with a ['<'] it yields the text between the last ['<']
    and the final byte, so a line of the shortlog form
    [name <email>] yields [email]. *)
Theorem email_slice_in_bounds :
  (∀ full_author,
      (∃ email, extract_email full_author = Returns email) ↔
      (∃ body last, full_author = body +:+ String last "" ∧ last ≠ lt_sign)) ∧
  (∀ body last,
      ¬ occurs lt_sign (body +:+ String last "") →
      extract_email (body +:+ String last "") = Returns body) ∧
  (∀ name mid last,
      ¬ occurs lt_sign (mid +:+ String last "") →
      extract_email (name +:+ String lt_sign (mid +:+ String last ""))
      = Returns mid) ∧
  (∀ name email,
      ¬ occurs lt_sign email →
      extract_email (name +:+ String lt_sign (email +:+ ">")) = Returns email).
Proof.
  split; [|split; [|split]].
  - intros full_author. split.
    + intros [email H].
      destruct (string_snoc_cases full_author) as [->|(body & last & ->)].
      * rewrite extract_email_empty in H. discriminate H.
      * exists body, last. split; [reflexivity|]. intros ->.
        rewrite extract_email_ends_lt in H. discriminate H.
    + intros (body & last & -> & Hlast). by apply extract_email_in_bounds.
  - exact extract_email_without_lt.
  - exact extract_email_between.
  - intros name email Hno. apply extract_email_between.
    apply not_occurs_snoc; [exact Hno|discriminate].
Qed.

Lemma email_slice_in_bounds_witness :
  extract_email "    12	Ada Lovelace <ada@example.org>" = Returns "ada@example.org" ∧
  extract_email "no bracket here" = Returns "no bracket her".
Proof.
  split.
  - apply (proj2 (proj2 (proj2 email_slice_in_bounds))
             "    12	Ada Lovelace " "ada@example.org").
    intros H. apply occurs_contains in H. vm_compute in H. discriminate H.
  - apply (proj1 (proj2 email_slice_in_bounds) "no bracket her" "e"%char).
    intros H. apply occurs_contains in H. vm_compute in H. discriminate H.
Defined.

(** A shortlog run whose output has an empty line. *)
Definition blank_line_env : environment :=
  mkEnv (λ _, true) (λ _ _, None) (λ _, None)
        (λ _ _, inr (mkShortlogOutput ["     3	Al <al@x.org>"; ""] false))
        (λ d n, d +:+ "/" +:+ n)
        (λ _, false) (λ _, false) (λ _, true) (λ _, false).

(** The slice is out of bounds on the empty line (and on a line that ends
    in ['<']): extraction is not total, and an Extractor that scans such a
    line panics. *)
Lemma empty_line_panics :
  extract_email "" = Panics ∧
  extract_email "Al <" = Panics ∧
  ¬ (∀ full_author, ∃ email, extract_email full_author = Returns email) ∧
  (git_ops_shortlog blank_line_env [a_source] initial_world).1 = Stage_panicked.
Proof.
  split; [reflexivity|]. split; [reflexivity|]. split.
  - intros H. destruct (H "") as [email He]. discriminate He.
  - vm_compute. reflexivity.
Qed.

(** * Further properties of the pipeline *)

(** ** Link entries of the standard form *)

(** [<url>; rel="name"] *)
Definition link_entry (url rel : string) : string :=
  "<" +:+ url +:+ ">; rel=" +:+ dquote +:+ rel +:+ dquote.

Lemma append_assoc s1 s2 s3 : (s1 +:+ s2) +:+ s3 = s1 +:+ (s2 +:+ s3).
Proof.
  induction s1 as [|c s1 IH]; [reflexivity|].
  rewrite !append_cons. by rewrite IH.
Qed.

Lemma HasSuffix_append s suffix : HasSuffix (s +:+ suffix) suffix = true.
Proof.
  unfold HasSuffix. rewrite len_append.
  pose proof (len_nonneg s) as Hs.
  destruct (Z.leb_spec (len suffix) (len s + len suffix)); [|lia].
  rewrite length_append.
  replace (String.length s + String.length suffix - String.length suffix)%nat
    with (String.length s) by lia.
  rewrite substring_skip, substring_all. simpl. apply String.eqb_refl.
Qed.

(** Splitting at a two-byte separator whose first byte does not occur in
    the text before it. *)
Lemma split_go_first c1 c2 a b :
  ¬ occurs c1 a →
  split_go (String c1 (String c2 "")) 0
           (a +:+ String c1 (String c2 b)) =
  a :: split_go (String c1 (String c2 "")) 0 b.
Proof.
  induction a as [|x a IH]; intros Hno.
  - rewrite append_nil_l. simpl.
    destruct (ascii_dec c1 c1) as [_|Hne]; [|congruence].
    destruct (ascii_dec c2 c2) as [_|Hne]; [|congruence].
    by rewrite prefix_nil.
  - rewrite occurs_cons in Hno. rewrite append_cons.
    change (split_go (String c1 (String c2 "")) 0
                     (String x (a +:+ String c1 (String c2 b))))
      with (if String.prefix (String c1 (String c2 ""))
                             (String x (a +:+ String c1 (String c2 b)))
            then "" :: split_go (String c1 (String c2 ""))
                                (String.length (String c1 (String c2 "")) - 1)
                                (a +:+ String c1 (String c2 b))
            else match split_go (String c1 (String c2 "")) 0
                                (a +:+ String c1 (String c2 b)) with
                 | field :: fields => String x field :: fields
                 | [] => [String x ""]
                 end).
    rewrite IH by tauto.
    assert (String.prefix (String c1 (String c2 ""))
                          (String x (a +:+ String c1 (String c2 b))) = false)
      as ->; [|reflexivity].
    simpl. destruct (ascii_dec c1 x) as [Heq|_]; [tauto|reflexivity].
Qed.

Definition semicolon : ascii := ";"%char.

Lemma Split_link_entry url rel :
  ¬ occurs semicolon url → ¬ occurs semicolon rel →
  ∃ others, Split (link_entry url rel) "; " = ("<" +:+ url +:+ ">") :: others.
Proof.
  intros Hurl _. unfold Split, link_entry.
  replace ("<" +:+ url +:+ ">; rel=" +:+ dquote +:+ rel +:+ dquote)
    with (("<" +:+ url +:+ ">") +:+
          String semicolon (String " " ("rel=" +:+ dquote +:+ rel +:+ dquote))).
  - rewrite split_go_first.
    + eexists. reflexivity.
    + change ("<" +:+ url +:+ ">") with (String "<" (url +:+ ">")).
      rewrite occurs_cons.
      intros [H|H]; [discriminate H|].
      revert H. apply not_occurs_snoc; [exact Hurl|discriminate].
  - rewrite !append_cons, !append_nil_l. f_equal.
    rewrite append_assoc. reflexivity.
Qed.

Lemma HasSuffix_link_entry url rel :
  HasSuffix (link_entry url rel) (dquote +:+ rel +:+ dquote) = true.
Proof.
  unfold link_entry.
  replace ("<" +:+ url +:+ ">; rel=" +:+ dquote +:+ rel +:+ dquote)
    with (("<" +:+ url +:+ ">; rel=") +:+ (dquote +:+ rel +:+ dquote)).
  - apply HasSuffix_append.
  - rewrite !append_cons, !append_nil_l. f_equal. by rewrite append_assoc.
Qed.

Lemma slice_strip_brackets url :
  let bracketed := "<" +:+ url +:+ ">" in
  slice bracketed 1 (len bracketed - 1) = Returns url.
Proof.
  intros bracketed.
  assert (bracketed = String "<" (url +:+ ">")) as Hb by reflexivity.
  clearbody bracketed. subst bracketed. unfold slice.
  assert (len (String "<" (url +:+ ">")) = len url + 2) as Hl.
  { unfold len. simpl String.length. rewrite length_append. simpl. lia. }
  pose proof (len_nonneg url) as Hu. rewrite Hl.
  destruct (Z.leb_spec 1 (len url + 2 - 1)); [|lia].
  destruct (Z.leb_spec (len url + 2 - 1) (len url + 2)); [|lia].
  simpl. f_equal.
  replace (Z.to_nat (len url + 2 - 1 - 1)) with (String.length url)
    by (unfold len; lia).
  apply substring_take.
Qed.

Lemma next_link_scan_skips before entries :
  Forall (λ v, HasSuffix v rel_next = false) before →
  next_link_scan (before ++ entries) = next_link_scan entries.
Proof.
  induction 1 as [|v before Hv _ IH]; [reflexivity|].
  simpl. rewrite Hv. exact IH.
Qed.

(** [X1] [get_next_link] reports no next page when there is no Link header
    or when no entry of the header ends in ["next"]; for the first entry
    that does, written in the standard form [<url>; rel="next"] with no
    [';'] in the URL, it gives back the URL without its angle brackets. *)
Theorem next_link_is_bracket_stripped :
  (∀ (h : http_header), h !! "Link" = None → get_next_link h = Returns None) ∧
  (∀ (h : http_header) val0 more,
      h !! "Link" = Some (val0 :: more) →
      Forall (λ v, HasSuffix v rel_next = false) (Split val0 ", ") →
      get_next_link h = Returns None) ∧
  (∀ (h : http_header) val0 more before url after,
      h !! "Link" = Some (val0 :: more) →
      Split val0 ", " = (before ++ link_entry url "next" :: after)%list →
      Forall (λ v, HasSuffix v rel_next = false) before →
      ¬ occurs semicolon url →
      get_next_link h = Returns (Some url)).
Proof.
  split; [|split].
  - intros h Hnone. unfold get_next_link. by rewrite Hnone.
  - intros h val0 more Hlink Hall. unfold get_next_link. rewrite Hlink.
    cbn -[Split]. rewrite <- (app_nil_r (Split val0 ", ")).
    by rewrite (next_link_scan_skips _ [] Hall).
  - intros h val0 more before url after Hlink Hsplit Hbefore Hurl.
    unfold get_next_link. rewrite Hlink. cbn -[Split].
    rewrite Hsplit, (next_link_scan_skips _ _ Hbefore).
    cbn -[Split HasSuffix slice len link_entry rel_next].
    rewrite (HasSuffix_link_entry url "next"
             : HasSuffix (link_entry url "next") rel_next = true).
    destruct (Split_link_entry url "next" Hurl) as [others ->].
    { intros H. apply occurs_contains in H. vm_compute in H. discriminate H. }
    cbn -[slice len String.append].
    rewrite (slice_strip_brackets url). reflexivity.
Qed.

Lemma next_link_is_bracket_stripped_witness :
  get_next_link {[ "Link" := [github_link] ]} =
  Returns (Some "https://api.github.com/organizations/1/repos?per_page=100&page=2").
Proof.
  apply (proj2 (proj2 next_link_is_bracket_stripped)
           {[ "Link" := [github_link] ]} github_link [] []
           "https://api.github.com/organizations/1/repos?per_page=100&page=2"
           [last_entry]).
  - reflexivity.
  - vm_compute. reflexivity.
  - constructor.
  - intros H. apply occurs_contains in H. vm_compute in H. discriminate H.
Defined.

(** ** The Fetcher's work queue and closing protocol *)

Lemma fetch_loop_queue E pages attempts total_pages f :
  (4 ≤ attempts)%nat →
  List.length (urls f) = 1%nat →
  let r := fetch_loop E pages attempts total_pages f in
  r.1 ≠ Fetch_stuck ∧
  (List.length (urls r.2) ≤ 1)%nat ∧
  (r.1 = Fetch_out_of_fuel →
   List.length (bodies r.2) = (List.length (bodies f) + pages)%nat).
Proof.
  intros Hfuel. revert total_pages f.
  induction pages as [|pages IH]; intros total_pages f Hq; simpl.
  { split; [discriminate|]. split; [lia|]. intros _. lia. }
  destruct (blocking_point E (fworld f)) as [[] w]; simpl.
  { split; [discriminate|]. split; [lia|]. discriminate. }
  destruct (urls f) as [|url [|url' queued]]; simpl in Hq; try lia.
  destruct (request_ok E url); simpl.
  2:{ split; [discriminate|]. split; [lia|]. discriminate. }
  destruct (fetch_retry_total E attempts url (add_active GITHUB_FETCH 1 w) Hfuel)
    as (w2 & r & ->).
  destruct r as [resp|]; simpl.
  2:{ split; [discriminate|]. split; [lia|]. discriminate. }
  destruct (get_total_pages (Header resp) total_pages) as [tp|]; simpl.
  2:{ split; [discriminate|]. split; [lia|]. discriminate. }
  destruct (blocking_point E _) as [[] w3]; simpl.
  { split; [discriminate|]. split; [lia|]. discriminate. }
  destruct (get_next_link (Header resp)) as [[next_url|]|]; simpl.
  - destruct (IH tp (mkFetcher [next_url] (urls_closed f)
                               (bodies f ++ [Body resp]) (bodies_closed f) w3)
                eq_refl) as (H1 & H2 & H3).
    split; [exact H1|]. split; [exact H2|].
    intros Hout. rewrite (H3 Hout). simpl. rewrite length_app. simpl. lia.
  - split; [discriminate|]. split; [lia|]. discriminate.
  - split; [discriminate|]. split; [lia|]. discriminate.
Qed.

(** [X2] The Fetcher's goroutine never finds its work queue empty: when it
    takes a URL the queue holds exactly that URL, and it puts back at most
    one.  However a run ends, the work queue and the output queue are both
    closed; the only other outcome of the model is that the bound on the
    number of pages it follows is reached, after exactly that many bodies. *)
Theorem fetcher_closing_protocol E pages attempts url w :
  (4 ≤ attempts)%nat →
  let r := get_repos_from_github E pages attempts url w in
  r.1 ≠ Fetch_stuck ∧
  (List.length (urls r.2) ≤ 1)%nat ∧
  (r.1 ≠ Fetch_out_of_fuel →
   urls_closed r.2 = true ∧ bodies_closed r.2 = true) ∧
  (r.1 = Fetch_out_of_fuel → List.length (bodies r.2) = pages).
Proof.
  intros Hfuel r. subst r. unfold get_repos_from_github.
  destruct (blocking_point E w) as [[] w1].
  - unfold run_deferred. simpl. repeat split; try discriminate. lia.
  - set (f := with_world (mkFetcher [url] false [] false w) w1).
    destruct (fetch_loop_queue E pages attempts 0 f Hfuel eq_refl)
      as (H1 & H2 & H3).
    rewrite run_deferred_exit.
    split; [exact H1|]. unfold run_deferred.
    destruct (fetch_loop E pages attempts 0 f) as [e f'] eqn:Hloop.
    simpl in *.
    destruct e; simpl; (split; [exact H2|]); split;
      try (intros _; split; reflexivity); try discriminate;
      try congruence; auto.
Qed.

Lemma fetcher_closing_protocol_witness :
  let r := get_repos_from_github flaky_env 3 4 seed_url initial_world in
  r.1 = Fetch_last_page ∧ urls_closed r.2 = true ∧ bodies_closed r.2 = true.
Proof.
  intros r.
  destruct (fetcher_closing_protocol flaky_env 3 4 seed_url initial_world)
    as (_ & _ & H & _); [lia|].
  split; [vm_compute; reflexivity|]. apply H. vm_compute. discriminate.
Defined.

(** ** Pagination *)

(** A chain of pages: the request numbered [n] for [url] is answered at the
    first attempt by the first page of the chain, whose Link header can be
    parsed and names the URL of the next page; the last page names none. *)
Inductive page_chain (E : environment)
  : nat → string → Z → list response → Prop :=
| chain_last n url total_pages resp total_pages' :
    request_ok E url = true →
    http_do E n url = Some resp →
    get_total_pages (Header resp) total_pages = Returns total_pages' →
    get_next_link (Header resp) = Returns None →
    page_chain E n url total_pages [resp]
| chain_next n url total_pages resp total_pages' next_url rest :
    request_ok E url = true →
    http_do E n url = Some resp →
    get_total_pages (Header resp) total_pages = Returns total_pages' →
    get_next_link (Header resp) = Returns (Some next_url) →
    page_chain E (S n) next_url total_pages' rest →
    page_chain E n url total_pages (resp :: rest).

Lemma fetch_loop_chain E attempts n url total_pages resps :
  never_interrupted E → (1 ≤ attempts)%nat →
  page_chain E n url total_pages resps →
  ∀ pages f,
  List.length (requests (fworld f)) = n →
  cancelled (fworld f) = false →
  (List.length resps ≤ pages)%nat →
  urls f = [url] →
  let r := fetch_loop E pages attempts total_pages f in
  r.1 = Fetch_last_page ∧
  bodies r.2 = (bodies f ++ (Body <$> resps))%list ∧
  urls r.2 = [] ∧
  List.length (requests (fworld r.2)) =
    (List.length (requests (fworld f)) + List.length resps)%nat ∧
  cancelled (fworld r.2) = false.
Proof.
  intros Hq Hatt Hchain.
  induction Hchain
    as [n url tp resp tp' Hreq Hdo Htp Hnext
       |n url tp resp tp' next_url rest Hreq Hdo Htp Hnext Hrest IH];
    intros pages f' Hn Hc Hpages Hurls; symmetry in Hn;
    destruct pages as [|pages];
    simpl in Hpages; try lia; simpl fetch_loop.
  - destruct (blocking_point_quiet E (fworld f') Hq Hc) as [Hd Hc1].
    pose proof (blocking_point_frame E (fworld f')) as Hf. simpl in Hf.
    destruct (blocking_point E (fworld f')) as [done w1]. simpl in Hd, Hc1, Hf.
    subst done. rewrite Hurls, Hreq. simpl negb. cbv iota.
    destruct Hf as (_ & _ & _ & _ & _ & Hr & _).
    destruct attempts as [|attempts]; [lia|].
    rewrite (fetch_retry_response E attempts url 1 _ resp)
      by (simpl; rewrite Hr, <- Hn; exact Hdo).
    rewrite Htp.
    set (w2 := add_active GITHUB_FETCH minus_one _).
    assert (cancelled w2 = false) as Hc2 by exact Hc1.
    destruct (blocking_point_quiet E w2 Hq Hc2) as [Hd3 Hc3].
    pose proof (blocking_point_frame E w2) as Hf3. simpl in Hf3.
    destruct (blocking_point E w2) as [done w3]. simpl in Hd3, Hc3, Hf3.
    subst done. rewrite Hnext. simpl.
    destruct Hf3 as (_ & _ & _ & _ & _ & Hr3 & _).
    repeat split; auto.
    rewrite Hr3. unfold w2. simpl. rewrite length_app, Hr. simpl. lia.
  - destruct (blocking_point_quiet E (fworld f') Hq Hc) as [Hd Hc1].
    pose proof (blocking_point_frame E (fworld f')) as Hf. simpl in Hf.
    destruct (blocking_point E (fworld f')) as [done w1]. simpl in Hd, Hc1, Hf.
    subst done. rewrite Hurls, Hreq. simpl negb. cbv iota.
    destruct Hf as (_ & _ & _ & _ & _ & Hr & _).
    destruct attempts as [|attempts]; [lia|].
    rewrite (fetch_retry_response E attempts url 1 _ resp)
      by (simpl; rewrite Hr, <- Hn; exact Hdo).
    rewrite Htp.
    set (w2 := add_active GITHUB_FETCH minus_one _).
    assert (cancelled w2 = false) as Hc2 by exact Hc1.
    destruct (blocking_point_quiet E w2 Hq Hc2) as [Hd3 Hc3].
    pose proof (blocking_point_frame E w2) as Hf3. simpl in Hf3.
    destruct (blocking_point E w2) as [done w3]. simpl in Hd3, Hc3, Hf3.
    subst done. rewrite Hnext. cbv iota beta.
    destruct Hf3 as (_ & _ & _ & _ & _ & Hr3 & _).
    assert (List.length (requests w3) = S n) as Hlen.
    { rewrite Hr3. unfold w2. simpl. rewrite length_app, Hr. simpl. lia. }
    match goal with
    | |- context [fetch_loop E pages (S attempts) tp' ?g] =>
        pose proof (IH pages g) as IHg
    end.
    cbv zeta in IHg.
    destruct IHg as (H1 & H2 & H3 & H4 & H5);
      [exact Hlen|exact Hc3|lia|reflexivity|].
    split; [exact H1|]. split.
    { rewrite H2. cbn [bodies fmap list_fmap]. by rewrite <- app_assoc. }
    split; [exact H3|]. split; [|exact H5].
    rewrite H4. cbn [fworld List.length]. lia.
Qed.

(** [X3] When the pages form a chain (each request is answered at the
    first attempt, each page but the last names the next one) and the run is
    not cancelled, the Fetcher puts exactly one body per page on its output
    queue, in page order, makes exactly one request per page, and stops at
    the page without a next link, with both queues closed and the work queue
    empty. *)
Theorem fetcher_follows_the_chain E pages attempts url w resps :
  never_interrupted E → cancelled w = false →
  (1 ≤ attempts)%nat → (List.length resps ≤ pages)%nat →
  page_chain E (List.length (requests w)) url 0 resps →
  let r := get_repos_from_github E pages attempts url w in
  r.1 = Fetch_last_page ∧
  bodies r.2 = Body <$> resps ∧
  urls r.2 = [] ∧
  List.length (requests (fworld r.2)) =
    (List.length (requests w) + List.length resps)%nat ∧
  urls_closed r.2 = true ∧ bodies_closed r.2 = true.
Proof.
  intros Hq Hc Hatt Hpages Hchain r. subst r. unfold get_repos_from_github.
  destruct (blocking_point_quiet E w Hq Hc) as [Hd Hc1].
  pose proof (blocking_point_frame E w) as Hf. simpl in Hf.
  destruct (blocking_point E w) as [done w1]. simpl in Hd, Hc1, Hf. subst done.
  destruct Hf as (_ & _ & _ & _ & _ & Hr & _).
  set (f := with_world (mkFetcher [url] false [] false w) w1).
  pose proof (fetch_loop_chain E attempts _ url 0 resps Hq Hatt Hchain pages f)
    as Hloop.
  cbv zeta in Hloop.
  destruct Hloop as (H1 & H2 & H3 & H4 & _);
    [subst f; cbn; by rewrite Hr|exact Hc1|exact Hpages|reflexivity|].
  unfold run_deferred.
  destruct (fetch_loop E pages attempts 0 f) as [e f'].
  cbn [fst snd] in *. rewrite H1. cbn.
  repeat split; auto. rewrite H4. subst f. cbn. by rewrite Hr.
Qed.

Definition page_two_url : string :=
  "https://api.github.com/organizations/1/repos?per_page=100&page=2".

(** Two pages: the seed URL answers with a page that links to the second
    one, every other URL with a page without a Link header. *)
Definition two_pages_env : environment :=
  mkEnv (λ _, true)
        (λ _ url,
           if String.eqb url seed_url
           then Some (mkResponse {[ "Link" := [github_link] ]}
                                 [Decoded [a_fork; a_source]])
           else Some (mkResponse ∅ [Decoded [big_repo]]))
        (λ _, None)
        (λ _ _, inr (mkShortlogOutput [] false))
        (λ d n, d +:+ "/" +:+ n)
        (λ _, false) (λ _, false) (λ _, true) (λ _, false).

Lemma fetcher_follows_the_chain_witness :
  bodies (get_repos_from_github two_pages_env 5 1 seed_url initial_world).2
  = [[Decoded [a_fork; a_source]]; [Decoded [big_repo]]].
Proof.
  apply (fetcher_follows_the_chain two_pages_env 5 1 seed_url initial_world
           [mkResponse {[ "Link" := [github_link] ]} [Decoded [a_fork; a_source]];
            mkResponse ∅ [Decoded [big_repo]]]).
  - intros n. reflexivity.
  - reflexivity.
  - lia.
  - simpl. lia.
  - eapply (chain_next two_pages_env _ seed_url 0 _ 7 page_two_url).
    + reflexivity.
    + reflexivity.
    + vm_compute. reflexivity.
    + vm_compute. reflexivity.
    + eapply (chain_last two_pages_env _ page_two_url 7 _ 7).
      * reflexivity.
      * reflexivity.
      * vm_compute. reflexivity.
      * vm_compute. reflexivity.
Defined.

(** ** The Decoder's output *)

(** [!(repo.Fork && fork_filter)] *)
Definition passes_fork_filter (fork_filter : bool) (repo : Repo) : bool :=
  negb (Fork repo && fork_filter).

(** The records of a body that the Decoder forwards. *)
Definition forwarded_of (fork_filter : bool) (body : list decoded) : list Repo :=
  List.filter (passes_fork_filter fork_filter) (decoded_records body).

Lemma forward_repos_exact E fork_filter r s :
  never_interrupted E → cancelled (sworld s) = false →
  (forward_repos E fork_filter r s).1 = false ∧
  queue (forward_repos E fork_filter r s).2 =
    (queue s ++ List.filter (passes_fork_filter fork_filter) r)%list ∧
  cancelled (sworld (forward_repos E fork_filter r s).2) = false.
Proof.
  intros Hq. revert s. induction r as [|repo r IH]; intros s Hs; simpl.
  - by rewrite app_nil_r.
  - unfold passes_fork_filter at 1.
    destruct (Fork repo && fork_filter) eqn:Hskip; simpl.
    + apply (IH (on_world (log (Debug_skip_fork (Name repo))) s)). exact Hs.
    + destruct (blocking_point_quiet E (sworld s) Hq Hs) as [Hd Hc].
      destruct (blocking_point E (sworld s)) as [done w]. simpl in Hd, Hc.
      subst done.
      destruct (IH (on_world (add_total REMOTE_REPOS 1)
                             (push repo (set_world s w))) Hc)
        as (H1 & H2 & H3).
      split; [exact H1|]. split; [|exact H3].
      rewrite H2. simpl. by rewrite <- app_assoc.
Qed.

Lemma decode_task_exact E fork_filter body s :
  never_interrupted E → cancelled (sworld s) = false →
  queue (decode_task E fork_filter body s).2 =
    (queue s ++ forwarded_of fork_filter body)%list ∧
  cancelled (sworld (decode_task E fork_filter body s).2) = false.
Proof.
  intros Hq. revert s. unfold forwarded_of.
  induction body as [|[r|] body IH]; intros s Hs; simpl.
  - by rewrite app_nil_r.
  - destruct (forward_repos_exact E fork_filter r s Hq Hs) as (H1 & H2 & H3).
    destruct (forward_repos E fork_filter r s) as [done s'].
    simpl in H1, H2, H3. subst done.
    destruct (IH (on_world (add_active GITHUB_PARSE minus_one)
                    (on_world (add_completion GITHUB_PARSE 1) s')) H3)
      as [H4 H5].
    split; [|exact H5].
    rewrite H4. simpl. by rewrite H2, List.filter_app, <- app_assoc.
  - by rewrite app_nil_r.
Qed.

Lemma parse_loop_exact E fork_filter repo_data s :
  never_interrupted E → cancelled (sworld s) = false →
  (parse_loop E fork_filter repo_data s).1 = Stage_completed ∧
  queue (parse_loop E fork_filter repo_data s).2 =
    (queue s ++ List.concat (forwarded_of fork_filter <$> repo_data))%list ∧
  cancelled (sworld (parse_loop E fork_filter repo_data s).2) = false.
Proof.
  intros Hq. revert s.
  induction repo_data as [|body rest IH]; intros s Hs; simpl.
  - destruct (blocking_point_quiet E (sworld s) Hq Hs) as [Hd Hc].
    destruct (blocking_point E (sworld s)) as [done w]. simpl in Hd, Hc.
    subst done. simpl. by rewrite app_nil_r.
  - destruct (blocking_point_quiet E (sworld s) Hq Hs) as [Hd Hc].
    destruct (blocking_point E (sworld s)) as [done w]. simpl in Hd, Hc.
    subst done.
    destruct (blocking_point_quiet E w Hq Hc) as [Hd' Hc'].
    destruct (blocking_point E w) as [done w']. simpl in Hd', Hc'.
    subst done.
    set (s0 := set_world s (add_active GITHUB_PARSE 1 w')).
    destruct (decode_task_exact E fork_filter body s0 Hq Hc') as [H1 H2].
    destruct (IH (decode_task E fork_filter body s0).2 H2) as (H3 & H4 & H5).
    split; [exact H3|]. split; [|exact H5].
    rewrite H4, H1. simpl. by rewrite <- app_assoc.
Qed.

(** [X4] In a run that is not cancelled the Decoder's output queue holds,
    in some order, exactly the records decoded from each body before its
    stream ends or fails, each as often as it was decoded, without the
    forks when the fork filter is enabled.  A body that fails to decode
    loses only what comes after the failure; the other bodies are still
    decoded. *)
Theorem decoder_output_is_filtered_records E repo_data fork_filter w :
  never_interrupted E → cancelled w = false →
  let r := parse_github_response E repo_data fork_filter w in
  r.1 = Stage_completed ∧
  queue r.2 ≡ₚ List.concat (forwarded_of fork_filter <$> repo_data) ∧
  (∀ repo, repo ∈ queue r.2 ↔
           ∃ body, body ∈ repo_data ∧ repo ∈ decoded_records body ∧
                   (fork_filter = true → Fork repo = false)).
Proof.
  intros Hq Hw r. subst r. unfold parse_github_response.
  destruct (parse_loop_exact E fork_filter repo_data (mkStage [] false w) Hq Hw)
    as (H1 & H2 & _).
  split; [exact H1|]. split; [by rewrite H2|].
  intros repo. rewrite H2. simpl. rewrite list_elem_of_In, in_concat. split.
  - intros (l & Hl & Hin).
    apply list_elem_of_In, list_elem_of_fmap in Hl as (body & -> & Hbody).
    unfold forwarded_of in Hin. apply filter_In in Hin as [Hin Hpass].
    exists body. split; [exact Hbody|]. split; [by apply list_elem_of_In|].
    intros ->. unfold passes_fork_filter in Hpass.
    rewrite andb_true_r in Hpass. by apply negb_true_iff in Hpass.
  - intros (body & Hbody & Hin & Hfork).
    exists (forwarded_of fork_filter body). split.
    + apply list_elem_of_In, list_elem_of_fmap. by exists body.
    + unfold forwarded_of. apply filter_In. split; [by apply list_elem_of_In|].
      unfold passes_fork_filter. destruct fork_filter.
      * rewrite Hfork by reflexivity. reflexivity.
      * by rewrite andb_false_r.
Qed.

Lemma decoder_output_is_filtered_records_witness :
  queue (parse_github_response quiet_env
           [[Decoded [a_fork]; DecodeError; Decoded [big_repo]];
            [Decoded [a_source; a_fork]]]
           true initial_world).2
  ≡ₚ [a_source].
Proof.
  apply (decoder_output_is_filtered_records quiet_env
           [[Decoded [a_fork]; DecodeError; Decoded [big_repo]];
            [Decoded [a_source; a_fork]]] true initial_world
           (λ n, eq_refl) eq_refl).
Defined.

(** ** How the drivers of stages 2 to 4 end *)

Lemma blocking_point_refused E w w' :
  blocking_point E w = (true, w') → cancelled w' = true.
Proof.
  intros H. pose proof (blocking_point_refuses E w) as Hr.
  rewrite H in Hr. by apply Hr.
Qed.

Lemma parse_loop_ends E fork_filter repo_data s :
  let r := parse_loop E fork_filter repo_data s in
  closed r.2 = true ∧ r.1 ≠ Stage_panicked ∧
  (r.1 = Stage_cancelled → cancelled (sworld r.2) = true).
Proof.
  revert s. induction repo_data as [|body rest IH]; intros s; simpl.
  - destruct (blocking_point E (sworld s)) as [[] w] eqn:Hb; simpl.
    + split; [reflexivity|]. split; [discriminate|].
      intros _. by eapply blocking_point_refused.
    + split; [reflexivity|]. split; discriminate.
  - destruct (blocking_point E (sworld s)) as [[] w] eqn:Hb; simpl.
    { split; [reflexivity|]. split; [discriminate|].
      intros _. by eapply blocking_point_refused. }
    destruct (blocking_point E w) as [[] w'] eqn:Hb'; simpl.
    { split; [reflexivity|]. split; [discriminate|].
      intros _. by eapply blocking_point_refused. }
    apply IH.
Qed.

Lemma clone_loop_ends E working_dir size_filter repos s :
  let r := clone_loop E working_dir size_filter repos s in
  closed r.2 = true ∧ r.1 ≠ Stage_panicked ∧
  (r.1 = Stage_cancelled → cancelled (sworld r.2) = true).
Proof.
  revert s. induction repos as [|repo rest IH]; intros s; simpl.
  - destruct (blocking_point E (sworld s)) as [[] w] eqn:Hb; simpl.
    + split; [reflexivity|]. split; [discriminate|].
      intros _. by eapply blocking_point_refused.
    + split; [reflexivity|]. split; discriminate.
  - destruct (blocking_point E (sworld s)) as [[] w] eqn:Hb; simpl.
    { split; [reflexivity|]. split; [discriminate|].
      intros _. by eapply blocking_point_refused. }
    unfold clone_step.
    destruct ((0 <? size_filter) && (size_filter <? Size repo)); simpl;
      [apply IH|].
    destruct (blocking_point E w) as [[] w'] eqn:Hb'; simpl.
    { split; [reflexivity|]. split; [discriminate|].
      intros _. by eapply blocking_point_refused. }
    destruct (clone_task _ _ _ _) as [e s']. simpl. apply IH.
Qed.

Lemma shortlog_roles_ends E repo p roles x :
  let r := shortlog_roles E repo p roles x in
  (r.1 = None → queues_closed r.2 = queues_closed x) ∧
  (r.1 = Some Stage_cancelled →
   queues_closed r.2 = true ∧ cancelled (xworld r.2) = true) ∧
  r.1 ≠ Some Stage_completed.
Proof.
  revert x. induction roles as [|[role params] roles IH]; intros x; simpl.
  { split; [reflexivity|]. split; discriminate. }
  destruct (local_slot_free E (tick (xworld x))).
  - simpl.
    set (x0 := x_set_world x (add_active GIT_OPS_LOG 1 (xworld x))).
    assert (queues_closed (shortlog_task E repo p role params x0).2
            = queues_closed x) as Hq.
    { unfold shortlog_task.
      destruct (shortlog_run E repo role) as [[]|output]; simpl; auto.
      assert (∀ ls y, queues_closed (scan_lines E p role ls y).2
                      = queues_closed y) as Hscan.
      { induction ls as [|l ls IHl]; intros y; simpl; auto.
        destruct (extract_email l); simpl; auto.
        destruct (blocking_point E (xworld y)) as [[] w1]; simpl; auto.
        destruct (blocking_point E w1) as [[] w2]; simpl; auto.
        by rewrite IHl. }
      specialize (Hscan (lines output)
                    (x_on_world (run (GitShortlog params (local_path repo))) x0)).
      destruct (scan_lines _ _ _ _ _) as [[] x1]; simpl in *; auto.
      destruct (scan_err output); simpl; auto. }
    destruct (shortlog_task E repo p role params x0) as [[] x1]; simpl in *;
      try (destruct (IH x1) as (H1 & H2 & H3);
           split; [intros H; rewrite (H1 H); exact Hq|];
           split; [exact H2|exact H3]).
    split; [discriminate|]. split; discriminate.
  - destruct (blocking_point E (xworld x)) as [[] w] eqn:Hb; simpl.
    { split; [discriminate|]. split; [|discriminate].
      intros _. split; [reflexivity|]. by eapply blocking_point_refused. }
    set (x0 := x_set_world x (add_active GIT_OPS_LOG 1 w)).
    assert (queues_closed (shortlog_task E repo p role params x0).2
            = queues_closed x) as Hq.
    { unfold shortlog_task.
      destruct (shortlog_run E repo role) as [[]|output]; simpl; auto.
      assert (∀ ls y, queues_closed (scan_lines E p role ls y).2
                      = queues_closed y) as Hscan.
      { induction ls as [|l ls IHl]; intros y; simpl; auto.
        destruct (extract_email l); simpl; auto.
        destruct (blocking_point E (xworld y)) as [[] w1]; simpl; auto.
        destruct (blocking_point E w1) as [[] w2]; simpl; auto.
        by rewrite IHl. }
      specialize (Hscan (lines output)
                    (x_on_world (run (GitShortlog params (local_path repo))) x0)).
      destruct (scan_lines _ _ _ _ _) as [[] x1]; simpl in *; auto.
      destruct (scan_err output); simpl; auto. }
    destruct (shortlog_task E repo p role params x0) as [[] x1]; simpl in *;
      try (destruct (IH x1) as (H1 & H2 & H3);
           split; [intros H; rewrite (H1 H); exact Hq|];
           split; [exact H2|exact H3]).
    split; [discriminate|]. split; discriminate.
Qed.

Lemma shortlog_loop_ends E local_repos x :
  let r := shortlog_loop E local_repos x in
  (r.1 ≠ Stage_panicked → queues_closed r.2 = true) ∧
  (r.1 = Stage_cancelled → cancelled (xworld r.2) = true).
Proof.
  revert x. induction local_repos as [|repo rest IH]; intros x; simpl.
  - destruct (blocking_point E (xworld x)) as [[] w] eqn:Hb; simpl.
    + split; [reflexivity|]. intros _. by eapply blocking_point_refused.
    + split; [reflexivity|discriminate].
  - destruct (blocking_point E (xworld x)) as [[] w] eqn:Hb; simpl.
    { split; [reflexivity|]. intros _. by eapply blocking_point_refused. }
    set (x0 := x_alloc repo (x_set_world x w)).
    destruct (shortlog_roles_ends E repo (List.length (store x))
                (range_params E repo) x0) as (H1 & H2 & H3).
    destruct (shortlog_roles E repo (List.length (store x))
                (range_params E repo) x0) as [[[]|] x1]; simpl in *.
    + congruence.
    + split; [intros _; by apply H2|intros _; by apply H2].
    + split; [congruence|discriminate].
    + apply IH.
Qed.

(** [X5] However the driver of the Decoder or of the Cloner ends, its output
    queue is closed, and so are the Extractor's two queues unless a task
    panicked.  A driver ends as cancelled only when the shared token has
    been triggered. *)
Theorem drivers_close_their_queues :
  (∀ E repo_data fork_filter w,
      let r := parse_github_response E repo_data fork_filter w in
      closed r.2 = true ∧ r.1 ≠ Stage_panicked ∧
      (r.1 = Stage_cancelled → cancelled (sworld r.2) = true)) ∧
  (∀ E repos working_dir size_filter w,
      let r := git_ops_clone E repos working_dir size_filter w in
      closed r.2 = true ∧ r.1 ≠ Stage_panicked ∧
      (r.1 = Stage_cancelled → cancelled (sworld r.2) = true)) ∧
  (∀ E local_repos w,
      let r := git_ops_shortlog E local_repos w in
      (r.1 ≠ Stage_panicked → queues_closed r.2 = true) ∧
      (r.1 = Stage_cancelled → cancelled (xworld r.2) = true)).
Proof.
  split; [|split].
  - intros E repo_data fork_filter w. apply parse_loop_ends.
  - intros E repos working_dir size_filter w. apply clone_loop_ends.
  - intros E local_repos w. apply shortlog_loop_ends.
Qed.

(** An interrupt arrives before the first blocking operation and every
    operation takes the cancellation branch. *)
Definition interrupted_env : environment :=
  mkEnv (λ _, true) (λ _ _, None) (λ _, None)
        (λ _ _, inr (mkShortlogOutput [] false))
        (λ d n, d +:+ "/" +:+ n)
        (λ _, true) (λ _, true) (λ _, true) (λ _, false).

Lemma drivers_close_their_queues_witness :
  cancelled (sworld (parse_github_response interrupted_env [[Decoded [a_source]]]
                                           false initial_world).2) = true ∧
  cancelled (sworld (git_ops_clone interrupted_env [a_source] "/w" 0
                                   initial_world).2) = true ∧
  queues_closed (git_ops_shortlog quiet_env [a_source] initial_world).2 = true ∧
  cancelled (xworld (git_ops_shortlog interrupted_env [a_source]
                                      initial_world).2) = true.
Proof.
  split; [|split; [|split]].
  - apply (proj1 drivers_close_their_queues interrupted_env
             [[Decoded [a_source]]] false initial_world).
    vm_compute. reflexivity.
  - apply (proj1 (proj2 drivers_close_their_queues) interrupted_env
             [a_source] "/w" 0 initial_world).
    vm_compute. reflexivity.
  - apply (proj2 (proj2 drivers_close_their_queues) quiet_env
             [a_source] initial_world).
    vm_compute. discriminate.
  - apply (proj2 (proj2 drivers_close_their_queues) interrupted_env
             [a_source] initial_world).
    vm_compute. reflexivity.
Defined.

(** ** Progress totals count what is handed over *)

(** Two arrays agree everywhere but at index [i]. *)
Definition agree_off (i : nat) (t t' : list Z) : Prop :=
  List.length t' = List.length t ∧ ∀ j, j ≠ i → t' !! j = t !! j.

Lemma agree_off_refl i t : agree_off i t t.
Proof. split; auto. Qed.

Lemma agree_off_trans i t1 t2 t3 :
  agree_off i t1 t2 → agree_off i t2 t3 → agree_off i t1 t3.
Proof.
  intros [H1 H2] [H3 H4]. split; [congruence|].
  intros j Hj. rewrite H4, H2; auto.
Qed.

Lemma agree_off_Add i d t : agree_off i t (AddUint32 t i d).
Proof.
  split; [apply length_alter|].
  intros j Hj. unfold AddUint32. by rewrite list_lookup_alter_ne.
Qed.

Lemma agree_off_Store i v t : agree_off i t (StoreUint32 t i v).
Proof.
  split; [apply length_insert|].
  intros j Hj. unfold StoreUint32. by rewrite list_lookup_insert_ne.
Qed.

Lemma agree_off_Load i j t t' :
  agree_off i t t' → j ≠ i → LoadUint32 t' j = LoadUint32 t j.
Proof. intros [_ H] Hj. unfold LoadUint32. by rewrite H. Qed.

(** [n] additions of [d] at index [i]. *)
Definition added (i : nat) (d : Z) (n : nat) (t : list Z) : list Z :=
  Nat.iter n (λ a, AddUint32 a i d) t.

Lemma added_more i d n t :
  added i d n (AddUint32 t i d) = added i d (S n) t.
Proof.
  unfold added. symmetry.
  apply (Nat.iter_succ_r n (list Z) (λ a, AddUint32 a i d) t).
Qed.

Lemma added_plus i d n m t :
  added i d n (added i d m t) = added i d (m + n) t.
Proof.
  unfold added. rewrite Nat.add_comm. symmetry.
  apply (Nat.iter_add n m (list Z) (λ a, AddUint32 a i d) t).
Qed.

Lemma added_length i d n t : List.length (added i d n t) = List.length t.
Proof.
  induction n as [|n IH]; [reflexivity|].
  unfold added in *. simpl. unfold AddUint32 at 1. by rewrite length_alter.
Qed.

Lemma added_agree_off i d n t : agree_off i t (added i d n t).
Proof.
  induction n as [|n IH]; [apply agree_off_refl|].
  eapply agree_off_trans; [exact IH|]. apply agree_off_Add.
Qed.

Lemma LoadUint32_added i d n t :
  (i < List.length t)%nat →
  0 ≤ LoadUint32 t i < 2 ^ 32 →
  LoadUint32 (added i d n t) i = (LoadUint32 t i + d * Z.of_nat n) mod 2 ^ 32.
Proof.
  intros Hi Hr. induction n as [|n IH].
  - simpl. rewrite Z.mul_0_r, Z.add_0_r. symmetry. by apply Z.mod_small.
  - change (added i d (S n) t) with (AddUint32 (added i d n t) i d).
    rewrite LoadUint32_AddUint32 by (by rewrite added_length).
    rewrite IH, Zplus_mod_idemp_l. f_equal. lia.
Qed.

(** A stage leaves the totals and the completed counts of the other stages
    alone. *)
Definition stage_frame (k : nat) (w w' : world) : Prop :=
  agree_off k (total_data w) (total_data w') ∧
  agree_off k (completion_data w) (completion_data w').

Lemma stage_frame_refl k w : stage_frame k w w.
Proof. split; apply agree_off_refl. Qed.

Lemma stage_frame_trans k w1 w2 w3 :
  stage_frame k w1 w2 → stage_frame k w2 w3 → stage_frame k w1 w3.
Proof. intros [? ?] [? ?]. split; eapply agree_off_trans; eauto. Qed.

Lemma stage_frame_same k w w' :
  total_data w' = total_data w → completion_data w' = completion_data w →
  stage_frame k w w'.
Proof. intros H1 H2. split; rewrite ?H1, ?H2; apply agree_off_refl. Qed.

Lemma stage_frame_blocking_point E k w :
  stage_frame k w (blocking_point E w).2.
Proof.
  pose proof (blocking_point_frame E w) as Hf. simpl in Hf.
  destruct Hf as (_ & _ & Hc & Ht & _). by apply stage_frame_same.
Qed.

Lemma fetch_retry_counters E fuel url fetch_counter w w' r :
  fetch_retry E fuel url fetch_counter w = Some (w', r) →
  total_data w' = total_data w ∧ completion_data w' = completion_data w.
Proof.
  revert fetch_counter w.
  induction fuel as [|fuel IH]; intros fetch_counter w H; [discriminate|].
  simpl in H.
  destruct (http_do E (List.length (requests w)) url) as [resp|].
  - inversion H. subst. split; reflexivity.
  - destruct (4 <=? fetch_counter).
    + inversion H. subst. split; reflexivity.
    + apply IH in H. simpl in H. exact H.
Qed.

Lemma fetch_loop_frame E pages attempts total_pages f :
  stage_frame GITHUB_FETCH (fworld f)
              (fworld (fetch_loop E pages attempts total_pages f).2).
Proof.
  revert total_pages f.
  induction pages as [|pages IH]; intros total_pages f; simpl.
  { apply stage_frame_refl. }
  pose proof (stage_frame_blocking_point E GITHUB_FETCH (fworld f)) as H1.
  destruct (blocking_point E (fworld f)) as [[] w]; simpl in H1; [exact H1|].
  destruct (urls f) as [|url queued]; [exact H1|].
  destruct (request_ok E url); simpl;
    [|eapply stage_frame_trans; [exact H1|by apply stage_frame_same]].
  destruct (fetch_retry E attempts url 1 (add_active GITHUB_FETCH 1 w))
    as [[w2 [resp|]]|] eqn:Hretry; simpl;
    [| |eapply stage_frame_trans; [exact H1|by apply stage_frame_same]].
  2:{ apply fetch_retry_counters in Hretry as [Ht Hc]. simpl in Ht, Hc.
      eapply stage_frame_trans; [exact H1|by apply stage_frame_same]. }
  apply fetch_retry_counters in Hretry as [Ht Hc]. simpl in Ht, Hc.
  assert (stage_frame GITHUB_FETCH (fworld f) w2) as H2.
  { eapply stage_frame_trans; [exact H1|by apply stage_frame_same]. }
  destruct (get_total_pages (Header resp) total_pages) as [tp|]; simpl;
    [|exact H2].
  set (w3 := add_active GITHUB_FETCH minus_one
               (add_completion GITHUB_FETCH 1
                  (store_total GITHUB_TOTAL_PAGES tp w2))).
  assert (stage_frame GITHUB_FETCH (fworld f) w3) as H3.
  { eapply stage_frame_trans; [exact H2|].
    split; simpl; [apply agree_off_Store|apply agree_off_Add]. }
  pose proof (stage_frame_blocking_point E GITHUB_FETCH w3) as H4.
  assert (stage_frame GITHUB_FETCH (fworld f) (blocking_point E w3).2) as H5.
  { eapply stage_frame_trans; [exact H3|exact H4]. }
  destruct (blocking_point E w3) as [[] w4]; simpl in *; [exact H5|].
  destruct (get_next_link (Header resp)) as [[next_url|]|]; simpl.
  - eapply stage_frame_trans; [exact H5|].
    apply (IH tp (mkFetcher _ _ _ _ w4)).
  - eapply stage_frame_trans; [exact H5|by apply stage_frame_same].
  - exact H5.
Qed.

Lemma fetcher_frame E pages attempts url w :
  stage_frame GITHUB_FETCH w
              (fworld (get_repos_from_github E pages attempts url w).2).
Proof.
  unfold get_repos_from_github.
  pose proof (stage_frame_blocking_point E GITHUB_FETCH w) as H1.
  destruct (blocking_point E w) as [[] w1]; simpl in H1;
    rewrite run_deferred_world; [exact H1|].
  eapply stage_frame_trans; [exact H1|].
  apply (fetch_loop_frame E pages attempts 0 (mkFetcher _ _ _ _ w1)).
Qed.

(** Between two states of a stage whose total is kept at index [k] and
    grows by [d] with each record handed over: the queue only grows, the
    total has been added to once per new record, the completed counts of
    other stages are untouched. *)
Definition handed_over {A : Type} (k : nat) (d : Z) (s s' : stage A) : Prop :=
  ∃ new,
    queue s' = (queue s ++ new)%list ∧
    total_data (sworld s') = added k d (List.length new) (total_data (sworld s)) ∧
    agree_off k (completion_data (sworld s)) (completion_data (sworld s')).

Lemma handed_over_same {A : Type} k d (s s' : stage A) :
  queue s' = queue s →
  total_data (sworld s') = total_data (sworld s) →
  agree_off k (completion_data (sworld s)) (completion_data (sworld s')) →
  handed_over k d s s'.
Proof.
  intros Hq Ht Hc. exists []. rewrite app_nil_r. auto.
Qed.

Lemma handed_over_trans {A : Type} k d (s1 s2 s3 : stage A) :
  handed_over k d s1 s2 → handed_over k d s2 s3 → handed_over k d s1 s3.
Proof.
  intros (n1 & Hq1 & Ht1 & Hc1) (n2 & Hq2 & Ht2 & Hc2).
  exists (n1 ++ n2)%list. split; [by rewrite Hq2, Hq1, app_assoc|]. split.
  - by rewrite Ht2, Ht1, added_plus, length_app.
  - by eapply agree_off_trans.
Qed.

Lemma handed_over_push {A : Type} k d (a : A) (s s' : stage A) :
  queue s' = (queue s ++ [a])%list →
  total_data (sworld s') = AddUint32 (total_data (sworld s)) k d →
  agree_off k (completion_data (sworld s)) (completion_data (sworld s')) →
  handed_over k d s s'.
Proof. intros Hq Ht Hc. exists [a]. auto. Qed.

Lemma handed_over_blocking_point {A : Type} E k d (s : stage A) :
  handed_over k d s (set_world s (blocking_point E (sworld s)).2).
Proof.
  pose proof (blocking_point_frame E (sworld s)) as Hf. simpl in Hf.
  destruct Hf as (_ & _ & Hc & Ht & _).
  apply handed_over_same; simpl; auto. rewrite Hc. apply agree_off_refl.
Qed.

Lemma handed_over_frame {A : Type} k d (s s' : stage A) :
  handed_over k d s s' → stage_frame k (sworld s) (sworld s').
Proof.
  intros (new & _ & Ht & Hc). split; [|exact Hc].
  rewrite Ht. apply added_agree_off.
Qed.

Lemma forward_repos_handed E fork_filter r s :
  handed_over REMOTE_REPOS 1 s (forward_repos E fork_filter r s).2.
Proof.
  revert s. induction r as [|repo r IH]; intros s; simpl.
  - apply handed_over_same; auto. apply agree_off_refl.
  - destruct (Fork repo && fork_filter).
    + eapply handed_over_trans; [|apply IH].
      apply handed_over_same; auto. apply agree_off_refl.
    + pose proof (handed_over_blocking_point E REMOTE_REPOS 1 s) as Hb.
      destruct (blocking_point E (sworld s)) as [[] w]; simpl in *;
        [exact Hb|].
      eapply handed_over_trans; [exact Hb|].
      eapply handed_over_trans; [|apply IH].
      eapply handed_over_push; simpl; eauto. apply agree_off_refl.
Qed.

Lemma decode_task_handed E fork_filter body s :
  handed_over REMOTE_REPOS 1 s (decode_task E fork_filter body s).2.
Proof.
  revert s. induction body as [|[r|] body IH]; intros s; simpl.
  - apply handed_over_same; auto. apply agree_off_refl.
  - pose proof (forward_repos_handed E fork_filter r s) as Hf.
    destruct (forward_repos E fork_filter r s) as [[] s']; simpl in *;
      [exact Hf|].
    eapply handed_over_trans; [exact Hf|].
    eapply handed_over_trans; [|apply IH].
    apply handed_over_same; simpl; auto. apply agree_off_Add.
  - apply handed_over_same; simpl; auto. apply agree_off_refl.
Qed.

Lemma parse_loop_handed E fork_filter repo_data s :
  handed_over REMOTE_REPOS 1 s (parse_loop E fork_filter repo_data s).2.
Proof.
  revert s. induction repo_data as [|body rest IH]; intros s; simpl.
  - pose proof (handed_over_blocking_point E REMOTE_REPOS 1 s) as Hb.
    destruct (blocking_point E (sworld s)) as [[] w]; simpl in *.
    + eapply handed_over_trans; [exact Hb|].
      apply handed_over_same; auto. apply agree_off_refl.
    + eapply handed_over_trans; [exact Hb|].
      apply handed_over_same; auto. apply agree_off_refl.
  - pose proof (handed_over_blocking_point E REMOTE_REPOS 1 s) as Hb.
    destruct (blocking_point E (sworld s)) as [[] w]; simpl in *.
    { eapply handed_over_trans; [exact Hb|].
      apply handed_over_same; auto. apply agree_off_refl. }
    pose proof (handed_over_blocking_point E REMOTE_REPOS 1 (set_world s w))
      as Hb'.
    simpl in Hb'.
    destruct (blocking_point E w) as [[] w']; simpl in *.
    { eapply handed_over_trans; [exact Hb|].
      eapply handed_over_trans; [exact Hb'|].
      apply handed_over_same; auto. apply agree_off_refl. }
    eapply handed_over_trans; [exact Hb|].
    eapply handed_over_trans; [exact Hb'|].
    eapply handed_over_trans; [|apply IH].
    eapply handed_over_trans; [|apply decode_task_handed].
    apply handed_over_same; auto. apply agree_off_refl.
Qed.

Lemma clone_step_handed E working_dir size_filter repo s :
  handed_over LOCAL_REPOS 2 s (clone_step E working_dir size_filter repo s).2.
Proof.
  unfold clone_step.
  destruct ((0 <? size_filter) && (size_filter <? Size repo)); simpl.
  { apply handed_over_same; simpl; auto. apply agree_off_Add. }
  pose proof (handed_over_blocking_point E LOCAL_REPOS 2 s) as Hb.
  destruct (blocking_point E (sworld s)) as [[] w]; simpl in *.
  { eapply handed_over_trans; [exact Hb|].
    apply handed_over_same; auto. apply agree_off_refl. }
  eapply handed_over_trans; [exact Hb|].
  unfold clone_task. simpl.
  destruct (clone_run E repo) as [[]|]; simpl;
    try (apply handed_over_same; simpl; auto; apply agree_off_refl).
  match goal with
  | |- context [blocking_point E ?w0] =>
      pose proof (blocking_point_frame E w0) as Hf;
      destruct (blocking_point E w0) as [[] w']; simpl in *;
      destruct Hf as (_ & _ & Hc & Ht & _)
  end.
  - apply handed_over_same; simpl; auto. rewrite Hc. apply agree_off_refl.
  - eapply handed_over_push; simpl; eauto.
    + by rewrite Ht.
    + rewrite Hc. apply agree_off_Add.
Qed.

Lemma clone_loop_handed E working_dir size_filter repos s :
  handed_over LOCAL_REPOS 2 s (clone_loop E working_dir size_filter repos s).2.
Proof.
  revert s. induction repos as [|repo rest IH]; intros s; simpl.
  - pose proof (handed_over_blocking_point E LOCAL_REPOS 2 s) as Hb.
    destruct (blocking_point E (sworld s)) as [[] w]; simpl in *;
      (eapply handed_over_trans; [exact Hb|]);
      apply handed_over_same; auto; apply agree_off_refl.
  - pose proof (handed_over_blocking_point E LOCAL_REPOS 2 s) as Hb.
    destruct (blocking_point E (sworld s)) as [[] w]; simpl in *.
    { eapply handed_over_trans; [exact Hb|].
      apply handed_over_same; auto. apply agree_off_refl. }
    pose proof (clone_step_handed E working_dir size_filter repo
                  (set_world s w)) as Hs.
    destruct (clone_step E working_dir size_filter repo (set_world s w))
      as [[| |e] s']; simpl in *.
    + eapply handed_over_trans; [exact Hb|].
      eapply handed_over_trans; [exact Hs|]. apply IH.
    + eapply handed_over_trans; [exact Hb|]. exact Hs.
    + eapply handed_over_trans; [exact Hb|].
      eapply handed_over_trans; [exact Hs|]. apply IH.
Qed.

(** The same for the Extractor: its total counts the associations. *)
Definition identities_counted (x x' : extractor) : Prop :=
  ∃ new,
    context_emails x' = (context_emails x ++ new)%list ∧
    total_data (xworld x') =
      added GIT_IDENTITIES 1 (List.length new) (total_data (xworld x)) ∧
    agree_off GIT_OPS_LOG (completion_data (xworld x))
              (completion_data (xworld x')).

Lemma identities_counted_same x x' :
  context_emails x' = context_emails x →
  total_data (xworld x') = total_data (xworld x) →
  agree_off GIT_OPS_LOG (completion_data (xworld x))
            (completion_data (xworld x')) →
  identities_counted x x'.
Proof. intros Hq Ht Hc. exists []. rewrite app_nil_r. auto. Qed.

Lemma identities_counted_trans x1 x2 x3 :
  identities_counted x1 x2 → identities_counted x2 x3 →
  identities_counted x1 x3.
Proof.
  intros (n1 & Hq1 & Ht1 & Hc1) (n2 & Hq2 & Ht2 & Hc2).
  exists (n1 ++ n2)%list. split; [by rewrite Hq2, Hq1, app_assoc|]. split.
  - by rewrite Ht2, Ht1, added_plus, length_app.
  - by eapply agree_off_trans.
Qed.

Lemma identities_counted_blocking_point E x :
  identities_counted x (x_set_world x (blocking_point E (xworld x)).2).
Proof.
  pose proof (blocking_point_frame E (xworld x)) as Hf. simpl in Hf.
  destruct Hf as (_ & _ & Hc & Ht & _).
  apply identities_counted_same; simpl; auto. rewrite Hc. apply agree_off_refl.
Qed.

Lemma scan_lines_counted E p role ls x :
  identities_counted x (scan_lines E p role ls x).2.
Proof.
  revert x. induction ls as [|full_author ls IH]; intros x; simpl.
  { apply identities_counted_same; auto. apply agree_off_refl. }
  destruct (extract_email full_author) as [email|]; simpl;
    [|apply identities_counted_same; auto; apply agree_off_refl].
  pose proof (identities_counted_blocking_point E x) as Hb.
  destruct (blocking_point E (xworld x)) as [[] w]; simpl in *; [exact Hb|].
  eapply identities_counted_trans; [exact Hb|].
  pose proof (blocking_point_frame E w) as Hf. simpl in Hf.
  destruct (blocking_point E w) as [[] w']; simpl in *;
    destruct Hf as (_ & _ & Hc & Ht & _).
  - apply identities_counted_same; simpl; auto.
    rewrite Hc. apply agree_off_refl.
  - eapply identities_counted_trans; [|apply IH].
    exists [mkEmailContext p email role]. simpl.
    split; [reflexivity|]. split; [by rewrite Ht|].
    rewrite Hc. apply agree_off_refl.
Qed.

Lemma shortlog_task_counted E repo p role params x :
  identities_counted x (shortlog_task E repo p role params x).2.
Proof.
  unfold shortlog_task.
  destruct (shortlog_run E repo role) as [[]|output]; simpl;
    try (apply identities_counted_same; simpl; auto; apply agree_off_refl).
  set (x0 := x_on_world (run (GitShortlog params (local_path repo))) x).
  pose proof (scan_lines_counted E p role (lines output) x0) as Hs.
  assert (identities_counted x x0) as H0.
  { apply identities_counted_same; simpl; auto. apply agree_off_refl. }
  destruct (scan_lines E p role (lines output) x0) as [[] x1]; simpl in *;
    try (eapply identities_counted_trans; [exact H0|exact Hs]).
  destruct (scan_err output); simpl;
    (eapply identities_counted_trans; [exact H0|]);
    (eapply identities_counted_trans; [exact Hs|]);
    apply identities_counted_same; simpl; auto;
    [apply agree_off_refl|apply agree_off_Add].
Qed.

Lemma shortlog_roles_tail_counted E repo p role params roles x w :
  (∀ x1, identities_counted x1 (shortlog_roles E repo p roles x1).2) →
  identities_counted x (x_set_world x w) →
  identities_counted x
    (match shortlog_task E repo p role params
                         (x_set_world x (add_active GIT_OPS_LOG 1 w)) with
     | (Task_panicked, x) => (Some Stage_panicked, x)
     | (_, x) => shortlog_roles E repo p roles x
     end).2.
Proof.
  intros IH Hw.
  set (x0 := x_set_world x (add_active GIT_OPS_LOG 1 w)).
  assert (identities_counted x x0) as H0.
  { eapply identities_counted_trans; [exact Hw|].
    apply identities_counted_same; auto. apply agree_off_refl. }
  pose proof (shortlog_task_counted E repo p role params x0) as Ht.
  destruct (shortlog_task E repo p role params x0) as [[] x1]; simpl in *;
    try (eapply identities_counted_trans; [exact H0|];
         eapply identities_counted_trans; [exact Ht|]; apply IH).
  eapply identities_counted_trans; [exact H0|exact Ht].
Qed.

Lemma shortlog_roles_counted E repo p roles x :
  identities_counted x (shortlog_roles E repo p roles x).2.
Proof.
  revert x. induction roles as [|[role params] roles IH]; intros x; simpl.
  { apply identities_counted_same; auto. apply agree_off_refl. }
  destruct (local_slot_free E (tick (xworld x))).
  - apply shortlog_roles_tail_counted; [exact IH|].
    apply identities_counted_same; auto. apply agree_off_refl.
  - pose proof (identities_counted_blocking_point E x) as Hb.
    destruct (blocking_point E (xworld x)) as [[] w]; simpl in Hb.
    + eapply identities_counted_trans; [exact Hb|].
      apply identities_counted_same; auto. apply agree_off_refl.
    + by apply shortlog_roles_tail_counted.
Qed.

Lemma shortlog_loop_counted E local_repos x :
  identities_counted x (shortlog_loop E local_repos x).2.
Proof.
  revert x. induction local_repos as [|repo rest IH]; intros x; simpl.
  - pose proof (identities_counted_blocking_point E x) as Hb.
    destruct (blocking_point E (xworld x)) as [[] w]; simpl in *;
      (eapply identities_counted_trans; [exact Hb|]);
      apply identities_counted_same; auto; apply agree_off_refl.
  - pose proof (identities_counted_blocking_point E x) as Hb.
    destruct (blocking_point E (xworld x)) as [[] w]; simpl in *.
    { eapply identities_counted_trans; [exact Hb|].
      apply identities_counted_same; auto. apply agree_off_refl. }
    set (x0 := x_alloc repo (x_set_world x w)).
    assert (identities_counted x x0) as H0.
    { eapply identities_counted_trans; [exact Hb|].
      apply identities_counted_same; auto. apply agree_off_refl. }
    pose proof (shortlog_roles_counted E repo (List.length (store x))
                  (range_params E repo) x0) as Hr.
    destruct (shortlog_roles E repo (List.length (store x))
                (range_params E repo) x0) as [[e|] x1]; simpl in *.
    + eapply identities_counted_trans; [exact H0|exact Hr].
    + eapply identities_counted_trans; [exact H0|].
      eapply identities_counted_trans; [exact Hr|]. apply IH.
Qed.

(** The two aggregation stages count every item they consume. *)
Lemma dedup_loop_counters emails m w :
  completion_data (dedup_loop emails m w).2 =
    added EMAILS_DEDUP 1 (List.length emails) (completion_data w) ∧
  total_data (dedup_loop emails m w).2 = total_data w.
Proof.
  revert m w. induction emails as [|e emails IH]; intros m w; simpl.
  - split; reflexivity.
  - destruct (IH (dedup_step m e) (add_completion EMAILS_DEDUP 1 w))
      as [H1 H2].
    split; [|exact H2]. rewrite H1. simpl. apply added_more.
Qed.

Lemma group_loop_counters contexts m w :
  completion_data (group_loop contexts m w).2 =
    added EMAILS_GROUPED 1 (List.length contexts) (completion_data w) ∧
  total_data (group_loop contexts m w).2 = total_data w.
Proof.
  revert m w. induction contexts as [|c contexts IH]; intros m w; simpl.
  - split; reflexivity.
  - destruct (IH (group_step m c) (add_completion EMAILS_GROUPED 1 w))
      as [H1 H2].
    split; [|exact H2]. rewrite H1. simpl. apply added_more.
Qed.

Lemma emails_dedup_counters emails w :
  completion_data (emails_dedup emails w).2 =
    added EMAILS_DEDUP 1 (List.length emails) (completion_data w) ∧
  total_data (emails_dedup emails w).2 = total_data w.
Proof.
  unfold emails_dedup.
  pose proof (dedup_loop_counters emails ∅ w) as H.
  destruct (dedup_loop emails ∅ w) as [m w']. exact H.
Qed.

Lemma emails_by_repo_counters contexts w :
  completion_data (emails_by_repo contexts w).2 =
    added EMAILS_GROUPED 1 (List.length contexts) (completion_data w) ∧
  total_data (emails_by_repo contexts w).2 = total_data w.
Proof.
  unfold emails_by_repo.
  pose proof (group_loop_counters contexts ∅ w) as H.
  destruct (group_loop contexts ∅ w) as [m w']. exact H.
Qed.

(** [X6] At the end of every run, cancelled or not, the totals of the
    progress table count what the stages handed over (modulo [2^32]): the
    total of remote repositories is the number of records the Decoder put on
    its queue, the total of local repositories is twice the number of
    records the Cloner forwarded (two shortlog tasks each), the total of
    identities is the number of associations the Extractor emitted, which
    is also the Grouper's completed count, and the Deduplicator's completed
    count is the number of raw emails emitted. *)
Theorem progress_totals_count_handovers
        E pages attempts url ForkFilter working_dir SizeFilter :
  let h := main E pages attempts url ForkFilter working_dir SizeFilter in
  let w := final_world h in
  LoadUint32 (total_data w) REMOTE_REPOS =
    Z.of_nat (List.length (queue (parsed h).2)) mod 2 ^ 32 ∧
  LoadUint32 (total_data w) LOCAL_REPOS =
    (2 * Z.of_nat (List.length (queue (cloned h).2))) mod 2 ^ 32 ∧
  LoadUint32 (total_data w) GIT_IDENTITIES =
    Z.of_nat (List.length (context_emails (extracted h).2)) mod 2 ^ 32 ∧
  LoadUint32 (completion_data w) EMAILS_DEDUP =
    Z.of_nat (List.length (emails (extracted h).2)) mod 2 ^ 32 ∧
  LoadUint32 (completion_data w) EMAILS_GROUPED =
    LoadUint32 (total_data w) GIT_IDENTITIES.
Proof.
  intros h w. subst w h. unfold main.
  set (sf := if SizeFilter <=? 0 then 0 else SizeFilter).
  set (r1 := get_repos_from_github E pages attempts url initial_world).
  set (r2 := parse_github_response E (bodies r1.2) ForkFilter (fworld r1.2)).
  set (r3 := git_ops_clone E (queue r2.2) working_dir sf (sworld r2.2)).
  set (r4 := git_ops_shortlog E (queue r3.2) (sworld r3.2)).
  pose proof (fetcher_frame E pages attempts url initial_world) as F1.
  fold r1 in F1.
  pose proof (parse_loop_handed E ForkFilter (bodies r1.2)
                (mkStage [] false (fworld r1.2))) as H2.
  fold (parse_github_response E (bodies r1.2) ForkFilter (fworld r1.2)) in H2.
  fold r2 in H2.
  pose proof (clone_loop_handed E working_dir sf (queue r2.2)
                (mkStage [] false (sworld r2.2))) as H3.
  fold (git_ops_clone E (queue r2.2) working_dir sf (sworld r2.2)) in H3.
  fold r3 in H3.
  pose proof (shortlog_loop_counted E (queue r3.2)
                (mkExtractor [] [] false [] (sworld r3.2))) as H4.
  fold (git_ops_shortlog E (queue r3.2) (sworld r3.2)) in H4. fold r4 in H4.
  pose proof (emails_dedup_counters (emails r4.2) (xworld r4.2)) as [D5 T5].
  destruct (emails_dedup (emails r4.2) (xworld r4.2)) as [deduped w5].
  pose proof (emails_by_repo_counters (context_emails r4.2) w5) as [D6 T6].
  destruct (emails_by_repo (context_emails r4.2) w5) as [grouped w6].
  cbn [final_world parsed cloned extracted fst snd] in *.
  change (total_data (cancel w6)) with (total_data w6).
  change (completion_data (cancel w6)) with (completion_data w6).
  rewrite T6, T5, D6, D5.
  destruct F1 as [[L1 F1t] [L1c F1c]].
  destruct H2 as (n2 & Q2 & T2 & [L2c F2c]).
  destruct H3 as (n3 & Q3 & T3 & [L3c F3c]).
  destruct H4 as (n4 & Q4 & T4 & [L4c F4c]).
  cbn [queue sworld xworld context_emails app] in *.
  rewrite Q2, Q3, Q4.
  pose proof (added_agree_off REMOTE_REPOS 1 (List.length n2)
                (total_data (fworld r1.2))) as [L2 F2t].
  pose proof (added_agree_off LOCAL_REPOS 2 (List.length n3)
                (total_data (sworld r2.2))) as [L3 F3t].
  pose proof (added_agree_off GIT_IDENTITIES 1 (List.length n4)
                (total_data (sworld r3.2))) as [L4 F4t].
  rewrite <- T2 in L2, F2t. rewrite <- T3 in L3, F3t.
  rewrite <- T4 in L4, F4t.
  assert (∀ j, (j < 4)%nat → j ≠ 0%nat →
               LoadUint32 (total_data (fworld r1.2)) j = 0) as Z1.
  { intros j Hj Hne. unfold LoadUint32. rewrite F1t by exact Hne.
    simpl. destruct j as [|[|[|[|j]]]]; try reflexivity; lia. }
  assert (LoadUint32 (total_data (sworld r2.2)) LOCAL_REPOS = 0) as Z2.
  { unfold LoadUint32. rewrite F2t by discriminate.
    apply (Z1 LOCAL_REPOS); [unfold LOCAL_REPOS; lia|discriminate]. }
  assert (LoadUint32 (total_data (sworld r3.2)) GIT_IDENTITIES = 0) as Z3.
  { unfold LoadUint32. rewrite F3t, F2t by discriminate.
    apply (Z1 GIT_IDENTITIES); [unfold GIT_IDENTITIES; lia|discriminate]. }
  assert (∀ j, (4 ≤ j)%nat → (j < 6)%nat →
               LoadUint32 (completion_data (xworld r4.2)) j = 0) as Z4.
  { intros j Hj Hj'. unfold LoadUint32.
    rewrite F4c, F3c, F2c, F1c
      by (unfold GIT_OPS_LOG, LOCAL_REPOS, REMOTE_REPOS, GITHUB_FETCH; lia).
    simpl. destruct j as [|[|[|[|[|[|j]]]]]]; try reflexivity; lia. }
  assert (List.length (completion_data (xworld r4.2)) = 6%nat) as L4c'.
  { rewrite L4c, L3c, L2c, L1c. reflexivity. }
  assert (List.length (total_data (fworld r1.2)) = 4%nat) as L1'.
  { rewrite L1. reflexivity. }
  split; [|split; [|split; [|split]]].
  - unfold LoadUint32. rewrite F4t, F3t by discriminate.
    fold (LoadUint32 (total_data (sworld r2.2)) REMOTE_REPOS).
    rewrite T2, LoadUint32_added.
    + rewrite (Z1 REMOTE_REPOS) by (unfold REMOTE_REPOS; first [lia|discriminate]). f_equal. lia.
    + rewrite L1'. unfold REMOTE_REPOS. lia.
    + rewrite (Z1 REMOTE_REPOS) by (unfold REMOTE_REPOS; first [lia|discriminate]). lia.
  - unfold LoadUint32. rewrite F4t by discriminate.
    fold (LoadUint32 (total_data (sworld r3.2)) LOCAL_REPOS).
    rewrite T3, LoadUint32_added.
    + rewrite Z2. f_equal.
    + rewrite L2, L1'. unfold LOCAL_REPOS. lia.
    + rewrite Z2. lia.
  - rewrite T4, LoadUint32_added.
    + rewrite Z3. f_equal. lia.
    + rewrite L3, L2, L1'. unfold GIT_IDENTITIES. lia.
    + rewrite Z3. lia.
  - rewrite (agree_off_Load EMAILS_GROUPED EMAILS_DEDUP _ _
               (added_agree_off EMAILS_GROUPED 1 _ _)) by discriminate.
    rewrite LoadUint32_added.
    + rewrite (Z4 EMAILS_DEDUP) by (unfold EMAILS_DEDUP; lia). f_equal. lia.
    + rewrite L4c'. unfold EMAILS_DEDUP. lia.
    + rewrite (Z4 EMAILS_DEDUP) by (unfold EMAILS_DEDUP; lia). lia.
  - rewrite T4, !LoadUint32_added.
    + rewrite Z3.
      rewrite (agree_off_Load EMAILS_DEDUP EMAILS_GROUPED _ _
                 (added_agree_off EMAILS_DEDUP 1 _ _)) by discriminate.
      rewrite (Z4 EMAILS_GROUPED) by (unfold EMAILS_GROUPED; lia). reflexivity.
    + rewrite L3, L2, L1'. unfold GIT_IDENTITIES. lia.
    + rewrite Z3. lia.
    + rewrite added_length, L4c'. unfold EMAILS_GROUPED. lia.
    + rewrite (agree_off_Load EMAILS_DEDUP EMAILS_GROUPED _ _
                 (added_agree_off EMAILS_DEDUP 1 _ _)) by discriminate.
      rewrite (Z4 EMAILS_GROUPED) by (unfold EMAILS_GROUPED; lia). lia.
Qed.

(** ** The Cloner's output *)

Transparent blocking_point.
Lemma blocking_point_quiet_eq E w :
  never_interrupted E → cancelled w = false →
  blocking_point E w = (false, next_tick w).
Proof.
  intros Hq Hc. unfold blocking_point. rewrite Hq. simpl. by rewrite Hc.
Qed.
Opaque blocking_point.

(** [size_filter > 0 && repo.Size > size_filter] *)
Definition oversized (size_filter : Z) (repo : Repo) : bool :=
  (0 <? size_filter) && (size_filter <? Size repo).

Definition clone_succeeds (E : environment) (repo : Repo) : bool :=
  match clone_run E repo with
  | None => true
  | Some _ => false
  end.

(** The records the Cloner attempts, forwards and fails on. *)
Definition attempted (size_filter : Z) (repos : list Repo) : list Repo :=
  List.filter (λ r, negb (oversized size_filter r)) repos.
Definition cloned_of (E : environment) (size_filter : Z) (repos : list Repo)
  : list Repo :=
  List.filter (clone_succeeds E) (attempted size_filter repos).
Definition failed_of (E : environment) (size_filter : Z) (repos : list Repo)
  : list Repo :=
  List.filter (λ r, negb (clone_succeeds E r)) (attempted size_filter repos).
Definition skipped_of (size_filter : Z) (repos : list Repo) : list Repo :=
  List.filter (oversized size_filter) repos.

Lemma clone_loop_exact E working_dir size_filter repos s :
  never_interrupted E → cancelled (sworld s) = false →
  let r := clone_loop E working_dir size_filter repos s in
  r.1 = Stage_completed ∧
  queue r.2 =
    (queue s ++
     map (λ repo, set_local_path repo (path_join E working_dir (Name repo)))
         (cloned_of E size_filter repos))%list ∧
  commands (sworld r.2) =
    (commands (sworld s) ++
     map (λ repo, GitClone (Clone_url repo) working_dir)
         (attempted size_filter repos))%list ∧
  error_data (sworld r.2) =
    added GIT_OPS_CLONE 1 (List.length (failed_of E size_filter repos))
          (error_data (sworld s)) ∧
  completion_data (sworld r.2) =
    added GIT_OPS_CLONE 1
          (List.length (skipped_of size_filter repos) +
           List.length (cloned_of E size_filter repos))
          (completion_data (sworld s)).
Proof.
  intros Hq. revert s.
  induction repos as [|repo rest IH]; intros s Hc; simpl clone_loop.
  - rewrite blocking_point_quiet_eq by auto. simpl.
    rewrite !app_nil_r. repeat split.
  - rewrite blocking_point_quiet_eq by auto. unfold clone_step.
    unfold cloned_of, failed_of, skipped_of, attempted in *.
    simpl List.filter. fold (oversized size_filter repo).
    destruct (oversized size_filter repo) eqn:Hover; simpl negb; cbv iota.
    + match goal with
      | |- context [clone_loop _ _ _ _ ?s1] =>
          destruct (IH s1) as (H1 & H2 & H3 & H4 & H5); [exact Hc|]
      end.
      simpl in *. split; [exact H1|]. split; [exact H2|]. split; [exact H3|].
      split; [exact H4|]. rewrite H5. apply added_more.
    + rewrite blocking_point_quiet_eq by (simpl; auto).
      unfold clone_task.
      cbn [sworld on_world set_world queue closed].
      assert (clone_succeeds E repo =
              match clone_run E repo with None => true | Some _ => false end)
        as Hs by reflexivity.
      destruct (clone_run E repo) as [[]|] eqn:Hrun; simpl List.filter;
        rewrite Hs; simpl negb; cbv iota.
      1-3: match goal with
           | |- context [clone_loop _ _ _ _ ?s1] =>
               destruct (IH s1) as (H1 & H2 & H3 & H4 & H5); [exact Hc|]
           end;
           simpl in *; split; [exact H1|]; split; [exact H2|];
           split; [by rewrite H3, <- app_assoc|];
           split; [rewrite H4; apply added_more|exact H5].
      rewrite blocking_point_quiet_eq by (simpl; auto).
      match goal with
      | |- context [clone_loop _ _ _ _ ?s1] =>
          destruct (IH s1) as (H1 & H2 & H3 & H4 & H5); [exact Hc|]
      end.
      simpl in *. split; [exact H1|].
      split; [by rewrite H2, <- app_assoc|].
      split; [by rewrite H3, <- app_assoc|].
      split; [exact H4|].
      rewrite H5. rewrite added_more. f_equal. lia.
Qed.

(** [X7] In a run that is not cancelled the Cloner runs exactly one clone
    subprocess for each record that is not over the size threshold,
    without retrying, and forwards exactly the records whose clone
    succeeded, each with its local path set to the join of the working
    directory and the repository name; the order of the subprocesses and
    of the forwarded records is left open.  Every failed clone adds one to
    the stage's error counter and every skipped or successfully cloned
    record adds one to its completed counter.  The outcome of a clone is
    taken to depend on the record alone. *)
Theorem cloner_output_is_cloned_records E repos working_dir size_filter w :
  never_interrupted E → cancelled w = false →
  let r := git_ops_clone E repos working_dir size_filter w in
  r.1 = Stage_completed ∧
  queue r.2 ≡ₚ
    map (λ repo, set_local_path repo (path_join E working_dir (Name repo)))
        (cloned_of E size_filter repos) ∧
  commands (sworld r.2) ≡ₚ
    (commands w ++
     map (λ repo, GitClone (Clone_url repo) working_dir)
         (attempted size_filter repos))%list ∧
  error_data (sworld r.2) =
    added GIT_OPS_CLONE 1 (List.length (failed_of E size_filter repos))
          (error_data w) ∧
  completion_data (sworld r.2) =
    added GIT_OPS_CLONE 1
          (List.length (skipped_of size_filter repos) +
           List.length (cloned_of E size_filter repos))
          (completion_data w).
Proof.
  intros Hq Hc r. subst r. unfold git_ops_clone.
  pose proof (clone_loop_exact E working_dir size_filter repos
                (mkStage [] false w) Hq Hc) as H.
  cbv zeta in H. destruct H as (H1 & H2 & H3 & H4 & H5).
  simpl in H2, H3, H4, H5.
  split; [exact H1|]. split; [by rewrite H2|]. split; [by rewrite H3|].
  split; [exact H4|exact H5].
Qed.

(** The clone of the repository named ["source"] fails. *)
Definition failing_clone_env : environment :=
  mkEnv (λ _, true) (λ _ _, None)
        (λ repo, if String.eqb (Name repo) "source" then Some ExitFailure
                 else None)
        (λ _ _, inr (mkShortlogOutput [] false))
        (λ d n, d +:+ "/" +:+ n)
        (λ _, false) (λ _, false) (λ _, true) (λ _, false).

Lemma cloner_output_is_cloned_records_witness :
  let r := git_ops_clone failing_clone_env [a_source; big_repo; a_fork]
                         "/w" 1000000 initial_world in
  queue r.2 ≡ₚ [set_local_path a_fork "/w/forked"] ∧
  commands (sworld r.2) ≡ₚ
    [GitClone "https://github.com/o/source.git" "/w";
     GitClone "https://github.com/o/forked.git" "/w"].
Proof.
  intros r.
  destruct (cloner_output_is_cloned_records failing_clone_env
              [a_source; big_repo; a_fork] "/w" 1000000 initial_world
              (λ n, eq_refl) eq_refl) as (_ & H1 & H2 & _).
  split; [exact H1|exact H2].
Defined.

(** ** The Extractor's output *)

(** The email the slice yields on a line it is in bounds for. *)
Definition email_of (full_author : string) : string :=
  match extract_email full_author with
  | Returns email => email
  | Panics => ""
  end.

(** What one shortlog task emits: nothing when the subprocess fails, one
    association per output line otherwise. *)
Definition task_contexts (E : environment) (repo : Repo) (p : ptr) (role : Z)
  : list EmailContext :=
  match shortlog_run E repo role with
  | inl _ => []
  | inr output => (λ l, mkEmailContext p (email_of l) role) <$> lines output
  end.

Definition repo_contexts (E : environment) (repo : Repo) (p : ptr)
  : list EmailContext :=
  List.concat ((λ rp : Z * list string, task_contexts E repo p rp.1)
               <$> range_params E repo).

Definition repo_commands (E : environment) (repo : Repo) : list command :=
  (λ rp : Z * list string, GitShortlog rp.2 (local_path repo))
  <$> range_params E repo.

(** Received records get consecutive addresses, starting with [p]. *)
Fixpoint expected_contexts (E : environment) (p : ptr) (repos : list Repo)
  : list EmailContext :=
  match repos with
  | [] => []
  | repo :: rest => repo_contexts E repo p ++ expected_contexts E (S p) rest
  end.

(** The slice is in bounds on every line of every shortlog output. *)
Definition lines_extractable (E : environment) : Prop :=
  ∀ repo role output,
    shortlog_run E repo role = inr output →
    Forall (λ l, extract_email l ≠ Panics) (lines output).

Lemma scan_lines_exact E p role ls x :
  never_interrupted E → cancelled (xworld x) = false →
  Forall (λ l, extract_email l ≠ Panics) ls →
  let r := scan_lines E p role ls x in
  r.1 = Task_done ∧
  context_emails r.2 =
    (context_emails x ++ ((λ l, mkEmailContext p (email_of l) role) <$> ls))%list ∧
  emails r.2 = (emails x ++ (email_of <$> ls))%list ∧
  store r.2 = store x ∧ queues_closed r.2 = queues_closed x ∧
  commands (xworld r.2) = commands (xworld x) ∧
  cancelled (xworld r.2) = false.
Proof.
  intros Hq. revert x.
  induction ls as [|l ls IH]; intros x Hc Hall; simpl.
  - rewrite !app_nil_r. repeat split; auto.
  - apply Forall_cons in Hall as [Hl Hall].
    unfold email_of at 1 3.
    destruct (extract_email l) as [email|] eqn:He; [|congruence].
    rewrite blocking_point_quiet_eq by auto.
    cbn [xworld x_push_email x_set_world].
    rewrite blocking_point_quiet_eq by (simpl; auto).
    match goal with
    | |- context [scan_lines _ _ _ _ ?x1] =>
        destruct (IH x1) as (H1 & H2 & H3 & H4 & H5 & H6 & H7);
          [exact Hc|exact Hall|]
    end.
    split; [exact H1|]. rewrite H2, H3, H4, H5, H6. simpl.
    rewrite <- !app_assoc. repeat split; auto.
Qed.

Lemma shortlog_task_exact E repo p role params x :
  never_interrupted E → cancelled (xworld x) = false →
  lines_extractable E →
  let r := shortlog_task E repo p role params x in
  r.1 ≠ Task_panicked ∧ r.1 ≠ Task_cancelled ∧
  context_emails r.2 = (context_emails x ++ task_contexts E repo p role)%list ∧
  emails r.2 =
    (emails x ++ (EmailAddress <$> task_contexts E repo p role))%list ∧
  store r.2 = store x ∧ queues_closed r.2 = queues_closed x ∧
  commands (xworld r.2) =
    (commands (xworld x) ++ [GitShortlog params (local_path repo)])%list ∧
  cancelled (xworld r.2) = false.
Proof.
  intros Hq Hc Hlines. unfold shortlog_task, task_contexts.
  destruct (shortlog_run E repo role) as [[]|output] eqn:Hrun; simpl;
    rewrite ?app_nil_r; try (repeat split; auto; discriminate).
  set (x0 := x_on_world (run (GitShortlog params (local_path repo))) x).
  pose proof (scan_lines_exact E p role (lines output) x0 Hq Hc
                (Hlines _ _ _ Hrun)) as Hs.
  cbv zeta in Hs. destruct Hs as (H1 & H2 & H3 & H4 & H5 & H6 & H7).
  destruct (scan_lines E p role (lines output) x0) as [e x1].
  simpl in H1. subst e. simpl in *.
  assert (EmailAddress <$>
            ((λ l, mkEmailContext p (email_of l) role) <$> lines output)
          = email_of <$> lines output) as Hmap.
  { rewrite <- list_fmap_compose. reflexivity. }
  destruct (scan_err output); simpl; rewrite Hmap;
    repeat split; auto; discriminate.
Qed.

Lemma shortlog_roles_exact E repo p roles x :
  never_interrupted E → cancelled (xworld x) = false →
  lines_extractable E →
  let r := shortlog_roles E repo p roles x in
  r.1 = None ∧
  context_emails r.2 =
    (context_emails x ++
     List.concat ((λ rp : Z * list string, task_contexts E repo p rp.1)
                  <$> roles))%list ∧
  emails r.2 =
    (emails x ++
     (EmailAddress <$>
      List.concat ((λ rp : Z * list string, task_contexts E repo p rp.1)
                   <$> roles)))%list ∧
  store r.2 = store x ∧ queues_closed r.2 = queues_closed x ∧
  commands (xworld r.2) =
    (commands (xworld x) ++
     ((λ rp : Z * list string, GitShortlog rp.2 (local_path repo)) <$> roles))%list ∧
  cancelled (xworld r.2) = false.
Proof.
  intros Hq. revert x.
  induction roles as [|[role params] roles IH]; intros x Hc Hlines; simpl.
  { rewrite !app_nil_r. repeat split; auto. }
  assert (∃ w, (if local_slot_free E (tick (xworld x))
                then (false, xworld x) else blocking_point E (xworld x))
               = (false, w) ∧
               cancelled w = false ∧ commands w = commands (xworld x))
    as (w & -> & Hcw & Hcmd).
  { destruct (local_slot_free E (tick (xworld x))).
    - exists (xworld x). auto.
    - rewrite blocking_point_quiet_eq by auto.
      exists (next_tick (xworld x)). auto. }
  set (x0 := x_set_world x (add_active GIT_OPS_LOG 1 w)).
  pose proof (shortlog_task_exact E repo p role params x0 Hq Hcw Hlines) as Ht.
  cbv zeta in Ht. destruct Ht as (T1 & T2 & T3 & T4 & T5 & T6 & T7 & T8).
  destruct (shortlog_task E repo p role params x0) as [e x1].
  simpl in T1, T2, T3, T4, T5, T6, T7, T8.
  destruct (IH x1 T8 Hlines) as (H1 & H2 & H3 & H4 & H5 & H6 & H7).
  assert ((match e with
           | Task_panicked => (Some Stage_panicked, x1)
           | _ => shortlog_roles E repo p roles x1
           end) = shortlog_roles E repo p roles x1) as ->.
  { destruct e; try reflexivity. congruence. }
  split; [exact H1|]. rewrite H2, H3, H4, H5, H6, T3, T4, T5, T6, T7.
  simpl. rewrite Hcmd, fmap_app, <- !app_assoc. repeat split; auto.
Qed.

Lemma shortlog_loop_exact E local_repos x :
  never_interrupted E → cancelled (xworld x) = false →
  lines_extractable E →
  let r := shortlog_loop E local_repos x in
  r.1 = Stage_completed ∧
  context_emails r.2 =
    (context_emails x ++
     expected_contexts E (List.length (store x)) local_repos)%list ∧
  emails r.2 =
    (emails x ++
     (EmailAddress <$>
      expected_contexts E (List.length (store x)) local_repos))%list ∧
  store r.2 = (store x ++ local_repos)%list ∧
  queues_closed r.2 = true ∧
  commands (xworld r.2) =
    (commands (xworld x) ++ List.concat (repo_commands E <$> local_repos))%list.
Proof.
  intros Hq. revert x.
  induction local_repos as [|repo rest IH]; intros x Hc Hlines;
    simpl shortlog_loop.
  - rewrite blocking_point_quiet_eq by auto. simpl.
    rewrite !app_nil_r. repeat split; auto.
  - rewrite blocking_point_quiet_eq by auto.
    set (x0 := x_alloc repo (x_set_world x (next_tick (xworld x)))).
    pose proof (shortlog_roles_exact E repo (List.length (store x))
                  (range_params E repo) x0 Hq Hc Hlines) as Hr.
    cbv zeta in Hr. destruct Hr as (R1 & R2 & R3 & R4 & R5 & R6 & R7).
    destruct (shortlog_roles E repo (List.length (store x))
                (range_params E repo) x0) as [e x1].
    simpl in R1, R2, R3, R4, R5, R6, R7. subst e.
    destruct (IH x1 R7 Hlines) as (H1 & H2 & H3 & H4 & H5 & H6).
    split; [exact H1|]. rewrite H2, H3, H4, H6, R2, R3, R4, R6.
    simpl. rewrite length_app. simpl.
    replace (List.length (store x) + 1)%nat with (S (List.length (store x)))
      by lia.
    unfold repo_contexts, repo_commands.
    rewrite fmap_app, <- !app_assoc. repeat split; auto.
Qed.

Definition author_params : list string :=
  ["--no-pager"; "shortlog"; "--all"; "-n"; "-e"; "-s"].
Definition committer_params : list string :=
  ["--no-pager"; "shortlog"; "--all"; "-n"; "-e"; "-s"; "-c"].

Lemma range_params_both E repo :
  range_params E repo ≡ₚ
  [(ROLE_AUTHOR, author_params); (ROLE_COMMITTER, committer_params)].
Proof.
  unfold range_params.
  assert (map_to_list params_containers =
          [(ROLE_COMMITTER, committer_params); (ROLE_AUTHOR, author_params)])
    as -> by (vm_compute; reflexivity).
  destruct (range_reversed E repo).
  - reflexivity.
  - apply perm_swap.
Qed.

(** [X8] In a run that is not cancelled, and when the slice is in bounds on
    every output line, the Extractor stores the records in the order its
    driver receives them, runs for each of them the author query and the
    committer query in its local path, and emits for every line of every
    successful query one raw email and one association that carries the
    same email, the address of the record and the role of the query; the
    order of the subprocesses and of the emitted items is left open.  A
    query that fails emits nothing and stops neither the other query of the
    record nor the other records. *)
Theorem extractor_output_is_shortlog_lines E local_repos w :
  never_interrupted E → cancelled w = false → lines_extractable E →
  let r := git_ops_shortlog E local_repos w in
  r.1 = Stage_completed ∧
  store r.2 = local_repos ∧
  context_emails r.2 ≡ₚ expected_contexts E 0 local_repos ∧
  emails r.2 ≡ₚ EmailAddress <$> context_emails r.2 ∧
  commands (xworld r.2) ≡ₚ
    (commands w ++ List.concat (repo_commands E <$> local_repos))%list ∧
  (∀ repo, repo_commands E repo ≡ₚ
           [GitShortlog author_params (local_path repo);
            GitShortlog committer_params (local_path repo)]) ∧
  queues_closed r.2 = true.
Proof.
  intros Hq Hc Hlines r. subst r. unfold git_ops_shortlog.
  pose proof (shortlog_loop_exact E local_repos (mkExtractor [] [] false [] w)
                Hq Hc Hlines) as H.
  cbv zeta in H. destruct H as (H1 & H2 & H3 & H4 & H5 & H6).
  simpl in H2, H3, H4, H6.
  split; [exact H1|]. split; [exact H4|]. split; [by rewrite H2|].
  split; [by rewrite H3, H2|]. split; [by rewrite H6|]. split; [|exact H5].
  intros repo. unfold repo_commands. by rewrite range_params_both.
Qed.

(** The committer query of every repository fails; the author query lists
    two identities. *)
Definition author_only_env : environment :=
  mkEnv (λ _, true) (λ _ _, None) (λ _, None)
        (λ _ role,
           if role =? ROLE_AUTHOR
           then inr (mkShortlogOutput ["     3	Al <al@x.org>";
                                       "     1	Bo <bo@y.org>"] false)
           else inl ExitFailure)
        (λ d n, d +:+ "/" +:+ n)
        (λ _, false) (λ _, false) (λ _, true) (λ _, false).

Lemma author_only_env_extractable : lines_extractable author_only_env.
Proof.
  intros repo role output. simpl.
  destruct (role =? ROLE_AUTHOR); [|discriminate].
  intros H. inversion H. simpl.
  repeat constructor; vm_compute; discriminate.
Qed.

Lemma extractor_output_is_shortlog_lines_witness :
  let r := git_ops_shortlog author_only_env
             [set_local_path a_source "/w/source"] initial_world in
  context_emails r.2 ≡ₚ
    [mkEmailContext 0%nat "al@x.org" ROLE_AUTHOR;
     mkEmailContext 0%nat "bo@y.org" ROLE_AUTHOR] ∧
  emails r.2 ≡ₚ ["al@x.org"; "bo@y.org"].
Proof.
  intros r.
  destruct (extractor_output_is_shortlog_lines author_only_env
              [set_local_path a_source "/w/source"] initial_world
              (λ n, eq_refl) eq_refl author_only_env_extractable)
    as (_ & _ & H1 & H2 & _).
  split; [exact H1|].
  etransitivity; [exact H2|]. fold r. etransitivity.
  - apply fmap_Permutation. exact H1.
  - reflexivity.
Defined.

(** ** The two artifacts agree *)

Lemma grouped_is_Some contexts w key :
  is_Some ((emails_by_repo contexts w).1 !! key) ↔
  ∃ c, c ∈ contexts ∧ key_of c = key.
Proof.
  rewrite grouped_lookup. unfold roles_received. split.
  - intros [v Hv].
    destruct (filter (λ c, key_of c = key) contexts) as [|c l] eqn:Hf;
      [discriminate Hv|].
    assert (c ∈ filter (λ c, key_of c = key) contexts) as Hin
        by (rewrite Hf; apply list_elem_of_here).
    apply list_elem_of_filter in Hin as [Hk Hin]. by exists c.
  - intros (c & Hin & Hk).
    assert (c ∈ filter (λ c, key_of c = key) contexts) as Hf
        by (by apply list_elem_of_filter).
    destruct (filter (λ c, key_of c = key) contexts) as [|c' l];
      [by apply not_elem_of_nil in Hf|].
    simpl. by eexists.
Qed.

Lemma extractor_emails_match E local_repos w :
  never_interrupted E → cancelled w = false → lines_extractable E →
  emails (git_ops_shortlog E local_repos w).2 =
  EmailAddress <$> context_emails (git_ops_shortlog E local_repos w).2.
Proof.
  intros Hq Hc Hlines. unfold git_ops_shortlog.
  pose proof (shortlog_loop_exact E local_repos (mkExtractor [] [] false [] w)
                Hq Hc Hlines) as H.
  cbv zeta in H. destruct H as (_ & H2 & H3 & _).
  simpl in H2, H3. by rewrite H3, H2.
Qed.

(** [X9] In a run that is not cancelled and in which the slice is in bounds
    on every line, the flat list and the structured report are built from
    the same emails: an email is a key of the deduplicated map exactly when
    the grouped map has an entry for it with some repository. *)
Theorem flat_list_and_report_have_the_same_emails E local_repos w w5 w6 :
  never_interrupted E → cancelled w = false → lines_extractable E →
  let x := (git_ops_shortlog E local_repos w).2 in
  ∀ email,
    is_Some ((emails_dedup (emails x) w5).1 !! email) ↔
    ∃ p, is_Some ((emails_by_repo (context_emails x) w6).1 !! mkKey email p).
Proof.
  intros Hq Hc Hlines x email. subst x.
  rewrite deduped_lookup, (extractor_emails_match E local_repos w Hq Hc Hlines).
  split.
  - intros Hs.
    destruct (decide (email ∈ EmailAddress <$>
                context_emails (git_ops_shortlog E local_repos w).2))
      as [Hin|Hout]; [|by destruct Hs].
    apply list_elem_of_fmap in Hin as (c & -> & Hin).
    exists (ctx_Repo c). apply grouped_is_Some. by exists c.
  - intros (p & Hs). apply grouped_is_Some in Hs as (c & Hin & Hk).
    rewrite decide_True; [by eexists|].
    apply list_elem_of_fmap. exists c. split; [|exact Hin].
    unfold key_of in Hk. by inversion Hk.
Qed.

Lemma flat_list_and_report_have_the_same_emails_witness :
  let x := (git_ops_shortlog author_only_env
              [set_local_path a_source "/w/source"] initial_world).2 in
  ∃ p, is_Some ((emails_by_repo (context_emails x) initial_world).1
                  !! mkKey "bo@y.org" p).
Proof.
  intros x.
  apply (flat_list_and_report_have_the_same_emails author_only_env
           [set_local_path a_source "/w/source"] initial_world
           initial_world initial_world
           (λ n, eq_refl) eq_refl author_only_env_extractable "bo@y.org").
  vm_compute. by eexists.
Defined.

(** ** More on the structured report *)

Lemma report_entry_returns store rep key role_id :
  (∃ rep', report_entry store rep (key, role_id) = Returns rep') ↔
  (key_Repo key < List.length store)%nat.
Proof.
  unfold report_entry.
  destruct (email_and_domain_total (Email key)) as [[email domain] ->].
  cbn -[deref]. unfold deref. split.
  - intros [rep' H].
    destruct (store !! key_Repo key) as [repo|] eqn:Hl; [|discriminate H].
    by eapply lookup_lt_Some.
  - intros Hlt. destruct (lookup_lt_is_Some_2 _ _ Hlt) as [repo ->].
    cbn. by eexists.
Qed.

Lemma report_entries_returns store rep entries :
  (∃ rep', report_entries store rep entries = Returns rep') ↔
  Forall (λ entry : EmailGroupByRepoKey * Z,
            (key_Repo entry.1 < List.length store)%nat) entries.
Proof.
  revert rep. induction entries as [|[key role_id] rest IH]; intros rep.
  - split; [constructor|]. intros _. by exists rep.
  - cbn [report_entries]. split.
    + intros [rep' H].
      destruct (report_entry store rep (key, role_id)) as [rep1|] eqn:H1;
        [|discriminate H].
      change (report_entries store rep1 rest = Returns rep') in H.
      constructor.
      * apply (report_entry_returns store rep key role_id). by exists rep1.
      * apply (IH rep1). by exists rep'.
    + intros Hall. apply Forall_cons in Hall as [Hk Hrest].
      apply (report_entry_returns store rep key role_id) in Hk as [rep1 ->].
      change (∃ rep', report_entries store rep1 rest = Returns rep').
      by apply IH.
Qed.

(** Whatever is listed after one more entry was listed before or is the
    item of that entry, under that entry's keys. *)
Lemma report_entry_listed_inv store rep key role_id rep' domain email item :
  report_entry store rep (key, role_id) = Returns rep' →
  listed_under rep' domain email item →
  listed_under rep domain email item ∨
  ∃ repo,
    email_and_domain (Email key) = Returns (email, domain) ∧
    deref store (key_Repo key) = Returns repo ∧
    item = item_of repo role_id.
Proof.
  intros H (m & items & Hm & Hitems & Hin).
  apply report_entry_by_domain in H as (email' & domain' & repo & Ha & Hb & H3).
  cbv zeta in H3. rewrite H3 in Hm. clear H3.
  destruct (decide (domain' = domain)) as [->|Hd].
  - rewrite lookup_insert_eq in Hm. inversion Hm as [Hm']. clear Hm.
    rewrite <- Hm' in Hitems. clear Hm'.
    destruct (decide (email' = email)) as [->|He].
    + rewrite lookup_insert_eq in Hitems. inversion Hitems as [Hi].
      rewrite <- Hi in Hin. apply elem_of_app in Hin as [Hin|Hin].
      * left.
        destruct (by_domain rep !! domain) as [base|] eqn:Hbase; simpl in Hin.
        -- destruct (base !! email) as [old|] eqn:Hold; simpl in Hin.
           ++ by exists base, old.
           ++ by apply not_elem_of_nil in Hin.
        -- rewrite lookup_empty in Hin. by apply not_elem_of_nil in Hin.
      * right. exists repo. apply elem_of_cons in Hin as [->|Hin].
        -- auto.
        -- by apply not_elem_of_nil in Hin.
    + rewrite lookup_insert_ne in Hitems by exact He. left.
      destruct (by_domain rep !! domain) as [base|] eqn:Hbase;
        simpl in Hitems.
      * by exists base, items.
      * rewrite lookup_empty in Hitems. discriminate Hitems.
  - rewrite lookup_insert_ne in Hm by exact Hd. left. by exists m, items.
Qed.

Lemma report_entries_listed_inv store entries rep rep' domain email item :
  report_entries store rep entries = Returns rep' →
  listed_under rep' domain email item →
  listed_under rep domain email item ∨
  ∃ key role_id repo,
    (key, role_id) ∈ entries ∧
    email_and_domain (Email key) = Returns (email, domain) ∧
    deref store (key_Repo key) = Returns repo ∧
    item = item_of repo role_id.
Proof.
  revert rep. induction entries as [|[key role_id] rest IH]; intros rep H Hl.
  - inversion H. subst. by left.
  - cbn [report_entries] in H.
    destruct (report_entry store rep (key, role_id)) as [rep1|] eqn:H1;
      [|discriminate H].
    change (report_entries store rep1 rest = Returns rep') in H.
    destruct (IH rep1 H Hl) as [Hold|(k & r & repo & Hin & Ha & Hb & Hc)].
    + destruct (report_entry_listed_inv _ _ _ _ _ _ _ _ H1 Hold)
        as [Hold'|(repo & Ha & Hb & Hc)]; [by left|].
      right. exists key, role_id, repo. split; [apply list_elem_of_here|auto].
    + right. exists k, r, repo. split; [by apply list_elem_of_further|auto].
Qed.

Lemma not_listed_in_empty domain email item :
  ¬ listed_under (mkReport ∅ ∅) domain email item.
Proof. intros (m & items & Hm & _). simpl in Hm. by rewrite lookup_empty in Hm. Qed.

(** [X10] [create_output_json] builds its report without panicking exactly
    when every repository address in the grouped map is an address of the
    store.  The domain view of the report then lists nothing but the
    entries of the map: every listed item is the repository name, role
    label and clone URL of an entry, under the keys computed from that
    entry's email.  When the roles of the map come from the Extractor's two
    queries, every listed role label is one of ["Author"], ["Committer"]
    and ["Author+Committer"], never the empty label of an unknown role. *)
Theorem report_lists_only_map_entries :
  (∀ store (grouped : gmap EmailGroupByRepoKey Z),
      (∃ rep, create_output_json store grouped = Returns rep) ↔
      (∀ key role_id, grouped !! key = Some role_id →
                      (key_Repo key < List.length store)%nat)) ∧
  (∀ store (grouped : gmap EmailGroupByRepoKey Z) rep domain email item,
      create_output_json store grouped = Returns rep →
      listed_under rep domain email item →
      ∃ key role_id repo,
        grouped !! key = Some role_id ∧
        email_and_domain (Email key) = Returns (email, domain) ∧
        deref store (key_Repo key) = Returns repo ∧
        item = mkFmtRepoPerEmail (Name repo) (role_name role_id) (Clone_url repo)) ∧
  (∀ store contexts w rep domain email item,
      Forall emitted_role contexts →
      create_output_json store (emails_by_repo contexts w).1 = Returns rep →
      listed_under rep domain email item →
      fr_Role item = ROLE_NAME_AUTHOR ∨ fr_Role item = ROLE_NAME_COMMITTER ∨
      fr_Role item = ROLE_NAME_BOTH).
Proof.
  assert (∀ store (grouped : gmap EmailGroupByRepoKey Z) rep domain email item,
             create_output_json store grouped = Returns rep →
             listed_under rep domain email item →
             ∃ key role_id repo,
               grouped !! key = Some role_id ∧
               email_and_domain (Email key) = Returns (email, domain) ∧
               deref store (key_Repo key) = Returns repo ∧
               item = mkFmtRepoPerEmail (Name repo) (role_name role_id)
                                        (Clone_url repo)) as Hinv.
  { intros store grouped rep domain email item H Hl.
    unfold create_output_json in H.
    destruct (report_entries_listed_inv _ _ _ _ _ _ _ H Hl)
      as [Hold|(key & role_id & repo & Hin & Ha & Hb & Hc)].
    - by apply not_listed_in_empty in Hold.
    - exists key, role_id, repo. split; [by apply elem_of_map_to_list|auto]. }
  split; [|split; [exact Hinv|]].
  - intros store grouped. unfold create_output_json.
    rewrite report_entries_returns, Forall_forall. split.
    + intros H key role_id Hk.
      apply (H (key, role_id)). by apply elem_of_map_to_list.
    + intros H [key role_id] Hin. apply (H key role_id).
      by apply elem_of_map_to_list.
  - intros store contexts w rep domain email item Hroles H Hl.
    destruct (Hinv _ _ _ _ _ _ H Hl)
      as (key & role_id & repo & Hk & _ & _ & ->).
    simpl. unfold role_name.
    destruct (role_has_label role_id
                (grouped_roles contexts w key role_id Hroles Hk))
      as [_ [[-> _]|[[-> _]|[-> _]]]]; auto.
Qed.

Lemma report_lists_only_map_entries_witness :
  ∃ rep,
    create_output_json a_store
      (emails_by_repo [mkEmailContext 0%nat "al@x.org" ROLE_AUTHOR]
                      initial_world).1 = Returns rep.
Proof.
  apply (proj1 report_lists_only_map_entries a_store).
  intros key role_id Hk.
  assert (is_Some ((emails_by_repo
                      [mkEmailContext 0%nat "al@x.org" ROLE_AUTHOR]
                      initial_world).1 !! key)) as Hs by (by eexists).
  apply grouped_is_Some in Hs as (c & Hin & <-).
  apply elem_of_cons in Hin as [->|Hin]; [simpl; lia|].
  by apply not_elem_of_nil in Hin.
Defined.

(** A repository name with an email under it in the repository view. *)
Definition in_repos_view (rep : report) (name email : string) : Prop :=
  ∃ fe, repos rep !! name = Some fe ∧ is_Some (Emails fe !! email).

Lemma report_entry_repos store rep key role_id rep' :
  report_entry store rep (key, role_id) = Returns rep' →
  ∃ email domain repo,
    email_and_domain (Email key) = Returns (email, domain) ∧
    deref store (key_Repo key) = Returns repo ∧
    repos rep' =
    alter (λ fe, mkFmtEmailPerRepo (fe_RepoUrl fe)
                   (<[email := role_name role_id]> (Emails fe)))
          (Name repo)
          (match repos rep !! Name repo with
           | Some _ => repos rep
           | None => <[Name repo := mkFmtEmailPerRepo (Clone_url repo) ∅]>
                       (repos rep)
           end).
Proof.
  unfold report_entry.
  destruct (email_and_domain (Email key)) as [[email domain]|]; [|discriminate].
  destruct (deref store (key_Repo key)) as [repo|]; [|discriminate].
  cbn -[email_and_domain deref]. intros H. inversion H as [Hrep]. clear H Hrep.
  exists email, domain, repo. auto.
Qed.

Lemma report_entry_repos_keeps store rep entry rep' name email :
  report_entry store rep entry = Returns rep' →
  in_repos_view rep name email → in_repos_view rep' name email.
Proof.
  destruct entry as [key role_id]. intros H (fe & Hfe & Hs).
  apply report_entry_repos in H as (email' & domain & repo & _ & _ & Heq).
  unfold in_repos_view. rewrite Heq.
  destruct (decide (Name repo = name)) as [->|Hne].
  - rewrite Hfe, lookup_alter_eq, Hfe. simpl. eexists. split; [reflexivity|].
    simpl. apply lookup_insert_is_Some.
    destruct (decide (email' = email)); auto.
  - rewrite lookup_alter_ne by exact Hne.
    destruct (repos rep !! Name repo).
    + by exists fe.
    + rewrite lookup_insert_ne by exact Hne. by exists fe.
Qed.

Lemma report_entry_repos_adds store rep key role_id rep' :
  report_entry store rep (key, role_id) = Returns rep' →
  ∃ email domain repo,
    email_and_domain (Email key) = Returns (email, domain) ∧
    deref store (key_Repo key) = Returns repo ∧
    in_repos_view rep' (Name repo) email.
Proof.
  intros H.
  apply report_entry_repos in H as (email & domain & repo & Ha & Hb & Heq).
  exists email, domain, repo. split; [exact Ha|]. split; [exact Hb|].
  unfold in_repos_view. rewrite Heq, lookup_alter_eq.
  destruct (repos rep !! Name repo) as [fe|] eqn:Hfe.
  - rewrite Hfe. simpl. eexists. split; [reflexivity|].
    simpl. rewrite lookup_insert_eq. by eexists.
  - rewrite lookup_insert_eq. simpl. eexists. split; [reflexivity|].
    simpl. rewrite lookup_insert_eq. by eexists.
Qed.

Lemma report_entries_repos store entries rep rep' :
  report_entries store rep entries = Returns rep' →
  (∀ name email, in_repos_view rep name email → in_repos_view rep' name email) ∧
  (∀ key role_id,
      (key, role_id) ∈ entries →
      ∃ email domain repo,
        email_and_domain (Email key) = Returns (email, domain) ∧
        deref store (key_Repo key) = Returns repo ∧
        in_repos_view rep' (Name repo) email).
Proof.
  revert rep. induction entries as [|[key role_id] rest IH]; intros rep H.
  - inversion H. subst. split; [auto|].
    intros k r Hin. by apply not_elem_of_nil in Hin.
  - cbn [report_entries] in H.
    destruct (report_entry store rep (key, role_id)) as [rep1|] eqn:H1;
      [|discriminate H].
    change (report_entries store rep1 rest = Returns rep') in H.
    destruct (IH rep1 H) as [Hkeep Hadd]. split.
    + intros name email Hv. apply Hkeep.
      exact (report_entry_repos_keeps _ _ _ _ _ _ H1 Hv).
    + intros k r Hin. apply elem_of_cons in Hin as [Heq|Hin].
      * inversion Heq. subst k r.
        apply report_entry_repos_adds in H1
          as (email & domain & repo & Ha & Hb & Hv).
        exists email, domain, repo. auto.
      * exact (Hadd k r Hin).
Qed.

(** [X11] The repository view of the report has, for every entry of the
    grouped map, the name of the entry's repository as a key and, in the
    email map under that name, the email key computed from the entry's
    email. *)
Theorem report_repos_view_has_every_entry
        store (grouped : gmap EmailGroupByRepoKey Z) rep key role_id :
  create_output_json store grouped = Returns rep →
  grouped !! key = Some role_id →
  ∃ email domain repo fe,
    email_and_domain (Email key) = Returns (email, domain) ∧
    deref store (key_Repo key) = Returns repo ∧
    repos rep !! Name repo = Some fe ∧
    is_Some (Emails fe !! email).
Proof.
  intros H Hk. unfold create_output_json in H.
  destruct (report_entries_repos _ _ _ _ H) as [_ Hadd].
  destruct (Hadd key role_id) as (email & domain & repo & Ha & Hb & fe & Hc & Hd).
  { by apply elem_of_map_to_list. }
  exists email, domain, repo, fe. auto.
Qed.

Lemma report_repos_view_has_every_entry_witness :
  ∃ email domain repo fe,
    email_and_domain "" = Returns (email, domain) ∧
    deref a_store 0%nat = Returns repo ∧
    (∃ rep, create_output_json a_store {[ mkKey "" 0%nat := ROLE_COMMITTER ]}
            = Returns rep ∧ repos rep !! Name repo = Some fe) ∧
    is_Some (Emails fe !! email).
Proof.
  destruct (create_output_json a_store {[ mkKey "" 0%nat := ROLE_COMMITTER ]})
    as [rep|] eqn:Hrep; [|vm_compute in Hrep; discriminate Hrep].
  destruct (report_repos_view_has_every_entry a_store
              {[ mkKey "" 0%nat := ROLE_COMMITTER ]} rep
              (mkKey "" 0%nat) ROLE_COMMITTER Hrep)
    as (email & domain & repo & fe & Ha & Hb & Hc & Hd).
  { apply lookup_singleton_eq. }
  exists email, domain, repo, fe. split; [exact Ha|]. split; [exact Hb|].
  split; [|exact Hd]. exists rep. auto.
Defined.

(** ** The logger, the options and the flat file *)

(** The three functions the logger has for a severity, the ones that write
    for it and the ones that stay silent. *)
Definition level_funcs (logger : Logger) (severity : Z) : list log_func :=
  if severity =? LOG_DEBUG then [Debug logger; Debugf logger; DebugFunc logger]
  else if severity =? LOG_INFO then [Info logger; Infof logger; InfoFunc logger]
  else if severity =? LOG_ERROR
       then [Error logger; Errorf logger; ErrorFunc logger]
  else [].

Definition writers (severity : Z) : list log_func :=
  if severity =? LOG_DEBUG then [log_debug; logf_debug; logfunc_debug]
  else if severity =? LOG_INFO then [log_info; logf_info; logfunc_info]
  else if severity =? LOG_ERROR then [log_error; logf_error; logfunc_error]
  else [].

Definition silent : list log_func := [noop; noopf; noopfunc].

Lemma set_level_small level :
  0 ≤ level ≤ 3 →
  level = LOG_FATAL ∨ level = LOG_ERROR ∨ level = LOG_INFO ∨ level = LOG_DEBUG.
Proof. unfold LOG_FATAL, LOG_ERROR, LOG_INFO, LOG_DEBUG. lia. Qed.

(** [X12] [set_level] refuses a level above 3 and leaves the logger as it
    was.  For a level up to 3 it returns true, stores the level, makes
    [Fatal] and [Panic] the terminating functions, and makes the three
    functions of each severity between 1 and 3 the writing ones when the
    severity is at most the level and the silent ones otherwise. *)
Theorem set_level_enables_up_to_level level logger :
  0 ≤ level →
  let r := set_level level logger in
  (3 < level → r = (false, logger)) ∧
  (level ≤ 3 →
   r.1 = true ∧ log_level r.2 = level ∧
   Fatal r.2 = log_fatal ∧ Panic r.2 = log_panic ∧
   ∀ severity, 1 ≤ severity ≤ 3 →
     level_funcs r.2 severity =
     if severity <=? level then writers severity else silent).
Proof.
  intros H0 r. subst r. split.
  - intros H. unfold set_level.
    destruct (Z.ltb_spec 3 level) as [_|Hle]; [reflexivity|lia].
  - intros H.
    assert (∀ severity, 1 ≤ severity ≤ 3 →
              severity = 1 ∨ severity = 2 ∨ severity = 3) as Hsev
      by (intros; lia).
    destruct (set_level_small level (conj H0 H)) as [Hl|[Hl|[Hl|Hl]]];
      subst level; repeat split; try reflexivity;
      intros severity Hs;
      destruct (Hsev severity Hs) as [Hv|[Hv|Hv]]; subst severity;
      reflexivity.
Qed.

Lemma set_level_enables_up_to_level_witness :
  let r := set_level LOG_INFO
             (mkLogger nil_func nil_func nil_func nil_func nil_func nil_func
                       nil_func nil_func nil_func nil_func nil_func 0) in
  r.1 = true ∧ level_funcs r.2 LOG_DEBUG = silent ∧
  level_funcs r.2 LOG_ERROR = writers LOG_ERROR.
Proof.
  intros r.
  destruct (set_level_enables_up_to_level LOG_INFO
              (mkLogger nil_func nil_func nil_func nil_func nil_func nil_func
                        nil_func nil_func nil_func nil_func nil_func 0))
    as [_ H]; [unfold LOG_INFO; lia|].
  destruct H as (H1 & _ & _ & _ & H5); [unfold LOG_INFO; lia|].
  split; [exact H1|]. split.
  - apply (H5 LOG_DEBUG). unfold LOG_DEBUG. lia.
  - apply (H5 LOG_ERROR). unfold LOG_ERROR. lia.
Defined.

(** How many of the four ways to name the target type the options use. *)
Definition settings_given (opts : options) : nat :=
  (Nat.b2n (User (Resource opts)) + Nat.b2n (Org (Resource opts)) +
   Nat.b2n (Url (Resource opts)) +
   (if String.eqb (Type_ (Resource opts)) "" then 0 else 1))%nat.

Lemma len_zero s : (len s =? 0) = String.eqb s "".
Proof. destruct s; reflexivity. Qed.

(** [X13] [init] lets the options through exactly when an odd number of the
    four target settings ([--user], [--org], [--url] and a non-empty
    [--type]) is given and [--quiet] and [--verbose] are not both set: one
    setting passes, none or two are refused, and three pass again. *)
Theorem init_accepts_odd_settings opts :
  init opts = Init_returns ↔
  Nat.odd (settings_given opts) = true ∧
  Quiet (Application opts) && Verbose (Application opts) = false.
Proof.
  unfold init, settings_given. rewrite len_zero.
  destruct opts as [args [type_ org user url_ filter] out
                         [verbose quiet wd git] adv].
  cbn [Resource Application User Org Url Type_ Quiet Verbose].
  destruct user, org, url_, (String.eqb type_ ""), quiet, verbose;
    cbn; split; try discriminate; try (intros [? ?]; discriminate); auto.
Qed.

Definition every_setting : options :=
  mkOptions (mkPositional "octo")
            (mkResourceOptions "" true true true 1000000)
            (mkOutputOptions "out.json" "out.list")
            (mkApplicationOptions false false None_Provided None_Provided)
            (mkAdvancedOptions 20 20).

Lemma init_accepts_odd_settings_witness :
  settings_given every_setting = 3%nat ∧ init every_setting = Init_returns.
Proof.
  split; [reflexivity|].
  apply (proj2 (init_accepts_odd_settings every_setting)).
  split; reflexivity.
Defined.

Lemma init_quiet_verbose opts :
  init opts = Init_returns →
  Quiet (Application opts) && Verbose (Application opts) = false.
Proof.
  unfold init.
  destruct (Quiet (Application opts) && Verbose (Application opts));
    [|reflexivity].
  repeat match goal with |- context [if ?b then _ else _] => destruct b end;
    discriminate.
Qed.

(** The values the option parser lets through for [--type]. *)
Definition type_choice (t : string) : Prop :=
  t = "" ∨ t = "user" ∨ t = "org" ∨ t = "url".

(** The working directory and the path of git the preamble settles on. *)
Definition resolved_working_dir (opts : options) (sys : system) : string :=
  if String.eqb (WorkingDir (Application opts)) None_Provided
  then filepath_Join sys
         (match os_Getwd sys with inl path => path | inr _ => "" end)
         "working_dir"
  else WorkingDir (Application opts).

Definition resolved_git_path (opts : options) (sys : system) : string :=
  if String.eqb (GitPath (Application opts)) None_Provided
  then default "" (exec_LookPath sys "git")
  else GitPath (Application opts).

(** Every call the preamble makes to the operating system succeeds, and
    the working directory is empty. *)
Definition system_ready (opts : options) (sys : system) : bool :=
  (negb (String.eqb (WorkingDir (Application opts)) None_Provided)
   || match os_Getwd sys with inl _ => true | inr _ => false end)
  && (negb (String.eqb (GitPath (Application opts)) None_Provided)
      || match exec_LookPath sys "git" with Some _ => true | None => false end)
  && (check_working_dir sys (resolved_working_dir opts sys)).1
  && (check_ouput_location sys [] (OutputFile (Output opts))).1
  && (check_ouput_location sys [OutputFile (Output opts)]
                           (OutputJson (Output opts))).1
  && match filepath_Abs sys (resolved_git_path opts sys) with
     | inl _ => true
     | inr _ => false
     end.

Lemma main_logger_calls opts logger site :
  Quiet (Application opts) && Verbose (Application opts) = false →
  let L := (set_level (main_log_level opts) logger).2 in
  Fatal L = log_fatal ∧ Panic L = log_panic ∧
  call (Error L) site = Continues tt ∧
  call (Info L) site = Continues tt ∧
  call (Infof L) site = Continues tt ∧
  call (Debugf L) site = Continues tt ∧
  level_funcs L LOG_ERROR = writers LOG_ERROR ∧
  level_funcs L LOG_INFO =
    (if Quiet (Application opts) then silent else writers LOG_INFO) ∧
  level_funcs L LOG_DEBUG =
    (if Verbose (Application opts) then writers LOG_DEBUG else silent).
Proof.
  intros Hqv. unfold main_log_level.
  destruct (Quiet (Application opts)), (Verbose (Application opts));
    try discriminate Hqv; repeat split.
Qed.

Lemma main_target_type_known opts :
  init opts = Init_returns →
  type_choice (Type_ (Resource opts)) →
  main_target_type opts = "users" ∨ main_target_type opts = "orgs" ∨
  main_target_type opts = "url".
Proof.
  intros Hinit Hchoice. revert Hinit. unfold init, main_target_type.
  rewrite len_zero.
  destruct (User (Resource opts)); [auto|].
  destruct (Org (Resource opts)); [auto|].
  destruct (Url (Resource opts)); [auto|].
  destruct Hchoice as [-> |[-> |[-> | ->]]]; cbn; auto. discriminate.
Qed.

Ltac preamble_leaf :=
  split; [intros site Hr; try discriminate Hr; inversion Hr; auto|];
  split; [intros code Hr; try discriminate Hr; inversion Hr; reflexivity|];
  split;
  [split;
   [intros [s Hr]; try discriminate Hr; reflexivity
   |intros Hr; try discriminate Hr; eexists; reflexivity]|];
  intros s Hr; try discriminate Hr; inversion Hr; subst s;
  cbn [setup_logger setup_BUFFER_SIZE setup_NUM_WORKERS setup_target_type
       setup_size_filter setup_working_dir setup_output_file
       setup_output_json setup_url setup_git_path];
  repeat split; auto; lia.

(** [X14] For options that [init] let through, with [--type] empty or one
    of its three choices, the preamble of [main] never reaches the panic
    on an unknown target type and never calls a nil logger function: it
    panics only on an unusable working directory or an unresolvable path
    of git, exits only with code 1, and gets through exactly when every
    call to the operating system succeeds and the working directory is
    empty.  When it gets through, the target type is users, orgs or url;
    the queue size and the number of workers are at least 1; the size
    filter handed to the Cloner is the option's value; a target of type
    url is used as the seed URL as it is; the working directory, the output
    paths and the path of git are the resolved ones; and the logger writes
    errors always, informational messages unless [--quiet] is set and
    debug messages only when [--verbose] is. *)
Theorem main_preamble_outcomes opts sys logger :
  init opts = Init_returns →
  type_choice (Type_ (Resource opts)) →
  0 ≤ SizeFilter (Resource opts) →
  let r := main_setup opts sys logger in
  (∀ site, r = Panicked site →
           site = Working_dir_unusable ∨ site = Git_path_unresolved) ∧
  (∀ code, r = Exits code → code = 1) ∧
  ((∃ s, r = Continues s) ↔ system_ready opts sys = true) ∧
  (∀ s, r = Continues s →
     (setup_target_type s = "users" ∨ setup_target_type s = "orgs" ∨
      setup_target_type s = "url") ∧
     1 ≤ setup_BUFFER_SIZE s ∧ 1 ≤ setup_NUM_WORKERS s ∧
     setup_size_filter s = SizeFilter (Resource opts) ∧
     (setup_target_type s = "url" → setup_url s = TargetName (Args opts)) ∧
     setup_working_dir s = resolved_working_dir opts sys ∧
     setup_output_file s = OutputFile (Output opts) ∧
     setup_output_json s = OutputJson (Output opts) ∧
     filepath_Abs sys (resolved_git_path opts sys) = inl (setup_git_path s) ∧
     level_funcs (setup_logger s) LOG_ERROR = writers LOG_ERROR ∧
     level_funcs (setup_logger s) LOG_INFO =
       (if Quiet (Application opts) then silent else writers LOG_INFO) ∧
     level_funcs (setup_logger s) LOG_DEBUG =
       (if Verbose (Application opts) then writers LOG_DEBUG else silent)).
Proof.
  intros Hinit Hchoice Hsize r. subst r.
  pose proof (main_target_type_known opts Hinit Hchoice) as Htarget.
  pose proof (init_quiet_verbose opts Hinit) as Hqv.
  assert ((len (main_target_type opts) <? 3) = false) as Hlen
    by (destruct Htarget as [-> |[-> | ->]]; reflexivity).
  assert (main_target_type opts = "url" →
          main_url (main_target_type opts) (TargetName (Args opts))
          = TargetName (Args opts)) as Hurl
    by (intros ->; reflexivity).
  destruct (main_logger_calls opts logger Not_a_panic_call Hqv)
    as (LF & LP & LE & LI & LIf & LDf & L1 & L2 & L3).
  unfold main_setup, system_ready, resolved_working_dir, resolved_git_path,
    check_working_dir, check_ouput_location.
  rewrite Hlen.
  set (L := (set_level (main_log_level opts) logger).2) in *.
  set (T := main_target_type opts) in *.
  set (U := main_url T (TargetName (Args opts))) in *.
  rewrite LF, LP, LE, LI, LIf, LDf. clearbody L T U.
  destruct (Z.ltb_spec (QueueSize (Advanced opts)) 1) as [HQ|HQ];
    destruct (Z.ltb_spec (Workers (Advanced opts)) 1) as [HW|HW];
    destruct (Z.leb_spec (SizeFilter (Resource opts)) 0) as [HS|HS];
    (destruct (String.eqb (WorkingDir (Application opts)) None_Provided);
     [destruct (os_Getwd sys) as [wp|e]|]);
    (destruct (String.eqb (GitPath (Application opts)) None_Provided);
     [destruct (exec_LookPath sys "git") as [gp|]|]);
    cbn -[level_funcs writers silent];
    try solve [preamble_leaf];
    (destruct (os_MkdirAll sys _) as [e1|];
     cbn -[level_funcs writers silent]; try solve [preamble_leaf]);
    (destruct (os_Open sys _) as [e2|];
     cbn -[level_funcs writers silent]; try solve [preamble_leaf]);
    (destruct (f_Readdir sys _) as [| |e3];
     cbn -[level_funcs writers silent]; try solve [preamble_leaf]);
    (destruct (os_OpenFile sys [] _) as [e4|];
     cbn -[level_funcs writers silent]; try solve [preamble_leaf]);
    (destruct (os_OpenFile sys _ _) as [e5|];
     cbn -[level_funcs writers silent]; try solve [preamble_leaf]);
    (destruct (filepath_Abs sys _) as [gp'|e6];
     cbn -[level_funcs writers silent]; try solve [preamble_leaf]).
Qed.

(** Options that leave the working directory and the path of git to the
    preamble, and a system on which every call succeeds; creating a file
    the program has already created fails. *)
Definition by_type_org : options :=
  mkOptions (mkPositional "octo")
            (mkResourceOptions "org" false false false 0)
            (mkOutputOptions "out.json" "out.list")
            (mkApplicationOptions false true None_Provided None_Provided)
            (mkAdvancedOptions 0 0).

Definition ready_system : system :=
  mkSystem (inl "/home/u")
           (λ _, Some "/usr/bin/git")
           (λ d n, d +:+ "/" +:+ n)
           (λ _, None) (λ _, None) (λ _, Readdir_EOF)
           (λ created file,
              if existsb (String.eqb file) created then Some "file exists"
              else None)
           (λ path, inl path).

Definition zero_logger : Logger :=
  mkLogger nil_func nil_func nil_func nil_func nil_func nil_func
           nil_func nil_func nil_func nil_func nil_func 0.

Lemma main_preamble_outcomes_witness :
  ∃ s, main_setup by_type_org ready_system zero_logger = Continues s ∧
       setup_url s = "https://api.github.com/orgs/octo/repos?per_page=100" ∧
       setup_BUFFER_SIZE s = 20 ∧
       setup_working_dir s = "/home/u/working_dir" ∧
       setup_git_path s = "/usr/bin/git" ∧
       level_funcs (setup_logger s) LOG_INFO = silent.
Proof.
  destruct (main_preamble_outcomes by_type_org ready_system zero_logger)
    as (_ & _ & Hready & Hs).
  - reflexivity.
  - right. right. left. reflexivity.
  - simpl. lia.
  - destruct (proj2 Hready eq_refl) as [s Hr].
    destruct (Hs s Hr) as (_ & _ & _ & _ & _ & _ & _ & _ & _ & _ & Hinfo & _).
    exists s. split; [exact Hr|].
    vm_compute in Hr. injection Hr as <-.
    split; [reflexivity|]. split; [reflexivity|].
    split; [reflexivity|]. split; [reflexivity|exact Hinfo].
Defined.

Lemma write_retry_four W fuel :
  (4 ≤ fuel)%nat →
  ∃ err calls,
    write_retry W fuel 0%nat 1 = Some (err, calls) ∧
    (1 ≤ calls ≤ 4)%nat ∧
    (∀ k, (S k < calls)%nat → is_Some (W k)) ∧
    err = W (pred calls) ∧
    (is_Some err → calls = 4%nat).
Proof.
  intros Hfuel.
  destruct fuel as [|[|[|[|fuel]]]]; try lia. clear Hfuel.
  cbn [write_retry].
  destruct (W 0%nat) as [e0|] eqn:H0; cbn;
    [destruct (W 1%nat) as [e1|] eqn:H1; cbn;
     [destruct (W 2%nat) as [e2|] eqn:H2; cbn;
      [destruct (W 3%nat) as [e3|] eqn:H3; cbn|]|]|];
    eexists _, _; (split; [reflexivity|]); cbn [pred];
    rewrite ?H0, ?H1, ?H2, ?H3;
    (split; [lia|]); (split; [|split; [reflexivity|]]);
    try (intros [e He]; discriminate He); try reflexivity;
    intros k Hlt; destruct k as [|[|[|k]]]; try lia;
    rewrite ?H0, ?H1, ?H2; by eexists.
Qed.

Lemma append_empty_r s : s +:+ "" = s.
Proof.
  induction s as [|c s IH]; [reflexivity|].
  rewrite append_cons. by rewrite IH.
Qed.

Lemma buffer_fold LINE_SEP keys buffer :
  fold_left (λ buffer key, buffer +:+ key +:+ LINE_SEP) keys buffer =
  buffer +:+ fold_left (λ buffer key, buffer +:+ key +:+ LINE_SEP) keys "".
Proof.
  revert buffer. induction keys as [|key keys IH]; intros buffer;
    cbn [fold_left].
  - symmetry. apply append_empty_r.
  - change ("" +:+ key +:+ LINE_SEP) with (key +:+ LINE_SEP).
    rewrite (IH (buffer +:+ key +:+ LINE_SEP)), (IH (key +:+ LINE_SEP)).
    by rewrite !append_assoc.
Qed.

Lemma output_data_has_key LINE_SEP (emails : gmap string Z) key :
  is_Some (emails !! key) →
  ∃ before after,
    output_data LINE_SEP emails = before +:+ key +:+ LINE_SEP +:+ after.
Proof.
  intros [v Hv]. unfold output_data.
  assert (key ∈ map fst (map_to_list emails)) as Hin.
  { apply list_elem_of_fmap. exists (key, v). split; [reflexivity|].
    by apply elem_of_map_to_list. }
  apply list_elem_of_split in Hin as (l1 & l2 & ->).
  rewrite fold_left_app. cbn [fold_left]. rewrite buffer_fold.
  exists (fold_left (λ buffer key, buffer +:+ key +:+ LINE_SEP) l1 ""),
         (fold_left (λ buffer key, buffer +:+ key +:+ LINE_SEP) l2 "").
  by rewrite !append_assoc.
Qed.

(** [X15] The flat file: every email of the map is in the buffer, followed
    by the line separator.  Nothing is written for an empty map; otherwise
    the same buffer is written to the same path up to four times, one call
    after each failed one, the first successful call ends the loop without
    an error, and an error is returned only after the fourth failed call
    and is the error of that call. *)
Theorem flat_file_written_within_four_calls
        LINE_SEP WriteFile fuel output_file (emails : gmap string Z) :
  (4 ≤ fuel)%nat →
  let data := output_data LINE_SEP emails in
  (∀ key, is_Some (emails !! key) →
          ∃ before after, data = before +:+ key +:+ LINE_SEP +:+ after) ∧
  ∃ err calls,
    write_flat_file LINE_SEP WriteFile fuel output_file emails
    = Some (err, calls) ∧
    (calls ≤ 4)%nat ∧
    (calls = 0%nat ↔ emails = ∅) ∧
    (∀ k, (S k < calls)%nat → is_Some (WriteFile k output_file data)) ∧
    (emails ≠ ∅ → err = WriteFile (pred calls) output_file data) ∧
    (is_Some err → calls = 4%nat).
Proof.
  intros Hfuel data. split.
  { intros key. apply output_data_has_key. }
  unfold write_flat_file.
  destruct (Z.eqb_spec (Z.of_nat (size emails)) 0) as [Hz|Hnz].
  - assert (emails = ∅) as -> by (apply map_size_empty_iff; lia).
    exists None, 0%nat. split; [reflexivity|]. split; [lia|].
    split; [done|]. split; [intros k Hk; lia|]. split; [done|].
    intros [e He]. discriminate He.
  - assert (emails ≠ ∅) as Hne.
    { intros ->. apply Hnz. by rewrite map_size_empty. }
    unfold create_output_file.
    destruct (write_retry_four
                (λ k, WriteFile k output_file (output_data LINE_SEP emails))
                fuel Hfuel) as (err & calls & H1 & H2 & H3 & H4 & H5).
    exists err, calls. split; [exact H1|]. split; [lia|].
    split; [split; [lia|done]|]. split; [exact H3|]. split; [done|exact H5].
Qed.

(** The first two calls fail and the third goes through. *)
Definition third_time_lucky (k : nat) (name data : string) : option string :=
  if (k <? 2)%nat then Some "disk full" else None.

Lemma flat_file_written_within_four_calls_witness :
  write_flat_file "|" third_time_lucky 4 "out.list" {[ "a@b.c" := 1 ]}
  = Some (None, 3%nat) ∧
  ∃ before after,
    output_data "|" {[ "a@b.c" := 1 ]} = before +:+ "a@b.c" +:+ "|" +:+ after.
Proof.
  destruct (flat_file_written_within_four_calls "|" third_time_lucky 4
              "out.list" {[ "a@b.c" := 1 ]}) as [Hdata _]; [lia|].
  split; [vm_compute; reflexivity|].
  apply Hdata. rewrite lookup_singleton_eq. by eexists.
Defined.

(** * The cancellation token across the pipeline *)





















